(** * KenKen puzzle generator and CSP model: a shallow embedding of kenken.py

    The development follows the Python module function by function:
    [operation], [adjacent], [generate], [validate], [RowXorCol],
    [conflicting], [satisfies], [gdomains], [gneighbors] and the
    [constraint] method of class [Kenken].

    Python integers are [Z]; tuples and lists are [list]; dictionaries are
    [gmap], or an association list where the iteration order is observed;
    sets are [gset]; exceptions are an explicit error result; the hidden
    state of the [random] module is threaded through a state monad. *)

From Stdlib Require Import ZArith QArith String Ascii DecimalString.
From stdpp Require Import base tactics option list gmap strings sorting.

Local Open Scope Z_scope.

(** * Part I: the program *)

(** ** Exceptions and the error monad *)

(** [OutOfFuel] is not a Python exception: it marks a [while] loop of the
    model that was cut off before its condition became false.
    [generate_returns] shows that it never arises. *)
Inductive pyerror : Type :=
  | TypeError
  | IndexError
  | ValueError
  | KeyError
  | ZeroDivisionError
  | SystemExit (code : Z)
  | OutOfFuel.

Inductive result (A : Type) : Type :=
  | Ok (a : A)
  | Raise (e : pyerror).
Arguments Ok {A} a.
Arguments Raise {A} e.

#[global] Instance result_ret : MRet result := fun A a => Ok a.
#[global] Instance result_bind : MBind result := fun A B f m =>
  match m with
  | Ok a => f a
  | Raise e => Raise e
  end.
#[global] Instance result_fmap : FMap result := fun A B f m =>
  match m with
  | Ok a => Ok (f a)
  | Raise e => Raise e
  end.

(** [l[i]] for [i >= 0]: IndexError out of range. *)
Definition index {A} (l : list A) (i : nat) : result A :=
  match l !! i with
  | Some x => Ok x
  | None => Raise IndexError
  end.

(** A [for] loop whose body may [return True]; falling through gives
    [False].  An exception in the body aborts the loop. *)
Fixpoint any_until {I} (body : I -> result bool) (l : list I) : result bool :=
  match l with
  | [] => Ok false
  | i :: l' =>
      match body i with
      | Ok true => Ok true
      | Ok false => any_until body l'
      | Raise e => Raise e
      end
  end.

(** A [for] loop updating one variable, in the error monad. *)
Fixpoint for_each {A I} (body : A -> I -> result A) (a : A) (l : list I) : result A :=
  match l with
  | [] => Ok a
  | i :: l' => a' ← body a i; for_each body a' l'
  end.

(** A list comprehension whose element expression may raise. *)
Fixpoint comprehension {A B} (f : A -> result B) (l : list A) : result (list B) :=
  match l with
  | [] => Ok []
  | x :: l' => y ← f x; ys ← comprehension f l'; Ok (y :: ys)
  end.

(** [list(filter(p, l))] for a predicate that may raise. *)
Fixpoint filter_list {A} (p : A -> result bool) (l : list A) : result (list A) :=
  match l with
  | [] => Ok []
  | x :: l' =>
      keep ← p x;
      rest ← filter_list p l';
      Ok (if keep : bool then x :: rest else rest)
  end.

(** ** Numbers

    [+], [-] and [*] on Python integers are exact.  [a / b] is Python's
    true division and yields a float; the model keeps the exact rational
    quotient.  The program forms quotients of cell values only and
    compares them with integers only; on operands far below 2^53, as the
    values of any grid that fits in memory are, the double-precision
    result of such a chain of divisions equals an integer exactly when the
    exact quotient does. *)

Inductive pynum : Type :=
  | PyInt (z : Z)
  | PyFloat (q : Q).

Definition to_Q (v : pynum) : Q :=
  match v with
  | PyInt z => inject_Z z
  | PyFloat q => q
  end.

Definition py_add (a b : pynum) : pynum :=
  match a, b with
  | PyInt x, PyInt y => PyInt (x + y)
  | _, _ => PyFloat (to_Q a + to_Q b)
  end.

Definition py_sub (a b : pynum) : pynum :=
  match a, b with
  | PyInt x, PyInt y => PyInt (x - y)
  | _, _ => PyFloat (to_Q a - to_Q b)
  end.

Definition py_mul (a b : pynum) : pynum :=
  match a, b with
  | PyInt x, PyInt y => PyInt (x * y)
  | _, _ => PyFloat (to_Q a * to_Q b)
  end.

Definition py_truediv (a b : pynum) : result pynum :=
  if Qeq_bool (to_Q b) 0 then Raise ZeroDivisionError
  else Ok (PyFloat (to_Q a / to_Q b)).

(** [a == b] and [a > b] compare numerically. *)
Definition py_eq (a b : pynum) : bool := Qeq_bool (to_Q a) (to_Q b).
Definition py_gt (a b : pynum) : bool := negb (Qle_bool (to_Q a) (to_Q b)).

(** [int(v)] truncates towards zero. *)
Definition py_int (v : pynum) : Z :=
  match v with
  | PyInt z => z
  | PyFloat q => Z.quot (Qnum q) (Z.pos (Qden q))
  end.

(** ** operation *)

Definition binop : Type := pynum -> pynum -> result pynum.

(** [None] is returned for every other string. *)
Definition operation (operator : string) : option binop :=
  if String.eqb operator "+" then Some (fun a b => Ok (py_add a b))
  else if String.eqb operator "-" then Some (fun a b => Ok (py_sub a b))
  else if String.eqb operator "*" then Some (fun a b => Ok (py_mul a b))
  else if String.eqb operator "/" then Some py_truediv
  else None.

(** Calling [None] raises TypeError. *)
Definition call (f : option binop) (a b : pynum) : result pynum :=
  match f with
  | Some g => g a b
  | None => Raise TypeError
  end.

(** [functools.reduce(f, l)] without initial value: TypeError on an empty
    sequence; a one-element sequence is returned without calling [f]. *)
Fixpoint reduce_from (f : option binop) (acc : pynum) (l : list pynum) : result pynum :=
  match l with
  | [] => Ok acc
  | y :: l' => acc' ← call f acc y; reduce_from f acc' l'
  end.

Definition reduce (f : option binop) (l : list pynum) : result pynum :=
  match l with
  | [] => Raise TypeError
  | x :: l' => reduce_from f x l'
  end.

(** ** Cells, cliques *)

Definition Cell : Type := Z * Z.

(** A clique is [(members, operator, target)]. *)
Definition clique : Type := list Cell * string * Z.

Definition members_of (c : clique) : list Cell := c.1.1.
Definition operator_of (c : clique) : string := c.1.2.
Definition target_of (c : clique) : Z := c.2.

(** ** adjacent *)

Definition adjacent (xy1 xy2 : Cell) : bool :=
  let '(x1, y1) := xy1 in
  let '(x2, y2) := xy2 in
  let dx := x1 - x2 in
  let dy := y1 - y2 in
  ((dx =? 0) && (Z.abs dy =? 1)) || ((dy =? 0) && (Z.abs dx =? 1)).

(** ** The random module

    The generator's hidden state is the stream of numbers it will still
    produce.  [randbelow n] takes the next number modulo [n]; [randint],
    [choice] and [shuffle] are written over it as in CPython's random.py.
    Quantifying over the stream covers every sequence of random choices. *)

Definition rng : Type := nat -> nat.

Definition M (A : Type) : Type := rng -> result (A * rng).

Definition retM {A} (a : A) : M A := fun r => Ok (a, r).
Definition bindM {A B} (m : M A) (k : A -> M B) : M B := fun r =>
  match m r with
  | Ok (a, r') => k a r'
  | Raise e => Raise e
  end.
Definition lift {A} (m : result A) : M A := fun r =>
  match m with
  | Ok a => Ok (a, r)
  | Raise e => Raise e
  end.

Declare Scope rand_scope.
Delimit Scope rand_scope with rand.
Notation "x <- m ;; k" := (bindM m (fun x => k))
  (at level 100, m at next level, right associativity) : rand_scope.

Definition draw : M nat := fun r => Ok (r 0%nat, fun k => r (S k)).

Definition randbelow (n : nat) : M nat :=
  match n with
  | O => lift (Raise ValueError)
  | S _ => (k <- draw ;; retM (k mod n)%nat)%rand
  end.

Definition randint (a b : Z) : M Z :=
  (k <- randbelow (Z.to_nat (b - a + 1)) ;; retM (a + Z.of_nat k))%rand.

(** [choice(seq)]: IndexError on an empty sequence. *)
Definition choice {A} (l : list A) : M A :=
  match l with
  | [] => lift (Raise IndexError)
  | _ => (k <- randbelow (length l) ;; lift (index l k))%rand
  end.

(** The outcome of the test [random() > 0.5]. *)
Definition random_gt_half : M bool :=
  (k <- draw ;; retM (Nat.odd k))%rand.

(** [x[i], x[j] = x[j], x[i]] *)
Definition swap {A} (i j : nat) (x : list A) : result (list A) :=
  xj ← index x j;
  xi ← index x i;
  Ok (<[j := xi]> (<[i := xj]> x)).

(** [for i in reversed(range(1, len(x))): j = randbelow(i + 1); swap] *)
Fixpoint shuffle_from {A} (i : nat) (x : list A) : M (list A) :=
  match i with
  | O => retM x
  | S i' =>
      (j <- randbelow (S i) ;;
       x' <- lift (swap i j x) ;;
       shuffle_from i' x')%rand
  end.

Definition shuffle {A} (x : list A) : M (list A) :=
  shuffle_from (length x - 1) x.

(** A [for] loop updating one variable, in the random monad. *)
Fixpoint for_eachM {A I} (body : A -> I -> M A) (a : A) (l : list I) : M A :=
  match l with
  | [] => retM a
  | i :: l' => (a' <- body a i ;; for_eachM body a' l')%rand
  end.

(** ** Dictionaries whose key order is observed *)

Definition pydict (K V : Type) : Type := list (K * V).

Definition dict_get {K V} `{EqDecision K} (d : pydict K V) (k : K) : result V :=
  match list_find (fun kv => kv.1 = k) d with
  | Some (_, kv) => Ok kv.2
  | None => Raise KeyError
  end.

(** [d[k] = v]: an existing key keeps its position. *)
Fixpoint dict_set {K V} `{EqDecision K} (d : pydict K V) (k : K) (v : V) : pydict K V :=
  match d with
  | [] => [(k, v)]
  | kv :: d' => if decide (kv.1 = k) then (k, v) :: d' else kv :: dict_set d' k v
  end.

Definition dict_keys {K V} (d : pydict K V) : list K := d.*1.

(** [sorted(l, key=key)]: a stable sort. *)
Fixpoint insert_by {A} (key : A -> Z) (x : A) (l : list A) : list A :=
  match l with
  | [] => [x]
  | y :: l' => if key x <=? key y then x :: l else y :: insert_by key x l'
  end.

Fixpoint sorted_by {A} (key : A -> Z) (l : list A) : list A :=
  match l with
  | [] => []
  | x :: l' => insert_by key x (sorted_by key l')
  end.

(** [l.remove(x)]: removes the first occurrence, ValueError if absent. *)
Fixpoint list_remove {A} `{EqDecision A} (x : A) (l : list A) : result (list A) :=
  match l with
  | [] => Raise ValueError
  | y :: l' => if decide (y = x) then Ok l' else l'' ← list_remove x l'; Ok (y :: l'')
  end.

(** ** generate *)

(** [range(n)] is [seqZ 0 n], [range(1, n + 1)] is [seqZ 1 n]. *)
Definition initial_board (size : Z) : list (list Z) :=
  (fun j => (fun i => (i + j) mod size + 1) <$> seqZ 0 size) <$> seqZ 0 size.

(** [for r in range(size): board[r][c1], board[r][c2] = board[r][c2], board[r][c1]] *)
Definition swap_columns (size : Z) (c1 c2 : Z) (board : list (list Z))
  : result (list (list Z)) :=
  for_each (fun board r =>
    row ← index board (Z.to_nat r);
    row' ← swap (Z.to_nat c1) (Z.to_nat c2) row;
    Ok (<[Z.to_nat r := row']> board)) board (seqZ 0 size).

Definition shuffle_board (size : Z) : M (list (list Z)) :=
  (board <- for_eachM (fun board _ => shuffle board) (initial_board size) (seqZ 0 size) ;;
   for_eachM (fun board c1 =>
     for_eachM (fun board c2 =>
       gt <- random_gt_half ;;
       if gt : bool then lift (swap_columns size c1 c2 board) else retM board)
       board (seqZ 0 size))
     board (seqZ 0 size))%rand.

(** [{(j + 1, i + 1): board[i][j] for i in range(size) for j in range(size)}] *)
Definition board_dict (size : Z) (board : list (list Z)) : result (pydict Cell Z) :=
  items ← comprehension (fun ij : Z * Z =>
             let '(i, j) := ij in
             row ← index board (Z.to_nat i);
             v ← index row (Z.to_nat j);
             Ok ((j + 1, i + 1), v))
           (i ← seqZ 0 size; j ← seqZ 0 size; [(i, j)]);
  Ok (foldl (fun d kv => dict_set d kv.1 kv.2) [] items).

(** The inner [for _ in range(csize - 1)] loop: [k] rounds are left,
    [cell] is the cell added last.  [choice(adjs) if adjs else None]
    followed by [if not cell: break] leaves the loop when [adjs] is
    empty; a cell, a non-empty tuple, is never falsy. *)
Fixpoint grow (k : nat) (cell : Cell) (uncaged : list Cell) (members : list Cell)
  : M (list Cell * list Cell) :=
  match k with
  | O => retM (uncaged, members)
  | S k' =>
      let adjs := filter (fun other => adjacent cell other = true) uncaged in
      match adjs with
      | [] => retM (uncaged, members)
      | _ =>
          (cell' <- choice adjs ;;
           uncaged' <- lift (list_remove cell' uncaged) ;;
           grow k' cell' uncaged' (members ++ [cell']))%rand
      end
  end.

(** What the loop body does with a finished member list. *)
Definition make_clique (board : pydict Cell Z) (members : list Cell) : M clique :=
  let csize := length members in
  if (csize =? 1)%nat then
    (cell <- lift (index members 0) ;;
     v <- lift (dict_get board cell) ;;
     retM ([cell], "."%string, v))%rand
  else
    (operator <-
       (if (csize =? 2)%nat then
          lift (fst ← index members 0;
                snd ← index members 1;
                vf ← dict_get board fst;
                vs ← dict_get board snd;
                q ← py_truediv (PyInt vf) (PyInt vs);
                if py_gt q (PyInt 0) then
                  (if vs =? 0 then Raise ZeroDivisionError
                   else Ok (if vf mod vs =? 0 then "/"%string else "-"%string))
                else Ok "-"%string)
        else choice ["+"%string; "*"%string]) ;;
     values <- lift (comprehension (dict_get board) members) ;;
     target <- lift (reduce (operation operator) (PyInt <$> values)) ;;
     retM (members, operator, py_int target))%rand.

(** The [while uncaged] loop.  Every round removes [uncaged[0]], so
    [length uncaged] rounds of fuel are enough. *)
Fixpoint carve (fuel : nat) (board : pydict Cell Z) (uncaged : list Cell)
    (cliques : list clique) : M (list clique) :=
  match uncaged with
  | [] => retM cliques
  | cell :: _ =>
      match fuel with
      | O => lift (Raise OutOfFuel)
      | S fuel' =>
          (csize <- randint 1 4 ;;
           uncaged <- lift (list_remove cell uncaged) ;;
           grown <- grow (Z.to_nat (csize - 1)) cell uncaged [cell] ;;
           let '(uncaged, members) := grown in
           c <- make_clique board members ;;
           carve fuel' board uncaged (cliques ++ [c]))%rand
      end
  end.

(** [generate] together with the board it discards. *)
Definition generate_with_board (size : Z) : M (pydict Cell Z * (Z * list clique)) :=
  (board <- shuffle_board size ;;
   board <- lift (board_dict size board) ;;
   let uncaged := sorted_by (fun var : Cell => var.2) (dict_keys board) in
   cliques <- carve (length uncaged) board uncaged [] ;;
   retM (board, (size, cliques)))%rand.

Definition generate (size : Z) : M (Z * list clique) :=
  (bc <- generate_with_board size ;; retM bc.2)%rand.

(** ** validate *)

(** [s in t] for strings: [s] occurs in [t] as a substring. *)
Fixpoint str_in (s t : string) : bool :=
  String.prefix s t ||
  match t with
  | EmptyString => false
  | String _ t' => str_in s t'
  end.

(** [tuple(set(members))]: the members without repetition, in the
    iteration order of the set.  Python leaves that order to the
    implementation; the model takes the order of [gset], and no statement
    below depends on it. *)
Definition tuple_of_set (members : list Cell) : list Cell :=
  elements (list_to_set members : gset Cell).

Definition outOfBounds (size : Z) (xy : Cell) : bool :=
  (xy.1 <? 1) || (xy.1 >? size) || (xy.2 <? 1) || (xy.2 >? size).

(** One round of the loop over [cliques]; [exit(n)] is [SystemExit n]. *)
Definition validate_clique (size : Z) (mentioned : gset Cell) (c : clique)
  : result (gset Cell * clique) :=
  let '(members, operator, target) := c in
  let members := tuple_of_set members in
  if negb (str_in operator "+-*/.") then Raise (SystemExit 1)
  else if negb (bool_decide (filter (fun xy => outOfBounds size xy = true) members = []))
  then Raise (SystemExit 2)
  else if negb (bool_decide (mentioned ∩ list_to_set members = (∅ : gset Cell)))
  then Raise (SystemExit 3)
  else Ok (mentioned ∪ list_to_set members, (members, operator, target)).

(** [validate] rewrites the list it is given and returns nothing; the
    model returns the rewritten list, the one that [Kenken.__init__] then
    hands to [gdomains] and [gneighbors]. *)
Definition validate (size : Z) (cliques : list clique) : result (list clique) :=
  st ← for_each (fun (st : gset Cell * list clique) c =>
          mc ← validate_clique size st.1 c;
          Ok (mc.1, st.2 ++ [mc.2]))
        (∅, []) cliques;
  let indexes := seqZ 1 size in
  let problematic : gset Cell :=
    list_to_set (y ← indexes; x ← indexes; [(x, y)]) ∖ st.1 in
  if negb (bool_decide (problematic = ∅)) then Raise (SystemExit 4)
  else Ok st.2.

(** ** RowXorCol, conflicting *)

Definition RowXorCol (xy1 xy2 : Cell) : bool :=
  xorb (xy1.1 =? xy2.1) (xy1.2 =? xy2.2).

Definition conflicting (A : list Cell) (a : list Z) (B : list Cell) (b : list Z)
  : result bool :=
  any_until (fun i =>
    any_until (fun j =>
      mA ← index A i;
      mB ← index B j;
      ma ← index a i;
      mb ← index b j;
      Ok (RowXorCol mA mB && (ma =? mb)))
      (seq 0 (length B)))
    (seq 0 (length A)).

(** ** satisfies *)

(** Every way of taking one element out of a list, leftmost first. *)
Fixpoint selections {A} (l : list A) : list (A * list A) :=
  match l with
  | [] => []
  | x :: l' => (x, l') :: ((fun yr : A * list A => (yr.1, x :: yr.2)) <$> selections l')
  end.

(** [itertools.permutations(l)], in its order; [n] is [len(l)]. *)
Fixpoint permutations_of {A} (n : nat) (l : list A) : list (list A) :=
  match n with
  | O => [[]]
  | S n' => xr ← selections l; (fun p => xr.1 :: p) <$> permutations_of n' xr.2
  end.

Definition permutations {A} (l : list A) : list (list A) :=
  permutations_of (length l) l.

Definition satisfies (values : list Z) (operation : option binop) (target : Z)
  : result bool :=
  any_until (fun p =>
    r ← reduce operation (PyInt <$> p);
    Ok (py_eq r (PyInt target)))
    (permutations values).

(** ** gdomains *)

(** [itertools.product(pool, repeat=n)] *)
Fixpoint product {A} (pool : list A) (n : nat) : list (list A) :=
  match n with
  | O => [[]]
  | S n' => x ← pool; t ← product pool n'; [x :: t]
  end.

(** [not conflicting(...) and satisfies(...)] *)
Definition qualifies (members : list Cell) (operator : string) (target : Z)
    (values : list Z) : result bool :=
  c ← conflicting members values members values;
  if negb c then satisfies values (operation operator) target else Ok false.

(** The list stored under [members] by one round of the loop. *)
Definition clique_domain (size : Z) (c : clique) : result (list (list Z)) :=
  let '(members, operator, target) := c in
  filter_list (qualifies members operator target)
              (product (seqZ 1 size) (length members)).

(** One round of the loop: [domains[members] = list(filter(...))]. *)
Definition gdomains_round (size : Z) (domains : gmap (list Cell) (list (list Z)))
    (c : clique) : result (gmap (list Cell) (list (list Z))) :=
  dom ← clique_domain size c;
  Ok (<[members_of c := dom]> domains).

Definition gdomains (size : Z) (cliques : list clique)
  : result (gmap (list Cell) (list (list Z))) :=
  for_each (gdomains_round size) ∅ cliques.

(** ** gneighbors *)

Definition getitem {K V} `{Countable K} (d : gmap K V) (k : K) : result V :=
  match d !! k with
  | Some v => Ok v
  | None => Raise KeyError
  end.

(** The body of the two nested loops. *)
Definition gneighbors_step (neighbors : gmap (list Cell) (list (list Cell)))
    (A B : list Cell) : result (gmap (list Cell) (list (list Cell))) :=
  if bool_decide (A ≠ B) then
    nA ← getitem neighbors A;
    if bool_decide (B ∉ nA) then
      c ← conflicting A (replicate (length A) (-1)) B (replicate (length B) (-1));
      if c : bool then
        nA ← getitem neighbors A;
        let neighbors := <[A := nA ++ [B]]> neighbors in
        nB ← getitem neighbors B;
        Ok (<[B := nB ++ [A]]> neighbors)
      else Ok neighbors
    else Ok neighbors
  else Ok neighbors.

Definition gneighbors (cliques : list clique)
  : result (gmap (list Cell) (list (list Cell))) :=
  let neighbors := foldl (fun d c => <[members_of c := []]> d) ∅ cliques in
  for_each (fun neighbors cA =>
    for_each (fun neighbors cB =>
      gneighbors_step neighbors (members_of cA) (members_of cB))
      neighbors cliques)
    neighbors cliques.

(** ** The constraint method of class Kenken *)

Module Kenken.

(** [self.checks] is the only attribute the method touches; it is threaded
    explicitly.  [A == B or ...] short-circuits. *)
Definition constraint (checks : Z) (A : list Cell) (a : list Z)
    (B : list Cell) (b : list Z) : result bool * Z :=
  let checks := checks + 1 in
  (if bool_decide (A = B) then Ok true
   else negb <$> conflicting A a B b, checks).

(** [str(n)] for an integer. *)
Definition str (n : Z) : string := NilZero.string_of_int (Z.to_int n).

(** The attributes of a [Kenken] object.  [variables], [domains] and
    [neighbors] are the arguments that [__init__] passes on to
    [csp.CSP.__init__], which is not part of this file. *)
Record t : Type := Build {
  variables : list (list Cell);
  domains : gmap (list Cell) (list (list Z));
  neighbors : gmap (list Cell) (list (list Cell));
  size : Z;
  checks : Z;
  padding : Z;
  meta : pydict (list Cell) (string * Z)
}.

(** [__init__]: [validate] has rewritten [cliques] when the rest runs. *)
Definition init (size : Z) (cliques : list clique) : result t :=
  cliques ← validate size cliques;
  let variables := members_of <$> cliques in
  domains ← gdomains size cliques;
  neighbors ← gneighbors cliques;
  let mp := foldl (fun (mp : pydict (list Cell) (string * Z) * Z) c =>
                     (dict_set mp.1 (members_of c) (operator_of c, target_of c),
                      Z.max mp.2 (Z.of_nat (String.length (str (target_of c))))))
                  ([], 0) cliques in
  Ok (Build variables domains neighbors size 0 mp.2 mp.1).

(** ** display *)















End Kenken.

(** ** kenken_input, generate_board *)

(** [color] takes the member tuples as [generate] made them, before
    [Kenken(size, cliques)] rewrites the list. *)
Definition kenken_input (board_size : Z)
  : M (Kenken.t * list (list Cell) * list string) :=
  (sc <- generate board_size ;;
   let '(size, cliques) := sc in
   let op := (fun items : clique =>
                let cara := if String.eqb (operator_of items) "." then ""%string
                            else (" " ++ operator_of items)%string in
                ("(" ++ Kenken.str (target_of items) ++ cara ++ ")")%string)
             <$> cliques in
   let color := members_of <$> cliques in
   ken <- lift (Kenken.init size cliques) ;;
   retM (ken, color, op))%rand.

(** [Kenken(0, "")] iterates over the empty string, as over an empty
    list of cliques. *)
Definition generate_board (board_size : Z)
  : M (list (list Cell) * list string * Kenken.t) :=
  (ken <- lift (Kenken.init 0 []) ;;
   kco <- kenken_input board_size ;;
   let '(ken, colorindex, op) := kco in
   retM (colorindex, op, ken))%rand.

(** ** Auxiliary definitions for the statements

    They are not part of the program. *)

(** The pure test computed by [conflicting] when no index is out of range. *)
Definition clash (A : list Cell) (a : list Z) (B : list Cell) (b : list Z) : bool :=
  existsb (fun i =>
    existsb (fun j =>
      match A !! i, B !! j, a !! i, b !! j with
      | Some mA, Some mB, Some ma, Some mb => RowXorCol mA mB && (ma =? mb)
      | _, _, _, _ => false
      end) (seq 0 (length B))) (seq 0 (length A)).

(** The test [gneighbors] makes on two member tuples: the sentinel tuples
    are equal everywhere. *)
Definition may_conflict (A B : list Cell) : bool :=
  clash A (replicate (length A) (-1)) B (replicate (length B) (-1)).

(** [B in neighbors[A]] *)
Definition neighbour_of (nb : gmap (list Cell) (list (list Cell)))
    (A B : list Cell) : Prop :=
  exists l, nb !! A = Some l /\ B ∈ l.

(** The state of the dictionary of [gneighbors] once the pairs in [S] have
    been visited by its two loops; [keys] are the member tuples. *)
Definition visited (keys : list (list Cell)) (S : list Cell -> list Cell -> Prop)
    (nb : gmap (list Cell) (list (list Cell))) : Prop :=
  (forall A, is_Some (nb !! A) <-> A ∈ keys) /\
  forall X Y, neighbour_of nb X Y <->
    exists A B, S A B /\ A <> B /\ may_conflict A B = true /\
      ((X = A /\ Y = B) \/ (X = B /\ Y = A)).

(** The cells of the [size] x [size] grid, row by row. *)
Definition all_cells (size : Z) : list Cell :=
  y ← seqZ 1 size; x ← seqZ 1 size; [(x, y)].

(** A computation of the random monad that, whatever numbers the
    generator produces, returns normally with a value satisfying [Q]. *)
Definition returns {A} (m : M A) (Q : A -> Prop) : Prop :=
  forall r : rng, exists a r', m r = Ok (a, r') /\ Q a.

(** The exchange of the indices [i] and [j]. *)
Definition transp (i j k : nat) : nat :=
  if decide (k = j) then i else if decide (k = i) then j else k.

(** [board[r][c]] of the list-of-rows board. *)
Definition entry (board : list (list Z)) (r c : nat) : option Z :=
  board !! r ≫= fun row => row !! c.

(** A [size] x [size] list of rows with entries in [1..size], no value
    twice in a row and no value twice in a column. *)
Definition latin (size : Z) (board : list (list Z)) : Prop :=
  length board = Z.to_nat size /\
  (forall r row, board !! r = Some row -> length row = Z.to_nat size) /\
  (forall r c v, entry board r c = Some v -> 1 <= v <= size) /\
  (forall r c1 c2 v, entry board r c1 = Some v -> entry board r c2 = Some v -> c1 = c2) /\
  (forall r1 r2 c v, entry board r1 c = Some v -> entry board r2 c = Some v -> r1 = r2).

(** The same for the dictionary from cells to values: its keys are the
    cells of the grid, the values lie in [1..size], and two cells that
    share exactly one coordinate hold different values. *)
Definition latin_dict (size : Z) (board : pydict Cell Z) : Prop :=
  NoDup (dict_keys board) /\
  (forall c, c ∈ dict_keys board <-> c ∈ all_cells size) /\
  (forall c v, (c, v) ∈ board -> 1 <= v <= size) /\
  (forall c1 c2 v1 v2, (c1, v1) ∈ board -> (c2, v2) ∈ board ->
     RowXorCol c1 c2 = true -> v1 <> v2).

(** How [generate] labels a member list, given the values of its cells. *)
Definition labelled (values : list Z) (operator : string) (target : Z) : Prop :=
  match values with
  | [] => False
  | [v] => operator = "."%string /\ target = v
  | [vf; vs] =>
      (vf mod vs = 0 -> operator = "/"%string /\ target = vf / vs) /\
      (vf mod vs <> 0 -> operator = "-"%string /\ target = vf - vs)
  | v :: vs =>
      (operator = "+"%string /\ target = foldl Z.add v vs) \/
      (operator = "*"%string /\ target = foldl Z.mul v vs)
  end.

(** A clique as [generate] makes it from [board]. *)
Definition made_from (board : pydict Cell Z) (c : clique) : Prop :=
  exists values,
    comprehension (dict_get board) (members_of c) = Ok values /\
    labelled values (operator_of c) (target_of c).

(** A clique that the labelling step of [generate] returns for its own
    member list, for some state of the random generator. *)
Definition made_by (board : pydict Cell Z) (c : clique) : Prop :=
  exists r1 r2 : rng, make_clique board (members_of c) r1 = Ok (c, r2).

(** The sum and the product of a tuple of integers. *)
Definition total (l : list Z) : Z := foldr Z.add 0 l.
Definition product_of (l : list Z) : Z := foldr Z.mul 1 l.

(** One round of the loop of [validate], as a function of its state
    [(mentioned, rewritten cliques)]. *)
Definition validate_round (size : Z) (st : gset Cell * list clique) (c : clique)
  : result (gset Cell * list clique) :=
  mc ← validate_clique size st.1 c;
  Ok (mc.1, st.2 ++ [mc.2]).

(** What [validate] makes of a clique it accepts. *)
Definition rewritten (c : clique) : clique :=
  (tuple_of_set (members_of c), operator_of c, target_of c).

Definition in_grid (size : Z) (x : Cell) : Prop :=
  1 <= x.1 <= size /\ 1 <= x.2 <= size.

(** The conditions that the loop of [validate] tests: every operator
    occurs in ["+-*/."], every member is a cell of the grid, and no cell
    is a member of two cliques of the list. *)
Definition well_formed (size : Z) (cliques : list clique) : Prop :=
  (forall c, c ∈ cliques ->
     str_in (operator_of c) "+-*/." = true /\
     forall x, x ∈ members_of c -> in_grid size x) /\
  (forall i j ci cj x, cliques !! i = Some ci -> cliques !! j = Some cj ->
     x ∈ members_of ci -> x ∈ members_of cj -> i = j).

(** Every cell of the grid is a member of some clique. *)
Definition covering (size : Z) (cliques : list clique) : Prop :=
  forall x, in_grid size x -> exists c, c ∈ cliques /\ x ∈ members_of c.

(** Each cell of the list is orthogonally adjacent to the next one. *)
Definition chain (l : list Cell) : Prop :=
  forall i c1 c2, l !! i = Some c1 -> l !! S i = Some c2 -> adjacent c1 c2 = true.

(** The value of a cell on the board, 0 for a cell that is not a key. *)
Definition value_on (board : pydict Cell Z) (m : Cell) : Z :=
  match dict_get board m with
  | Ok v => v
  | Raise _ => 0
  end.

(** A clique that the values of its cells on [board] satisfy. *)
Definition solved_on (board : pydict Cell Z) (c : clique) : Prop :=
  members_of c <> [] /\
  (forall m, m ∈ members_of c -> m ∈ dict_keys board) /\
  (length (members_of c) = 1%nat \/ is_Some (operation (operator_of c))) /\
  exists p r, p ≡ₚ value_on board <$> members_of c /\
    reduce (operation (operator_of c)) (PyInt <$> p) = Ok r /\
    py_eq r (PyInt (target_of c)) = true.

(** ** Auxiliary definitions for display *)










Fixpoint no_space (s : string) : Prop :=
  match s with
  | EmptyString => True
  | String c s' => c <> " "%char /\ no_space s'
  end.

(** * Part II: properties *)

Section any_until_facts.
Context {I : Type}.

Lemma any_until_total (body : I -> result bool) (f : I -> bool) l :
  (forall i, i ∈ l -> body i = Ok (f i)) ->
  any_until body l = Ok (existsb f l).
Proof.
  induction l as [|i l IH]; intros Hb; simpl; [done|].
  rewrite (Hb i) by left.
  destruct (f i); simpl; [done|].
  apply IH. intros j Hj. apply Hb. by right.
Qed.
End any_until_facts.

Lemma RowXorCol_spec (c1 c2 : Cell) :
  RowXorCol c1 c2 = true <->
  (c1.1 = c2.1 /\ c1.2 <> c2.2) \/ (c1.1 <> c2.1 /\ c1.2 = c2.2).
Proof.
  unfold RowXorCol.
  destruct (Z.eqb_spec c1.1 c2.1), (Z.eqb_spec c1.2 c2.2); simpl; intuition congruence.
Qed.

Lemma RowXorCol_sym (c1 c2 : Cell) : RowXorCol c1 c2 = RowXorCol c2 c1.
Proof. unfold RowXorCol. by rewrite (Z.eqb_sym c1.1), (Z.eqb_sym c1.2). Qed.

Lemma RowXorCol_irrefl (c : Cell) : RowXorCol c c = false.
Proof. unfold RowXorCol. by rewrite !Z.eqb_refl. Qed.

Lemma conflicting_clash A a B b :
  (length A <= length a)%nat -> (length B <= length b)%nat ->
  conflicting A a B b = Ok (clash A a B b).
Proof.
  intros Ha Hb. unfold conflicting, clash.
  apply any_until_total. intros i Hi.
  apply any_until_total. intros j Hj.
  apply elem_of_seq in Hi, Hj.
  destruct (lookup_lt_is_Some_2 A i) as [mA HA]; [lia|].
  destruct (lookup_lt_is_Some_2 B j) as [mB HB]; [lia|].
  destruct (lookup_lt_is_Some_2 a i) as [ma Hma]; [lia|].
  destruct (lookup_lt_is_Some_2 b j) as [mb Hmb]; [lia|].
  unfold index. rewrite HA, HB, Hma, Hmb. done.
Qed.

Lemma clash_true A a B b :
  clash A a B b = true <->
  exists i j mA mB v,
    A !! i = Some mA /\ B !! j = Some mB /\
    a !! i = Some v /\ b !! j = Some v /\ RowXorCol mA mB = true.
Proof.
  unfold clash. rewrite existsb_exists. split.
  - intros (i & _ & Hi). apply existsb_exists in Hi as (j & _ & Hj).
    destruct (A !! i) as [mA|] eqn:HA; [|done].
    destruct (B !! j) as [mB|] eqn:HB; [|done].
    destruct (a !! i) as [ma|] eqn:Hma; [|done].
    destruct (b !! j) as [mb|] eqn:Hmb; [|done].
    apply andb_true_iff in Hj as [Hx Hv]. apply Z.eqb_eq in Hv. subst mb.
    by exists i, j, mA, mB, ma.
  - intros (i & j & mA & mB & v & HA & HB & Hma & Hmb & Hx).
    exists i. split.
    { apply list_elem_of_In, elem_of_seq. apply lookup_lt_Some in HA. lia. }
    apply existsb_exists. exists j. split.
    { apply list_elem_of_In, elem_of_seq. apply lookup_lt_Some in HB. lia. }
    by rewrite HA, HB, Hma, Hmb, Hx, Z.eqb_refl.
Qed.

(** C2. For tuples whose lengths match their cliques, [conflicting] returns
    normally, and it returns True exactly when some position [i] of [A] and
    some position [j] of [B] hold cells that agree in exactly one coordinate
    (same column and different row, or same row and different column) and
    carry equal values [a[i] == b[j]]. *)
Theorem conflicting_iff (A : list Cell) (a : list Z) (B : list Cell) (b : list Z) :
  length a = length A -> length b = length B ->
  exists r, conflicting A a B b = Ok r /\
    (r = true <->
     exists i j mA mB va vb,
       A !! i = Some mA /\ B !! j = Some mB /\
       a !! i = Some va /\ b !! j = Some vb /\
       ((mA.1 = mB.1 /\ mA.2 <> mB.2) \/ (mA.1 <> mB.1 /\ mA.2 = mB.2)) /\
       va = vb).
Proof.
  intros Ha Hb. exists (clash A a B b). split.
  - apply conflicting_clash; lia.
  - rewrite clash_true. split.
    + intros (i & j & mA & mB & v & HA & HB & Hma & Hmb & Hx).
      exists i, j, mA, mB, v, v. by rewrite <- RowXorCol_spec.
    + intros (i & j & mA & mB & va & vb & HA & HB & Hma & Hmb & Hx & ->).
      exists i, j, mA, mB, vb. by rewrite RowXorCol_spec.
Qed.

Lemma conflicting_iff_witness :
  exists r, conflicting [(1, 1); (1, 2)] [2; 2] [(1, 1); (1, 2)] [2; 2] = Ok r /\
    (r = true <->
     exists i j mA mB va vb,
       [(1, 1); (1, 2)] !! i = Some mA /\ [(1, 1); (1, 2)] !! j = Some mB /\
       [2; 2] !! i = Some va /\ [2; 2] !! j = Some vb /\
       ((mA.1 = mB.1 /\ mA.2 <> mB.2) \/ (mA.1 <> mB.1 /\ mA.2 = mB.2)) /\
       va = vb).
Proof. apply (conflicting_iff [(1, 1); (1, 2)] [2; 2] [(1, 1); (1, 2)] [2; 2]); reflexivity. Defined.

(** C10. When both variable arguments are the same clique, the constraint
    method returns True whatever tuples it is given (of any contents and
    any lengths), after counting the check. *)
Theorem constraint_same_variable (checks : Z) (A : list Cell) (a b : list Z) :
  Kenken.constraint checks A a A b = (Ok true, checks + 1).
Proof.
  unfold Kenken.constraint. by rewrite bool_decide_eq_true_2.
Qed.

(** ** Loops in the error monad *)

Lemma bind_Ok {A B} (m : result A) (k : A -> result B) (b : B) :
  m ≫= k = Ok b <-> exists a, m = Ok a /\ k a = Ok b.
Proof.
  destruct m as [a|e]; simpl; split.
  - intros H. by exists a.
  - by intros (a' & [= <-] & H).
  - done.
  - by intros (a' & [=] & _).
Qed.

Lemma for_each_app {A I} (body : A -> I -> result A) a (l1 l2 : list I) :
  for_each body a (l1 ++ l2) = for_each body a l1 ≫= fun a' => for_each body a' l2.
Proof.
  revert a. induction l1 as [|i l1 IH]; intros a; simpl; [done|].
  destruct (body a i) as [a'|e]; simpl; [apply IH|done].
Qed.

Lemma any_until_true {I} (body : I -> result bool) (l : list I) :
  any_until body l = Ok true -> exists i, i ∈ l /\ body i = Ok true.
Proof.
  induction l as [|i l IH]; simpl; [done|].
  destruct (body i) as [[]|e] eqn:Hb; [| |done].
  - intros _. exists i. split; [left|done].
  - intros (j & Hj & Hbj)%IH. exists j. split; [by right|done].
Qed.

Lemma filter_list_elem_of {A} (p : A -> result bool) (l l' : list A) x :
  filter_list p l = Ok l' -> x ∈ l' <-> x ∈ l /\ p x = Ok true.
Proof.
  revert l'. induction l as [|y l IH]; intros l'; simpl.
  - intros [= <-]. split; [by intros ?%elem_of_nil|by intros [?%elem_of_nil _]].
  - destruct (p y) as [keep|e] eqn:Hp; simpl; [|done].
    destruct (filter_list p l) as [rest|e]; simpl; [|done].
    intros [= <-]. specialize (IH rest eq_refl).
    destruct keep; rewrite ?elem_of_cons, IH.
    + split; [intros [->|[? ?]]; auto|intros [[->|?] ?]; auto].
    + split; [intros [? ?]; auto|intros [[->|?] ?]; [congruence|auto]].
Qed.

Lemma filter_list_total {A} (p : A -> result bool) (l : list A) :
  (forall x, x ∈ l -> exists b, p x = Ok b) -> exists l', filter_list p l = Ok l'.
Proof.
  induction l as [|y l IH]; intros Hp; simpl; [by eexists|].
  destruct (Hp y) as [b ->]; [left|].
  destruct IH as [rest ->]; [intros x Hx; apply Hp; by right|].
  simpl. by eexists.
Qed.

(** ** permutations *)

Lemma selections_Permutation {A} (l : list A) x rest :
  (x, rest) ∈ selections l -> l ≡ₚ x :: rest.
Proof.
  revert x rest. induction l as [|y l IH]; intros x rest; simpl.
  - by intros ?%elem_of_nil.
  - intros [[= -> ->]|Hin]%elem_of_cons; [done|].
    apply list_elem_of_fmap in Hin as ([x' rest'] & [= -> ->] & Hin).
    simpl. rewrite (IH _ _ Hin). apply Permutation_swap.
Qed.

Lemma permutations_of_Permutation {A} n (l p : list A) :
  length l = n -> p ∈ permutations_of n l -> p ≡ₚ l.
Proof.
  revert l p. induction n as [|n IH]; intros l p Hlen; simpl.
  - intros ->%list_elem_of_singleton. by destruct l.
  - intros ([x rest] & Hp & Hsel)%list_elem_of_bind.
    apply list_elem_of_fmap in Hp as (q & -> & Hq). simpl in *.
    apply selections_Permutation in Hsel.
    rewrite Hsel. constructor. apply IH; [|done].
    apply Permutation_length in Hsel. simpl in Hsel. lia.
Qed.

Lemma permutations_Permutation {A} (l p : list A) :
  p ∈ permutations l -> p ≡ₚ l.
Proof. by apply permutations_of_Permutation. Qed.

Lemma permutations_self {A} (l : list A) : l ∈ permutations l.
Proof.
  unfold permutations. induction l as [|x l IH]; simpl; [left|].
  apply elem_of_app. left. apply list_elem_of_fmap. by exists l.
Qed.

(** ** satisfies *)

Lemma satisfies_true values f target :
  satisfies values f target = Ok true ->
  exists p r, p ≡ₚ values /\ reduce f (PyInt <$> p) = Ok r /\
              py_eq r (PyInt target) = true.
Proof.
  intros (p & Hp & Hbody)%any_until_true.
  apply bind_Ok in Hbody as (r & Hr & [= Heq]).
  exists p, r. by split; [apply permutations_Permutation|].
Qed.

(** ** gdomains *)

Lemma qualifies_true members operator target values :
  qualifies members operator target values = Ok true ->
  conflicting members values members values = Ok false /\
  satisfies values (operation operator) target = Ok true.
Proof.
  unfold qualifies. intros (c & Hc & H)%bind_Ok.
  destruct c; simpl in H; [done|]. by rewrite Hc.
Qed.

Lemma gdomains_app size cliques1 cliques2 :
  gdomains size (cliques1 ++ cliques2) =
  gdomains size cliques1 ≫= fun d => for_each (gdomains_round size) d cliques2.
Proof. apply for_each_app. Qed.

(** A later round of the loop leaves the entries of other keys alone. *)
Lemma gdomains_rest_lookup size cliques d d' members :
  for_each (gdomains_round size) d cliques = Ok d' ->
  members ∉ members_of <$> cliques ->
  d' !! members = d !! members.
Proof.
  revert d. induction cliques as [|c cliques IH]; intros d; simpl.
  - by intros [= ->].
  - intros (d1 & Hd1 & Hrest)%bind_Ok Hnotin.
    apply bind_Ok in Hd1 as (dom & Hdom & [= <-]).
    apply not_elem_of_cons in Hnotin as [Hne Hnotin].
    rewrite (IH _ Hrest Hnotin). by apply lookup_insert_ne.
Qed.

(** The entry of a key is the list computed for the last clique with
    that member tuple. *)
Lemma gdomains_lookup size pre c post d :
  gdomains size (pre ++ c :: post) = Ok d ->
  members_of c ∉ members_of <$> post ->
  exists dom, clique_domain size c = Ok dom /\ d !! members_of c = Some dom.
Proof.
  rewrite gdomains_app. intros (d0 & _ & H)%bind_Ok Hnotin. simpl in H.
  apply bind_Ok in H as (d1 & Hd1 & Hrest).
  apply bind_Ok in Hd1 as (dom & Hdom & [= <-]).
  exists dom. split; [done|].
  rewrite (gdomains_rest_lookup _ _ _ _ _ Hrest Hnotin).
  apply lookup_insert_eq.
Qed.

Lemma gdomains_total size cliques :
  (forall c, c ∈ cliques -> exists dom, clique_domain size c = Ok dom) ->
  exists d, gdomains size cliques = Ok d.
Proof.
  unfold gdomains. generalize (∅ : gmap (list Cell) (list (list Z))).
  induction cliques as [|c cliques IH]; intros d Hall; simpl; [by eexists|].
  destruct (Hall c) as [dom Hdom]; [left|].
  assert (gdomains_round size d c = Ok (<[members_of c := dom]> d)) as ->
    by (unfold gdomains_round; by rewrite Hdom).
  simpl. apply IH. intros c' Hc'. apply Hall. by right.
Qed.

(** C1, counterexample.  With a member tuple listed twice the entry kept
    for it is the one of the later clique: under size 2 the domain stored
    for the clique [(((1,1),), ".", 1)] holds the tuple [(2,)], which no
    permutation folds to the target 1. *)
Lemma domain_soundness_counterexample :
  exists d dom t,
    gdomains 2 [([(1, 1)], "."%string, 1); ([(1, 1)], "."%string, 2)] = Ok d /\
    ([(1, 1)], "."%string, 1) ∈
      [([(1, 1)], "."%string, 1); ([(1, 1)], "."%string, 2) : clique] /\
    d !! [(1, 1)] = Some dom /\ t ∈ dom /\
    ~ exists p r, p ≡ₚ t /\
        reduce (operation ".") (PyInt <$> p) = Ok r /\
        py_eq r (PyInt 1) = true.
Proof.
  eexists _, [[2]], [2]. split_and!.
  - vm_compute. reflexivity.
  - left.
  - vm_compute. reflexivity.
  - left.
  - intros (p & r & Hp & Hr & Heq).
    apply Permutation_singleton_r in Hp as ->. simpl in Hr.
    injection Hr as <-. vm_compute in Heq. discriminate.
Qed.

(** C1, as amended.  For every size >= 1 and every cage list, take a
    clique that is not followed by a clique with the same member tuple (any
    clique, when the member tuples of the list are pairwise different).
    Every tuple of the domain that [gdomains] returns for it passes both
    filters: it does not conflict with itself, and some permutation of it
    folds, from the left under the clique's operator, to the target. *)
Theorem domain_soundness (size : Z) (pre post : list clique)
    (members : list Cell) (operator : string) (target : Z)
    (d : gmap (list Cell) (list (list Z))) (dom : list (list Z)) (t : list Z) :
  1 <= size ->
  gdomains size (pre ++ (members, operator, target) :: post) = Ok d ->
  members ∉ members_of <$> post ->
  d !! members = Some dom ->
  t ∈ dom ->
  conflicting members t members t = Ok false /\
  exists p r, p ≡ₚ t /\
    reduce (operation operator) (PyInt <$> p) = Ok r /\
    py_eq r (PyInt target) = true.
Proof.
  intros _ Hd Hlast Hdom Ht.
  apply gdomains_lookup in Hd as (dom' & Hdom' & Hlook); [|done].
  change (members_of (members, operator, target)) with members in Hlook.
  rewrite Hdom in Hlook. injection Hlook as <-.
  unfold clique_domain in Hdom'.
  apply (filter_list_elem_of _ _ _ t) in Hdom'.
  apply Hdom' in Ht as [_ Hq].
  apply qualifies_true in Hq as [Hc Hs].
  split; [done|]. by apply satisfies_true.
Qed.

Lemma domain_soundness_witness :
  conflicting [(1, 1); (1, 2)] [2; 1] [(1, 1); (1, 2)] [2; 1] = Ok false /\
  exists p r, p ≡ₚ [2; 1] /\
    reduce (operation "-") (PyInt <$> p) = Ok r /\
    py_eq r (PyInt 1) = true.
Proof.
  apply (domain_soundness 3 [] [] [(1, 1); (1, 2)] "-" 1
           {[ [(1, 1); (1, 2)] := [[1; 2]; [2; 1]; [2; 3]; [3; 2]] ]}
           [[1; 2]; [2; 1]; [2; 3]; [3; 2]] [2; 1]).
  - lia.
  - vm_compute. reflexivity.
  - apply not_elem_of_nil.
  - vm_compute. reflexivity.
  - right. left.
Defined.

(** C9.  The operator test is a substring test: [validate] lets the
    operator ["+-"], which is none of the five symbols and for which
    [operation] has no function, pass, while ["%"] exits with status 1. *)
Theorem validate_accepts_operator_plus_minus :
  validate 1 [([(1, 1)], "+-"%string, 1)] = Ok [([(1, 1)], "+-"%string, 1)] /\
  operation "+-" = None /\
  validate 1 [([(1, 1)], "%"%string, 1)] = Raise (SystemExit 1).
Proof. split_and!; vm_compute; reflexivity. Qed.

(** The operator test of one round fails exactly for the strings that do
    not occur in ["+-*/."]. *)
Lemma validate_clique_operator size mentioned members operator target :
  validate_clique size mentioned (members, operator, target) = Raise (SystemExit 1) <->
  str_in operator "+-*/." = false.
Proof.
  unfold validate_clique.
  destruct (str_in operator "+-*/."); simpl; [|done].
  repeat case_bool_decide; simpl; split; congruence.
Qed.

(** C7.  A cage list that [validate] accepts and on which [gdomains]
    raises TypeError: the first clique has operator ["."] and two members,
    so [satisfies] calls [None]. *)
Theorem gdomains_raises_on_validated_cliques :
  validate 2 [([(1, 1); (2, 1)], "."%string, 3); ([(1, 2); (2, 2)], "+"%string, 3)]
  = Ok [([(1, 1); (2, 1)], "."%string, 3); ([(1, 2); (2, 2)], "+"%string, 3)] /\
  gdomains 2 [([(1, 1); (2, 1)], "."%string, 3); ([(1, 2); (2, 2)], "+"%string, 3)]
  = Raise TypeError.
Proof. split; vm_compute; reflexivity. Qed.

(** A clique without members passes [validate] as well, and [gdomains]
    raises on it whatever its operator: [reduce] of an empty tuple. *)
Example gdomains_raises_on_empty_clique :
  validate 1 [([], "+"%string, 0); ([(1, 1)], "."%string, 1)]
  = Ok [([], "+"%string, 0); ([(1, 1)], "."%string, 1)] /\
  gdomains 1 [([], "+"%string, 0); ([(1, 1)], "."%string, 1)] = Raise TypeError.
Proof. split; vm_compute; reflexivity. Qed.

(** ** validate *)

Lemma for_each_inv {A I} (P : A -> Prop) (body : A -> I -> result A) a (l : list I) a' :
  P a ->
  (forall a i a', i ∈ l -> P a -> body a i = Ok a' -> P a') ->
  for_each body a l = Ok a' -> P a'.
Proof.
  revert a. induction l as [|i l IH]; intros a Ha Hstep; simpl.
  - by intros [= <-].
  - intros (a1 & Ha1 & Hrest)%bind_Ok.
    apply (IH a1); [|intros ????; apply Hstep; by right|done].
    apply (Hstep a i); [left|done..].
Qed.

Lemma tuple_of_set_NoDup members : NoDup (tuple_of_set members).
Proof. unfold tuple_of_set. apply NoDup_elements. Qed.

Lemma elem_of_tuple_of_set members x : x ∈ tuple_of_set members <-> x ∈ members.
Proof. unfold tuple_of_set. by rewrite elem_of_elements, elem_of_list_to_set. Qed.

Lemma validate_clique_Ok size mentioned c mentioned' c' :
  validate_clique size mentioned c = Ok (mentioned', c') ->
  c' = (tuple_of_set (members_of c), operator_of c, target_of c) /\
  (forall x, x ∈ members_of c' -> outOfBounds size x = false) /\
  (forall x, x ∈ members_of c' -> x ∉ mentioned) /\
  (forall x, x ∈ mentioned' <-> x ∈ mentioned \/ x ∈ members_of c').
Proof.
  destruct c as [[members operator] target]. unfold validate_clique.
  destruct (str_in operator "+-*/."); simpl; [|done].
  case_bool_decide as Hoob; simpl; [|done].
  case_bool_decide as Hdis; simpl; [|done].
  intros [= <- <-]. split_and!; [done|..].
  - intros x Hx. destruct (outOfBounds size x) eqn:Hb; [|done].
    assert (x ∈ filter (λ xy, outOfBounds size xy = true) (tuple_of_set members)) as Hin
      by (by apply list_elem_of_filter).
    rewrite Hoob in Hin. by apply elem_of_nil in Hin.
  - intros x Hx Hm. cut (x ∈ (∅ : gset Cell)); [set_solver|].
    rewrite <- Hdis. apply elem_of_intersection. split; [done|].
    by apply elem_of_list_to_set.
  - intros x. rewrite elem_of_union, elem_of_list_to_set. done.
Qed.

(** What [validate] has checked when it returns: the member tuples of the
    rewritten list are duplicate-free, pairwise disjoint and within the
    grid, and together they cover it. *)
Lemma validate_Ok size cliques cliques' :
  validate size cliques = Ok cliques' ->
  NoDup (mjoin (members_of <$> cliques')) /\
  (forall x, x ∈ mjoin (members_of <$> cliques') <-> x ∈ all_cells size).
Proof.
  unfold validate. intros (st & Hloop & Hfin)%bind_Ok.
  case_bool_decide as Hcov; simpl in Hfin; [|done]. injection Hfin as <-.
  pose (P := fun st : gset Cell * list clique =>
    NoDup (mjoin (members_of <$> st.2)) /\
    (forall x, x ∈ st.1 <-> x ∈ mjoin (members_of <$> st.2)) /\
    (forall x, x ∈ st.1 -> outOfBounds size x = false)).
  assert (P st) as (Hnd & Hment & Hbounds).
  { eapply (for_each_inv P); [| |exact Hloop].
    - split_and!; simpl; [constructor|set_solver|set_solver].
    - clear. intros [mentioned out] c [mentioned' out'] _ (Hnd & Hment & Hb) Hbody.
      apply bind_Ok in Hbody as ([m1 c1] & Hc & [= <- <-]).
      apply validate_clique_Ok in Hc as (-> & Hin & Hfresh & Hm1).
      unfold P. cbn [fst snd members_of] in *.
      rewrite fmap_app, join_app. cbn [fmap list_fmap mjoin list_join members_of fst].
      rewrite app_nil_r.
      split_and!.
      + apply NoDup_app. split_and!; [done| |apply tuple_of_set_NoDup].
        intros x Hx%Hment Hx'. by apply (Hfresh x).
      + intros x. rewrite Hm1, elem_of_app, Hment. done.
      + intros x [Hx|Hx]%Hm1; auto. }
  split; [done|].
  intros x. rewrite <- Hment. split.
  - intros Hx. pose proof (Hbounds x Hx) as Hb.
    unfold outOfBounds in Hb. unfold all_cells.
    apply list_elem_of_bind. exists x.2. split; [|apply elem_of_seqZ; lia].
    apply list_elem_of_bind. exists x.1. split; [|apply elem_of_seqZ; lia].
    destruct x. by left.
  - intros Hx. destruct (decide (x ∈ st.1)) as [|Hnot]; [done|].
    cut (x ∈ (∅ : gset Cell)); [set_solver|].
    rewrite <- Hcov. apply elem_of_difference. split; [|done].
    by apply elem_of_list_to_set.
Qed.

(** Among disjoint member tuples a non-empty one occurs once. *)
Lemma disjoint_key_once (pre post : list clique) c x :
  NoDup (mjoin (members_of <$> pre ++ c :: post)) ->
  x ∈ members_of c ->
  members_of c ∉ members_of <$> post.
Proof.
  intros Hnd Hx Hin.
  rewrite fmap_app, join_app in Hnd. simpl in Hnd.
  apply NoDup_app in Hnd as (_ & _ & Hnd).
  apply NoDup_app in Hnd as (_ & Hnd & _).
  apply (Hnd x Hx). apply list_elem_of_join. by exists (members_of c).
Qed.

Lemma validated_key_once size cliques pre c post x :
  validate size cliques = Ok (pre ++ c :: post) ->
  x ∈ members_of c ->
  members_of c ∉ members_of <$> post.
Proof. intros [Hnd _]%validate_Ok. by apply (disjoint_key_once pre). Qed.

(** ** Single-cell cliques *)

Lemma py_eq_int (v t : Z) : py_eq (PyInt v) (PyInt t) = (v =? t).
Proof.
  unfold py_eq, Qeq_bool. simpl. by rewrite !Z.mul_1_r.
Qed.

Lemma qualifies_single_cell (c : Cell) operator t v :
  qualifies [c] operator t [v] = Ok (v =? t).
Proof.
  unfold qualifies. rewrite conflicting_clash by done.
  unfold clash. cbn. rewrite RowXorCol_irrefl. cbn.
  rewrite py_eq_int. by destruct (v =? t).
Qed.

Lemma filter_list_singletons (p : list Z -> result bool) (l : list Z) t :
  NoDup l -> (forall v, p [v] = Ok (v =? t)) ->
  filter_list p ((fun x => [x]) <$> l) = Ok (if bool_decide (t ∈ l) then [[t]] else []).
Proof.
  intros Hnd Hp. induction Hnd as [|y l Hy Hnd IH]; csimpl; [done|].
  rewrite Hp. csimpl. rewrite IH. csimpl. destruct (Z.eqb_spec y t) as [->|Hne].
  - rewrite (bool_decide_eq_false_2 _ Hy), bool_decide_eq_true_2; [done|left].
  - f_equal. apply (f_equal (fun b : bool => if b then [[t]] else [])).
    apply bool_decide_ext. rewrite elem_of_cons. split; [by right|by intros [?|?]].
Qed.

Lemma product_one {A} (pool : list A) : product pool 1 = (fun x => [x]) <$> pool.
Proof. simpl. induction pool as [|x pool IH]; csimpl; [done|]. by rewrite IH. Qed.

Lemma clique_domain_single_cell size (c : Cell) operator t :
  clique_domain size ([c], operator, t)
  = Ok (if bool_decide (1 <= t <= size) then [[t]] else []).
Proof.
  unfold clique_domain. change (length [c]) with 1%nat. rewrite product_one.
  rewrite (filter_list_singletons _ _ t);
    [|apply NoDup_seqZ|intros v; apply qualifies_single_cell].
  f_equal. apply (f_equal (fun b : bool => if b then [[t]] else [])).
  apply bool_decide_ext. rewrite elem_of_seqZ. lia.
Qed.

(** C8, counterexample.  For size 1 the list with the one clique
    [(((1,1),), ".", 5)] is accepted by [validate], and the domain of that
    clique is empty: it does not hold the tuple [(5,)]. *)
Lemma single_cell_domain_counterexample :
  validate 1 [([(1, 1)], "."%string, 5)] = Ok [([(1, 1)], "."%string, 5)] /\
  exists d, gdomains 1 [([(1, 1)], "."%string, 5)] = Ok d /\
    d !! [(1, 1)] = Some [] /\ d !! [(1, 1)] <> Some [[5]].
Proof.
  split; [vm_compute; reflexivity|].
  eexists. split; [vm_compute; reflexivity|].
  split; [vm_compute; reflexivity|]. vm_compute. discriminate.
Qed.

(** C8, as amended.  For a validated cage list and a clique of it with
    the single member [c] and target [t], the list that [gdomains]
    computes for the clique is [[(t,)]] when [1 <= t <= size] and is empty
    otherwise; it is computed without error, and it is the entry of
    [(c,)] in every dictionary that [gdomains] returns for the list. *)
Theorem single_cell_domain (size : Z) (cliques cliques' : list clique)
    (c : Cell) (operator : string) (t : Z) :
  validate size cliques = Ok cliques' ->
  ([c], operator, t) ∈ cliques' ->
  clique_domain size ([c], operator, t)
    = Ok (if bool_decide (1 <= t <= size) then [[t]] else []) /\
  forall d, gdomains size cliques' = Ok d ->
    d !! [c] = Some (if bool_decide (1 <= t <= size) then [[t]] else []).
Proof.
  intros Hval Hin. split; [apply clique_domain_single_cell|].
  intros d Hd.
  apply list_elem_of_split in Hin as (pre & post & ->).
  apply gdomains_lookup in Hd as (dom & Hdom & Hlook).
  - rewrite clique_domain_single_cell in Hdom. injection Hdom as <-. done.
  - eapply (validated_key_once _ _ _ _ _ c); [done|]. left.
Qed.

Lemma single_cell_domain_witness :
  clique_domain 2 ([(1, 1)], "."%string, 2)
    = Ok (if bool_decide (1 <= 2 <= 2) then [[2]] else []) /\
  forall d,
    gdomains 2 [([(1, 1)], "."%string, 2); ([(1, 2); (2, 1); (2, 2)], "+"%string, 4)]
      = Ok d ->
    d !! [(1, 1)] = Some (if bool_decide (1 <= 2 <= 2) then [[2]] else []).
Proof.
  apply (single_cell_domain 2
           [([(1, 1)], "."%string, 2); ([(2, 1); (1, 2); (2, 2)], "+"%string, 4)]
           [([(1, 1)], "."%string, 2); ([(1, 2); (2, 1); (2, 2)], "+"%string, 4)]
           (1, 1) "." 2).
  - vm_compute. reflexivity.
  - left.
Defined.

(** ** gneighbors *)

Lemma for_each_prefix {A I} (P : list I -> A -> Prop) (body : A -> I -> result A)
    a (l : list I) :
  P [] a ->
  (forall pre i post a, l = pre ++ i :: post -> P pre a ->
     exists a', body a i = Ok a' /\ P (pre ++ [i]) a') ->
  exists a', for_each body a l = Ok a' /\ P l a'.
Proof.
  revert P a. induction l as [|i l IH]; intros P a HP Hstep; simpl.
  - by exists a.
  - destruct (Hstep [] i l a eq_refl HP) as (a1 & -> & HP1). simpl.
    apply (IH (fun pre => P (i :: pre))); [done|].
    intros pre j post a2 -> HP2. by apply (Hstep (i :: pre) j post).
Qed.

Lemma may_conflict_true A B :
  may_conflict A B = true <->
  exists mA mB, mA ∈ A /\ mB ∈ B /\ RowXorCol mA mB = true.
Proof.
  unfold may_conflict. rewrite clash_true. split.
  - intros (i & j & mA & mB & v & HA & HB & _ & _ & Hx).
    exists mA, mB. split_and!; [by eapply list_elem_of_lookup_2..|done].
  - intros (mA & mB & [i HA]%list_elem_of_lookup & [j HB]%list_elem_of_lookup & Hx).
    exists i, j, mA, mB, (-1). split_and!; [done..| | |done].
    + apply lookup_replicate_2. by eapply lookup_lt_Some.
    + apply lookup_replicate_2. by eapply lookup_lt_Some.
Qed.

Lemma may_conflict_sym A B : may_conflict A B = may_conflict B A.
Proof.
  apply eq_true_iff_eq. rewrite !may_conflict_true.
  split; intros (m1 & m2 & ? & ? & ?); exists m2, m1; by rewrite RowXorCol_sym.
Qed.

Lemma conflicting_sentinels A B :
  conflicting A (replicate (length A) (-1)) B (replicate (length B) (-1))
  = Ok (may_conflict A B).
Proof. apply conflicting_clash; by rewrite length_replicate. Qed.

Section gneighbors_facts.
Variable keys : list (list Cell).

Lemma visited_ext S S' nb :
  (forall A B, S A B <-> S' A B) -> visited keys S nb -> visited keys S' nb.
Proof.
  intros HS [Hdom Hrel]. split; [done|].
  intros X Y. rewrite Hrel. by setoid_rewrite HS.
Qed.

Lemma gneighbors_step_visited S nb A B :
  A ∈ keys -> B ∈ keys -> visited keys S nb ->
  exists nb', gneighbors_step nb A B = Ok nb' /\
    visited keys (fun X Y => S X Y \/ (X = A /\ Y = B)) nb'.
Proof.
  intros HA HB [Hdom Hrel]. unfold gneighbors_step.
  case_bool_decide as Hne; cycle 1.
  { exists nb. split; [done|]. split; [done|].
    intros X Y. rewrite Hrel. split.
    - intros (A0 & B0 & ? & ?). exists A0, B0. tauto.
    - intros (A0 & B0 & [?|[-> ->]] & Hne0 & ?); [|by destruct Hne].
      by exists A0, B0. }
  destruct (proj2 (Hdom A) HA) as [nA HnA].
  destruct (proj2 (Hdom B) HB) as [nB HnB].
  assert (getitem nb A = Ok nA) as HgA by (unfold getitem; by rewrite HnA).
  rewrite HgA. simpl.
  case_bool_decide as Hnew; cycle 1.
  { exists nb. split; [done|]. split; [done|].
    assert (neighbour_of nb A B) as HAB.
    { exists nA. split; [done|]. by destruct (decide (B ∈ nA)). }
    intros X Y. split.
    - intros (A0 & B0 & ? & ?)%Hrel. exists A0, B0. tauto.
    - intros (A0 & B0 & [?|[-> ->]] & Hne0 & Hc & HXY).
      + apply Hrel. by exists A0, B0.
      + destruct HXY as [[-> ->]|[-> ->]]; [done|].
        apply Hrel in HAB as (A1 & B1 & ? & ? & ? & ?).
        apply Hrel. exists A1, B1. tauto. }
  rewrite conflicting_sentinels. simpl.
  destruct (may_conflict A B) eqn:Hc; cycle 1.
  { exists nb. split; [done|]. split; [done|].
    intros X Y. rewrite Hrel. split.
    - intros (A0 & B0 & ? & ?). exists A0, B0. tauto.
    - intros (A0 & B0 & [?|[-> ->]] & Hne0 & Hc0 & ?); [|congruence].
      by exists A0, B0. }
  assert (getitem (<[A:=nA ++ [B]]> nb) B = Ok nB) as HgB.
  { unfold getitem. rewrite lookup_insert_ne by done. by rewrite HnB. }
  rewrite HgB. simpl.
  eexists. split; [done|]. split.
  - intros C. destruct (decide (C = B)) as [->|HCB].
    { rewrite lookup_insert_eq. split; [done|by eexists]. }
    rewrite lookup_insert_ne by done.
    destruct (decide (C = A)) as [->|HCA].
    { rewrite lookup_insert_eq. split; [done|by eexists]. }
    rewrite lookup_insert_ne by done. apply Hdom.
  - assert (forall X Y, neighbour_of (<[B:=nB ++ [A]]> (<[A:=nA ++ [B]]> nb)) X Y <->
              neighbour_of nb X Y \/ (X = A /\ Y = B) \/ (X = B /\ Y = A)) as Hnew_rel.
    { intros X Y. unfold neighbour_of.
      destruct (decide (X = B)) as [->|HXB].
      { rewrite lookup_insert_eq. split.
        - intros (l & [= <-] & [?|Hs]%elem_of_app);
            [|apply list_elem_of_singleton in Hs as ->; tauto].
          left. by exists nB.
        - intros [(l & Hl & Hin)|[[-> ->]|[_ ->]]]; [|done|].
          + rewrite HnB in Hl. injection Hl as <-.
            eexists. split; [done|]. apply elem_of_app. by left.
          + eexists. split; [done|]. apply elem_of_app. right. by left. }
      rewrite lookup_insert_ne by done.
      destruct (decide (X = A)) as [->|HXA].
      { rewrite lookup_insert_eq. split.
        - intros (l & [= <-] & [?|Hs]%elem_of_app);
            [|apply list_elem_of_singleton in Hs as ->; tauto].
          left. by exists nA.
        - intros [(l & Hl & Hin)|[[_ ->]|[-> ->]]]; [| |done].
          + rewrite HnA in Hl. injection Hl as <-.
            eexists. split; [done|]. apply elem_of_app. by left.
          + eexists. split; [done|]. apply elem_of_app. right. by left. }
      rewrite lookup_insert_ne by done. split; [by left|].
      intros [?|[[-> _]|[-> _]]]; done. }
    intros X Y. rewrite Hnew_rel, Hrel. split.
    + intros [(A0 & B0 & ? & ?)|HXY].
      * exists A0, B0. tauto.
      * exists A, B. tauto.
    + intros (A0 & B0 & [?|[-> ->]] & Hne0 & Hc0 & HXY); [|tauto].
      left. by exists A0, B0.
Qed.
End gneighbors_facts.

(** Two positions of a list split it in three. *)
Lemma lookup_lt_split_two {A} (l : list A) (i j : nat) x y :
  (i < j)%nat -> l !! i = Some x -> l !! j = Some y ->
  exists l1 l2 l3, l = l1 ++ x :: l2 ++ y :: l3.
Proof.
  intros Hlt Hi Hj.
  exists (take i l), (take (j - S i) (drop (S i) l)), (drop (S j) l).
  rewrite <- (take_drop_middle l i x Hi) at 1. f_equal. f_equal.
  assert (drop (S i) l !! (j - S i)%nat = Some y) as Hj'.
  { rewrite lookup_drop. rewrite <- Hj. f_equal. lia. }
  rewrite <- (take_drop_middle _ _ _ Hj') at 1. f_equal. f_equal.
  rewrite drop_drop. f_equal. lia.
Qed.

Lemma gneighbors_init_lookup (cliques : list clique)
    (d : gmap (list Cell) (list (list Cell))) A :
  foldl (fun d c => <[members_of c := []]> d) d cliques !! A
  = if decide (A ∈ members_of <$> cliques) then Some [] else d !! A.
Proof.
  revert d. induction cliques as [|c cliques IH]; intros d; csimpl; [done|].
  rewrite IH. destruct (decide (A ∈ members_of <$> cliques)) as [Hin|Hnotin].
  - rewrite decide_True; [done|by right].
  - destruct (decide (A = members_of c)) as [->|Hne].
    + rewrite lookup_insert_eq, decide_True; [done|left].
    + rewrite lookup_insert_ne by done. rewrite decide_False; [done|].
      by intros [?|?]%elem_of_cons.
Qed.

Lemma gneighbors_inner_loop (cliques : list clique) S nb A :
  A ∈ members_of <$> cliques ->
  visited (members_of <$> cliques) S nb ->
  exists nb',
    for_each (fun nb cB => gneighbors_step nb A (members_of cB)) nb cliques = Ok nb' /\
    visited (members_of <$> cliques)
      (fun X Y => S X Y \/ (X = A /\ Y ∈ members_of <$> cliques)) nb'.
Proof.
  intros HA Hvis.
  apply (for_each_prefix (fun pre nb =>
    visited (members_of <$> cliques)
      (fun X Y => S X Y \/ (X = A /\ Y ∈ members_of <$> pre)) nb)).
  - eapply visited_ext; [|exact Hvis]. intros X Y. split; [by left|].
    by intros [?|[_ ?%elem_of_nil]].
  - intros pre cB post nb1 Hsplit Hvis1.
    assert (members_of cB ∈ members_of <$> cliques) as HB.
    { rewrite Hsplit, fmap_app, fmap_cons. apply elem_of_app. right. left. }
    destruct (gneighbors_step_visited _ _ _ _ _ HA HB Hvis1) as (nb2 & Hstep & Hvis2).
    exists nb2. split; [done|].
    eapply visited_ext; [|exact Hvis2]. intros X Y. cbn beta.
    rewrite fmap_app, elem_of_app. csimpl. rewrite list_elem_of_singleton. tauto.
Qed.

Lemma gneighbors_visited (cliques : list clique) :
  exists nb, gneighbors cliques = Ok nb /\
    visited (members_of <$> cliques)
      (fun X Y => X ∈ members_of <$> cliques /\ Y ∈ members_of <$> cliques) nb.
Proof.
  unfold gneighbors.
  apply (for_each_prefix (fun pre nb =>
    visited (members_of <$> cliques)
      (fun X Y => X ∈ members_of <$> pre /\ Y ∈ members_of <$> cliques) nb)).
  - split.
    + intros A. rewrite gneighbors_init_lookup. case_decide as HA.
      * split; [done|by eexists].
      * rewrite lookup_empty. split; [by intros [? ?]|done].
    + intros X Y. split.
      * intros (l & Hl & Hin). rewrite gneighbors_init_lookup in Hl.
        case_decide; [|by rewrite lookup_empty in Hl].
        injection Hl as <-. by apply elem_of_nil in Hin.
      * by intros (A & B & [?%elem_of_nil _] & _).
  - intros pre cA post nb1 Hsplit Hvis1.
    assert (members_of cA ∈ members_of <$> cliques) as HA.
    { rewrite Hsplit, fmap_app, fmap_cons. apply elem_of_app. right. left. }
    destruct (gneighbors_inner_loop _ _ _ _ HA Hvis1) as (nb2 & Hloop & Hvis2).
    exists nb2. split; [done|].
    eapply visited_ext; [|exact Hvis2]. intros X Y. cbn beta.
    rewrite fmap_app, elem_of_app. csimpl. rewrite list_elem_of_singleton.
    split; [intros [[? ?]|[? ?]]; tauto|intros [[?|?] ?]; tauto].
Qed.

(** What [gneighbors] returns, for any list of cliques. *)
Lemma gneighbors_spec (cliques : list clique) :
  exists nb, gneighbors cliques = Ok nb /\
    (forall A, is_Some (nb !! A) <-> A ∈ members_of <$> cliques) /\
    forall A B, neighbour_of nb A B <->
      A ∈ members_of <$> cliques /\ B ∈ members_of <$> cliques /\
      A <> B /\ may_conflict A B = true.
Proof.
  destruct (gneighbors_visited cliques) as (nb & Hnb & Hdom & Hrel).
  exists nb. split; [done|]. split; [done|].
  intros A B. rewrite Hrel. split.
  - intros (A0 & B0 & [HA HB] & Hne & Hc & [[-> ->]|[-> ->]]); [done|].
    by rewrite may_conflict_sym.
  - intros (HA & HB & Hne & Hc). exists A, B. tauto.
Qed.

(** C3.  For a validated cage list [gneighbors] returns a dictionary with
    an entry for every clique.  For two cliques at different positions of
    the list, the second is listed as a neighbour of the first exactly when
    some member of the one and some member of the other agree in exactly
    one coordinate; the relation is symmetric, and no clique is listed as
    its own neighbour. *)
Theorem gneighbors_conflict_graph (size : Z) (cliques cliques' : list clique) :
  validate size cliques = Ok cliques' ->
  exists nb, gneighbors cliques' = Ok nb /\
    forall i j cA cB,
      cliques' !! i = Some cA -> cliques' !! j = Some cB ->
      exists nA nB,
        nb !! members_of cA = Some nA /\ nb !! members_of cB = Some nB /\
        (i <> j ->
         (members_of cB ∈ nA <->
          exists mA mB, mA ∈ members_of cA /\ mB ∈ members_of cB /\
            ((mA.1 = mB.1 /\ mA.2 <> mB.2) \/ (mA.1 <> mB.1 /\ mA.2 = mB.2)))) /\
        (members_of cB ∈ nA <-> members_of cA ∈ nB) /\
        members_of cA ∉ nA.
Proof.
  intros Hval.
  destruct (gneighbors_spec cliques') as (nb & Hnb & Hdom & Hrel).
  exists nb. split; [done|].
  intros i j cA cB Hi Hj.
  assert (members_of cA ∈ members_of <$> cliques') as HA
    by (apply list_elem_of_fmap_2; by eapply list_elem_of_lookup_2).
  assert (members_of cB ∈ members_of <$> cliques') as HB
    by (apply list_elem_of_fmap_2; by eapply list_elem_of_lookup_2).
  destruct (proj2 (Hdom _) HA) as [nA HnA].
  destruct (proj2 (Hdom _) HB) as [nB HnB].
  assert (forall X Y nX, nb !! X = Some nX -> Y ∈ nX <-> neighbour_of nb X Y) as Hin.
  { intros X Y nX HnX. split; [intros ?; by exists nX|].
    intros (l & Hl & ?). congruence. }
  exists nA, nB. split_and!; [done..| | |].
  - intros Hij. rewrite (Hin _ _ _ HnA), Hrel.
    setoid_rewrite <- RowXorCol_spec. rewrite may_conflict_true.
    split; [tauto|]. intros (mA & mB & HmA & HmB & Hx).
    split_and!; [done..| |by exists mA, mB].
    intros Heq.
    apply validate_Ok in Hval as [Hnd _].
    assert (i < j \/ j < i)%nat as [Hlt|Hlt] by lia.
    + destruct (lookup_lt_split_two cliques' i j cA cB) as (l1 & l2 & l3 & ->);
        [done..|].
      rewrite !fmap_app, !fmap_cons, !join_app in Hnd. csimpl in Hnd.
      apply NoDup_app in Hnd as (_ & _ & Hnd).
      apply NoDup_app in Hnd as (_ & Hnd & _).
      apply (Hnd mA HmA). apply list_elem_of_join.
      exists (members_of cB). split; [by rewrite <- Heq|].
      apply list_elem_of_fmap_2, elem_of_app. right. left.
    + destruct (lookup_lt_split_two cliques' j i cB cA) as (l1 & l2 & l3 & ->);
        [done..|].
      rewrite !fmap_app, !fmap_cons, !join_app in Hnd. csimpl in Hnd.
      apply NoDup_app in Hnd as (_ & _ & Hnd).
      apply NoDup_app in Hnd as (_ & Hnd & _).
      apply (Hnd mA); [by rewrite <- Heq|]. apply list_elem_of_join.
      exists (members_of cA). split; [done|].
      apply list_elem_of_fmap_2, elem_of_app. right. left.
  - rewrite (Hin _ _ _ HnA), (Hin _ _ _ HnB), !Hrel.
    rewrite (may_conflict_sym (members_of cB)). intuition congruence.
  - rewrite (Hin _ _ _ HnA), Hrel. tauto.
Qed.

Lemma gneighbors_conflict_graph_witness :
  exists nb,
    gneighbors [([(1, 1); (2, 1)], "+"%string, 3); ([(1, 2); (2, 2)], "+"%string, 3)]
      = Ok nb /\
    forall i j cA cB,
      [([(1, 1); (2, 1)], "+"%string, 3); ([(1, 2); (2, 2)], "+"%string, 3)] !! i
        = Some cA ->
      [([(1, 1); (2, 1)], "+"%string, 3); ([(1, 2); (2, 2)], "+"%string, 3)] !! j
        = Some cB ->
      exists nA nB,
        nb !! members_of cA = Some nA /\ nb !! members_of cB = Some nB /\
        (i <> j ->
         (members_of cB ∈ nA <->
          exists mA mB, mA ∈ members_of cA /\ mB ∈ members_of cB /\
            ((mA.1 = mB.1 /\ mA.2 <> mB.2) \/ (mA.1 <> mB.1 /\ mA.2 = mB.2)))) /\
        (members_of cB ∈ nA <-> members_of cA ∈ nB) /\
        members_of cA ∉ nA.
Proof.
  apply (gneighbors_conflict_graph 2
           [([(2, 1); (1, 1)], "+"%string, 3); ([(1, 2); (2, 2)], "+"%string, 3)]
           [([(1, 1); (2, 1)], "+"%string, 3); ([(1, 2); (2, 2)], "+"%string, 3)]).
  vm_compute. reflexivity.
Defined.

(** ** The random monad *)

Lemma bindM_Ok {A B} (m : M A) (k : A -> M B) r a r1 :
  m r = Ok (a, r1) -> bindM m k r = k a r1.
Proof. unfold bindM. by intros ->. Qed.

Lemma returns_ret {A} (a : A) (Q : A -> Prop) : Q a -> returns (retM a) Q.
Proof. intros HQ r. by exists a, r. Qed.

Lemma returns_bind {A B} (m : M A) (k : A -> M B) (P : A -> Prop) (Q : B -> Prop) :
  returns m P -> (forall a, P a -> returns (k a) Q) -> returns (bindM m k) Q.
Proof.
  intros Hm Hk r. destruct (Hm r) as (a & r1 & Hr & HP).
  rewrite (bindM_Ok _ _ _ _ _ Hr). by apply Hk.
Qed.

Lemma returns_lift {A} (m : result A) a (Q : A -> Prop) :
  m = Ok a -> Q a -> returns (lift m) Q.
Proof. intros -> HQ r. by exists a, r. Qed.

Lemma returns_lift_bind {A B} (m : result A) a (k : A -> M B) (Q : B -> Prop) :
  m = Ok a -> returns (k a) Q -> returns (bindM (lift m) k) Q.
Proof. intros -> Hk r. apply Hk. Qed.

Lemma returns_weaken {A} (m : M A) (P Q : A -> Prop) :
  returns m P -> (forall a, P a -> Q a) -> returns m Q.
Proof.
  intros Hm HPQ r. destruct (Hm r) as (a & r1 & Hr & HP). exists a, r1. auto.
Qed.

Lemma returns_draw : returns draw (fun _ => True).
Proof. intros r. by eexists _, _. Qed.

Lemma returns_randbelow n :
  (0 < n)%nat -> returns (randbelow n) (fun k => (k < n)%nat).
Proof.
  intros Hn. destruct n as [|n]; [lia|]. unfold randbelow.
  eapply returns_bind; [apply returns_draw|]. intros k _.
  apply returns_ret. apply Nat.mod_upper_bound. lia.
Qed.

Lemma returns_randint a b :
  a <= b -> returns (randint a b) (fun k => a <= k <= b).
Proof.
  intros Hab. unfold randint.
  eapply returns_bind; [apply returns_randbelow; lia|]. intros k Hk.
  cbn beta in Hk. apply returns_ret. lia.
Qed.

Lemma returns_choice {A} (l : list A) :
  l <> [] -> returns (choice l) (fun x => x ∈ l).
Proof.
  intros Hl. destruct l as [|x0 l0]; [done|]. unfold choice.
  eapply returns_bind; [apply returns_randbelow; simpl; lia|]. intros k Hk.
  destruct (lookup_lt_is_Some_2 (x0 :: l0) k Hk) as [x Hx].
  eapply returns_lift; [unfold index; by rewrite Hx|].
  by eapply list_elem_of_lookup_2.
Qed.

Lemma returns_random_gt_half : returns random_gt_half (fun _ => True).
Proof.
  unfold random_gt_half. eapply returns_bind; [apply returns_draw|].
  intros k _. by apply returns_ret.
Qed.

Lemma returns_for_eachM {A I} (P : A -> Prop) (body : A -> I -> M A) a (l : list I) :
  P a ->
  (forall a i, i ∈ l -> P a -> returns (body a i) P) ->
  returns (for_eachM body a l) P.
Proof.
  revert a. induction l as [|i l IH]; intros a HP Hbody; simpl.
  - by apply returns_ret.
  - eapply returns_bind; [apply Hbody; [left|done]|].
    intros a' HP'. apply IH; [done|]. intros a2 j Hj. apply Hbody. by right.
Qed.

(** ** The board stays a Latin square *)

Lemma transp_inj i j k1 k2 : transp i j k1 = transp i j k2 -> k1 = k2.
Proof. unfold transp. repeat case_decide; congruence. Qed.

Lemma swap_spec {A} (i j : nat) (x : list A) :
  (i < length x)%nat -> (j < length x)%nat ->
  exists x', swap i j x = Ok x' /\ length x' = length x /\
    forall k, x' !! k = x !! transp i j k.
Proof.
  intros Hi Hj.
  destruct (lookup_lt_is_Some_2 x i Hi) as [xi Hxi].
  destruct (lookup_lt_is_Some_2 x j Hj) as [xj Hxj].
  exists (<[j := xi]> (<[i := xj]> x)). split_and!.
  - unfold swap, index. by rewrite Hxj, Hxi.
  - by rewrite !length_insert.
  - intros k. unfold transp. case_decide as Hkj.
    + subst k. rewrite list_lookup_insert_eq by (by rewrite length_insert). done.
    + rewrite list_lookup_insert_ne by done. case_decide as Hki.
      * subst k. by rewrite list_lookup_insert_eq.
      * by rewrite list_lookup_insert_ne.
Qed.

Lemma entry_Some board r c v :
  entry board r c = Some v <-> exists row, board !! r = Some row /\ row !! c = Some v.
Proof.
  unfold entry. destruct (board !! r) as [row|]; simpl.
  - split; [by exists row|by intros (? & [= <-] & ?)].
  - split; [done|by intros (? & [=] & _)].
Qed.

Lemma latin_reindex_rows size x x' (f : nat -> nat) :
  latin size x -> length x' = length x ->
  (forall k, x' !! k = x !! f k) ->
  (forall k1 k2, f k1 = f k2 -> k1 = k2) ->
  latin size x'.
Proof.
  intros (Hlen & Hrows & Hval & Hrow & Hcol) Hlen' Hf Hinj.
  assert (forall r c, entry x' r c = entry x (f r) c) as He
    by (intros r c; unfold entry; by rewrite Hf).
  split_and!.
  - congruence.
  - intros r row Hr. rewrite Hf in Hr. eauto.
  - intros r c v. rewrite He. eauto.
  - intros r c1 c2 v. rewrite !He. eauto.
  - intros r1 r2 c v. rewrite !He. eauto.
Qed.

Lemma latin_reindex_cols size x x' (f : nat -> nat) :
  latin size x -> length x' = length x ->
  (forall r row, x !! r = Some row ->
     exists row', x' !! r = Some row' /\ length row' = length row /\
       forall c, row' !! c = row !! f c) ->
  (forall c1 c2, f c1 = f c2 -> c1 = c2) ->
  latin size x'.
Proof.
  intros (Hlen & Hrows & Hval & Hrow & Hcol) Hlen' Hf Hinj.
  assert (forall r c, entry x' r c = entry x r (f c)) as He.
  { intros r c. unfold entry. destruct (x !! r) as [row|] eqn:Hr.
    - destruct (Hf r row Hr) as (row' & -> & _ & Hc). simpl. apply Hc.
    - apply lookup_ge_None in Hr. rewrite <- Hlen' in Hr.
      apply lookup_ge_None in Hr. by rewrite Hr. }
  split_and!.
  - congruence.
  - intros r row' Hr'. destruct (x !! r) as [row|] eqn:Hr.
    + destruct (Hf r row Hr) as (row'' & Hr'' & Hl & _).
      rewrite Hr' in Hr''. injection Hr'' as <-. rewrite Hl. eauto.
    + apply lookup_ge_None in Hr. rewrite <- Hlen' in Hr.
      apply lookup_ge_None in Hr. congruence.
  - intros r c v. rewrite He. eauto.
  - intros r c1 c2 v. rewrite !He. eauto.
  - intros r1 r2 c v. rewrite !He. eauto.
Qed.

Lemma returns_shuffle_from size i x :
  latin size x -> (i < length x \/ i = 0)%nat ->
  returns (shuffle_from i x) (latin size).
Proof.
  revert x. induction i as [|i IH]; intros x Hx Hi; cbn [shuffle_from].
  - by apply returns_ret.
  - destruct Hi as [Hi|?]; [|lia].
    eapply returns_bind; [apply returns_randbelow; lia|]. intros j Hj.
    cbn beta in Hj.
    destruct (swap_spec (S i) j x) as (x' & Hswap & Hlen & Hlook); [lia..|].
    apply (returns_lift_bind _ _ _ _ Hswap). apply IH; [|lia].
    eapply latin_reindex_rows; [exact Hx|done|exact Hlook|apply transp_inj].
Qed.

Lemma returns_shuffle size x : latin size x -> returns (shuffle x) (latin size).
Proof. intros Hx. apply returns_shuffle_from; [done|lia]. Qed.

Lemma seqZ_split m n (pre post : list Z) i :
  seqZ m n = pre ++ i :: post ->
  i = m + Z.of_nat (length pre) /\ Z.of_nat (length pre) < n.
Proof.
  intros Hsplit. apply lookup_seqZ. rewrite Hsplit. apply list_lookup_middle. done.
Qed.

Lemma swap_columns_spec size c1 c2 board :
  latin size board -> 0 <= c1 < size -> 0 <= c2 < size ->
  exists board', swap_columns size c1 c2 board = Ok board' /\ latin size board'.
Proof.
  intros Hlat Hc1 Hc2.
  pose proof Hlat as (Hlen & Hrows & _).
  pose (P := fun (pre : list Z) (b : list (list Z)) =>
    length b = length board /\
    forall r row, board !! r = Some row ->
      if decide (r < length pre)%nat then
        exists row', b !! r = Some row' /\ length row' = length row /\
          forall c, row' !! c = row !! transp (Z.to_nat c1) (Z.to_nat c2) c
      else b !! r = Some row).
  destruct (for_each_prefix P (fun board r =>
      row ← index board (Z.to_nat r);
      row' ← swap (Z.to_nat c1) (Z.to_nat c2) row;
      Ok (<[Z.to_nat r := row']> board)) board (seqZ 0 size))
    as (board' & Hloop & Hlen' & Hfin).
  - split; [done|]. intros r row Hr. case_decide; [simpl in *; lia|done].
  - intros pre i post b Hsplit [Hblen Hb].
    apply seqZ_split in Hsplit as [-> Hi]. rewrite Z.add_0_l, Nat2Z.id.
    destruct (lookup_lt_is_Some_2 board (length pre)) as [row Hrow]; [lia|].
    pose proof (Hb _ _ Hrow) as Hbrow. rewrite decide_False in Hbrow by lia.
    destruct (swap_spec (Z.to_nat c1) (Z.to_nat c2) row)
      as (row' & Hswap & Hrl & Hlook);
      [rewrite (Hrows _ _ Hrow); lia..|].
    eexists. split.
    { unfold index. rewrite Hbrow. simpl. rewrite Hswap. simpl. done. }
    split; [by rewrite length_insert|].
    intros r row0 Hr0. rewrite length_app. simpl.
    destruct (decide (r = length pre)) as [->|Hne].
    + rewrite decide_True by lia. rewrite Hrow in Hr0. injection Hr0 as <-.
      exists row'. rewrite list_lookup_insert_eq by lia. done.
    + rewrite list_lookup_insert_ne by done. specialize (Hb _ _ Hr0).
      destruct (decide (r < length pre)%nat).
      * rewrite decide_True by lia. done.
      * rewrite decide_False by lia. done.
  - exists board'. split; [done|].
    eapply latin_reindex_cols; [exact Hlat|done| |apply transp_inj].
    intros r row Hr. specialize (Hfin _ _ Hr).
    rewrite decide_True in Hfin; [done|].
    apply lookup_lt_Some in Hr. rewrite length_seqZ. lia.
Qed.

Lemma initial_board_entry size r c :
  (r < Z.to_nat size)%nat -> (c < Z.to_nat size)%nat ->
  entry (initial_board size) r c = Some ((Z.of_nat c + Z.of_nat r) mod size + 1).
Proof.
  intros Hr Hc. unfold entry, initial_board.
  rewrite list_lookup_fmap, lookup_seqZ_lt by lia. simpl.
  rewrite list_lookup_fmap, lookup_seqZ_lt by lia. simpl.
  by rewrite !Z.add_0_l.
Qed.

Lemma mod_add_inj size a b r :
  0 <= a < size -> 0 <= b < size ->
  (a + r) mod size = (b + r) mod size -> a = b.
Proof.
  intros Ha Hb Hmod.
  assert ((a - b) mod size = 0) as Hz.
  { replace (a - b) with ((a + r) - (b + r)) by lia.
    rewrite Zminus_mod, Hmod, Z.sub_diag. apply Z.mod_0_l. lia. }
  apply Z.mod_divide in Hz as [k Hk]; [|lia].
  assert (k = 0) by nia. lia.
Qed.

Lemma initial_board_latin size : latin size (initial_board size).
Proof.
  assert (forall r c v, entry (initial_board size) r c = Some v ->
            (r < Z.to_nat size)%nat /\ (c < Z.to_nat size)%nat /\
            v = (Z.of_nat c + Z.of_nat r) mod size + 1) as He.
  { intros r c v Hv.
    assert (r < Z.to_nat size)%nat as Hr.
    { apply entry_Some in Hv as (row & Hrow%lookup_lt_Some & _).
      unfold initial_board in Hrow. rewrite length_fmap, length_seqZ in Hrow. lia. }
    assert (c < Z.to_nat size)%nat as Hc.
    { apply entry_Some in Hv as (row & Hrow & Hv%lookup_lt_Some).
      unfold initial_board in Hrow. rewrite list_lookup_fmap in Hrow.
      destruct (seqZ 0 size !! r); [|done]. injection Hrow as <-.
      rewrite length_fmap, length_seqZ in Hv. lia. }
    rewrite initial_board_entry in Hv by done. by injection Hv as <-. }
  split_and!.
  - unfold initial_board. by rewrite length_fmap, length_seqZ.
  - intros r row Hr. unfold initial_board in Hr. rewrite list_lookup_fmap in Hr.
    destruct (seqZ 0 size !! r); [|done]. injection Hr as <-.
    by rewrite length_fmap, length_seqZ.
  - intros r c v (Hr & Hc & ->)%He.
    pose proof (Z.mod_pos_bound (Z.of_nat c + Z.of_nat r) size). lia.
  - intros r c1 c2 v (Hr & Hc1 & ->)%He (_ & Hc2 & Heq)%He.
    assert ((Z.of_nat c1 + Z.of_nat r) mod size = (Z.of_nat c2 + Z.of_nat r) mod size)
      as Hmod by lia.
    apply mod_add_inj in Hmod; lia.
  - intros r1 r2 c v (Hr1 & Hc & ->)%He (Hr2 & _ & Heq)%He.
    assert ((Z.of_nat r1 + Z.of_nat c) mod size = (Z.of_nat r2 + Z.of_nat c) mod size)
      as Hmod by (rewrite !(Z.add_comm _ (Z.of_nat c)); lia).
    apply mod_add_inj in Hmod; lia.
Qed.

Lemma returns_shuffle_board size : returns (shuffle_board size) (latin size).
Proof.
  unfold shuffle_board.
  eapply returns_bind.
  { apply (returns_for_eachM (latin size)); [apply initial_board_latin|].
    intros b _ _ Hb. by apply returns_shuffle. }
  intros board Hboard.
  apply (returns_for_eachM (latin size)); [done|].
  intros b1 c1 Hc1%elem_of_seqZ Hb1.
  apply (returns_for_eachM (latin size)); [done|].
  intros b2 c2 Hc2%elem_of_seqZ Hb2.
  eapply returns_bind; [apply returns_random_gt_half|].
  intros [] _; [|by apply returns_ret].
  destruct (swap_columns_spec size c1 c2 b2) as (b3 & Hswap & Hb3); [done|lia..|].
  by eapply returns_lift.
Qed.

(** ** Dictionaries in insertion order *)

Lemma dict_set_fresh {K V} `{EqDecision K} (d : pydict K V) k v :
  k ∉ dict_keys d -> dict_set d k v = d ++ [(k, v)].
Proof.
  unfold dict_keys. induction d as [|[k0 v0] d IH]; csimpl; [done|].
  intros [Hne Hnotin]%not_elem_of_cons.
  rewrite decide_False by done. by rewrite IH.
Qed.

Lemma foldl_dict_set_fresh {K V} `{EqDecision K} (d l : pydict K V) :
  NoDup (dict_keys (d ++ l)) ->
  foldl (fun d kv => dict_set d kv.1 kv.2) d l = d ++ l.
Proof.
  revert d. induction l as [|[k v] l IH]; intros d Hnd; csimpl.
  - by rewrite app_nil_r.
  - rewrite dict_set_fresh.
    + rewrite IH; rewrite <- (assoc_L (++)); done.
    + unfold dict_keys in *. rewrite fmap_app in Hnd. csimpl in Hnd.
      apply NoDup_app in Hnd as (_ & Hnd & _).
      intros Hk. apply (Hnd k Hk). left.
Qed.

Lemma dict_get_elem_of {K V} `{EqDecision K} (d : pydict K V) k v :
  NoDup (dict_keys d) -> (k, v) ∈ d -> dict_get d k = Ok v.
Proof.
  unfold dict_keys, dict_get. induction d as [|[k0 v0] d IH]; csimpl.
  - by intros _ ?%elem_of_nil.
  - intros [Hk0 Hnd]%NoDup_cons Hin. case_decide as Hk; simpl in Hk.
    + subst k0. apply elem_of_cons in Hin as [[= ->]|Hin]; [done|].
      destruct Hk0. apply list_elem_of_fmap. by exists (k, v).
    + apply elem_of_cons in Hin as [[= -> ->]|Hin]; [done|].
      specialize (IH Hnd Hin).
      destruct (list_find (λ kv, kv.1 = k) d) as [[i kv]|]; simpl; done.
Qed.

Lemma dict_get_Ok {K V} `{EqDecision K} (d : pydict K V) k v :
  dict_get d k = Ok v -> (k, v) ∈ d.
Proof.
  unfold dict_get. destruct (list_find _ d) as [[i [k0 v0]]|] eqn:Hfind; [|done].
  intros [= <-]. apply list_find_Some in Hfind as (Hi & Hk & _). simpl in Hk.
  subst k0. by eapply list_elem_of_lookup_2.
Qed.

Lemma comprehension_fmap {A B} (f : A -> result B) (g : A -> B) (l : list A) :
  (forall x, x ∈ l -> f x = Ok (g x)) -> comprehension f l = Ok (g <$> l).
Proof.
  induction l as [|x l IH]; intros Hf; csimpl; [done|].
  rewrite (Hf x) by left. csimpl. rewrite IH; [done|].
  intros y Hy. apply Hf. by right.
Qed.

Lemma comprehension_Ok {A B} (f : A -> result B) (l : list A) (l' : list B) :
  comprehension f l = Ok l' -> Forall2 (fun x y => f x = Ok y) l l'.
Proof.
  revert l'. induction l as [|x l IH]; intros l'; csimpl.
  - intros [= <-]. constructor.
  - intros (y & Hy & (ys & Hys & [= <-])%bind_Ok)%bind_Ok.
    constructor; [done|by apply IH].
Qed.

(** ** The cells of the grid *)

Lemma elem_of_all_cells size (c : Cell) :
  c ∈ all_cells size <-> 1 <= c.1 <= size /\ 1 <= c.2 <= size.
Proof.
  unfold all_cells. rewrite list_elem_of_bind. split.
  - intros (y & (x & ->%list_elem_of_singleton & Hx%elem_of_seqZ)%list_elem_of_bind
              & Hy%elem_of_seqZ).
    simpl. lia.
  - intros [Hx Hy]. exists c.2. split; [|apply elem_of_seqZ; lia].
    apply list_elem_of_bind. exists c.1. split; [|apply elem_of_seqZ; lia].
    destruct c. left.
Qed.

Lemma board_dict_latin size board :
  latin size board ->
  exists d, board_dict size board = Ok d /\ latin_dict size d.
Proof.
  intros (Hlen & Hrows & Hval & Hrow & Hcol).
  set (pairs := i ← seqZ 0 size; j ← seqZ 0 size; [(i, j)]).
  set (g := fun ij : Z * Z =>
    ((ij.2 + 1, ij.1 + 1), default 0 (entry board (Z.to_nat ij.1) (Z.to_nat ij.2)))).
  assert (forall ij, ij ∈ pairs <-> 0 <= ij.1 < size /\ 0 <= ij.2 < size) as Hpairs.
  { intros ij. unfold pairs. rewrite list_elem_of_bind. split.
    - intros (i & (j & ->%list_elem_of_singleton & Hj%elem_of_seqZ)%list_elem_of_bind
                & Hi%elem_of_seqZ).
      simpl. lia.
    - intros [Hi Hj]. exists ij.1. split; [|apply elem_of_seqZ; lia].
      apply list_elem_of_bind. exists ij.2. split; [|apply elem_of_seqZ; lia].
      destruct ij. left. }
  assert (forall ij, ij ∈ pairs ->
            entry board (Z.to_nat ij.1) (Z.to_nat ij.2) = Some (g ij).2) as Hentry.
  { intros ij [Hi Hj]%Hpairs.
    destruct (lookup_lt_is_Some_2 board (Z.to_nat ij.1)) as [row Hr]; [lia|].
    destruct (lookup_lt_is_Some_2 row (Z.to_nat ij.2)) as [v Hv];
      [rewrite (Hrows _ _ Hr); lia|].
    unfold g, entry. rewrite Hr. simpl. by rewrite Hv. }
  assert (NoDup pairs) as Hnd_pairs.
  { apply NoDup_bind; [| |apply NoDup_seqZ].
    - intros i1 i2 ij _ _ (j1 & ->%list_elem_of_singleton & _)%list_elem_of_bind
        (j2 & [= -> _]%list_elem_of_singleton & _)%list_elem_of_bind. done.
    - intros i _. apply NoDup_bind; [| |apply NoDup_seqZ].
      + intros j1 j2 ij _ _ ->%list_elem_of_singleton [= ->]%list_elem_of_singleton.
        done.
      + intros j _. apply NoDup_singleton. }
  assert (NoDup (dict_keys (g <$> pairs))) as Hnd_keys.
  { unfold dict_keys. rewrite <- list_fmap_compose.
    apply NoDup_fmap_2_strong; [|done].
    intros [i1 j1] [i2 j2] _ _ [= ? ?]. f_equal; lia. }
  exists (g <$> pairs). split.
  - unfold board_dict. fold pairs.
    rewrite (comprehension_fmap _ g).
    + simpl. f_equal. by apply (foldl_dict_set_fresh []).
    + intros [i j] Hij. pose proof (Hentry _ Hij) as He. simpl in He.
      apply entry_Some in He as (row & Hr & Hv).
      unfold index. rewrite Hr. simpl. rewrite Hv. simpl. unfold g. simpl.
      unfold entry. rewrite Hr. simpl. by rewrite Hv.
  - assert (forall c v, (c, v) ∈ g <$> pairs ->
              exists ij, ij ∈ pairs /\ c = (ij.2 + 1, ij.1 + 1) /\
                entry board (Z.to_nat ij.1) (Z.to_nat ij.2) = Some v) as Hitem.
    { intros c v (ij & Heq & Hij)%list_elem_of_fmap. exists ij.
      split; [done|]. rewrite (Hentry _ Hij). unfold g in *. by injection Heq as -> ->. }
    split_and!.
    + done.
    + intros c. unfold dict_keys. rewrite <- list_fmap_compose, list_elem_of_fmap.
      rewrite elem_of_all_cells. split.
      * intros (ij & -> & [Hi Hj]%Hpairs). simpl. lia.
      * intros [Hx Hy]. exists (c.2 - 1, c.1 - 1). split.
        -- destruct c. simpl. f_equal; lia.
        -- apply Hpairs. simpl. lia.
    + intros c v (ij & _ & _ & He)%Hitem. eauto.
    + intros c1 c2 v1 v2 (ij1 & [? ?]%Hpairs & -> & He1)%Hitem
        (ij2 & [? ?]%Hpairs & -> & He2)%Hitem Hx <-.
      apply RowXorCol_spec in Hx. simpl in Hx. destruct Hx as [[Hx Hy]|[Hx Hy]].
      * assert (Z.to_nat ij1.2 = Z.to_nat ij2.2) as Hc by lia.
        rewrite Hc in He1. pose proof (Hcol _ _ _ _ He1 He2). lia.
      * assert (Z.to_nat ij1.1 = Z.to_nat ij2.1) as Hr by lia.
        rewrite Hr in He1. pose proof (Hrow _ _ _ _ He1 He2). lia.
Qed.

Lemma all_cells_NoDup size : NoDup (all_cells size).
Proof.
  unfold all_cells. apply NoDup_bind; [| |apply NoDup_seqZ].
  - intros y1 y2 c _ _ (x1 & ->%list_elem_of_singleton & _)%list_elem_of_bind
      (x2 & [= _ ->]%list_elem_of_singleton & _)%list_elem_of_bind. done.
  - intros y _. apply NoDup_bind; [| |apply NoDup_seqZ].
    + intros x1 x2 c _ _ ->%list_elem_of_singleton [= ->]%list_elem_of_singleton.
      done.
    + intros x _. apply NoDup_singleton.
Qed.

(** ** Carving the grid *)

Lemma insert_by_Permutation {A} (key : A -> Z) x (l : list A) :
  insert_by key x l ≡ₚ x :: l.
Proof.
  induction l as [|y l IH]; simpl; [done|].
  case_match; [done|]. rewrite IH. apply Permutation_swap.
Qed.

Lemma sorted_by_Permutation {A} (key : A -> Z) (l : list A) : sorted_by key l ≡ₚ l.
Proof.
  induction l as [|x l IH]; simpl; [done|].
  by rewrite insert_by_Permutation, IH.
Qed.

Lemma list_remove_spec {A} `{EqDecision A} (x : A) (l : list A) :
  x ∈ l -> exists l', list_remove x l = Ok l' /\ l ≡ₚ x :: l'.
Proof.
  induction l as [|y l IH]; simpl; [by intros ?%elem_of_nil|].
  intros Hin. case_decide as Hy.
  - subst y. by exists l.
  - apply elem_of_cons in Hin as [->|Hin]; [done|].
    destruct (IH Hin) as (l' & -> & Hperm). simpl.
    exists (y :: l'). split; [done|]. rewrite Hperm. apply Permutation_swap.
Qed.

Lemma returns_grow k cell uncaged members :
  members <> [] ->
  returns (grow k cell uncaged members) (fun um =>
    um.2 ++ um.1 ≡ₚ members ++ uncaged /\ um.2 <> []).
Proof.
  revert cell uncaged members.
  induction k as [|k IH]; intros cell uncaged members Hne; cbn [grow].
  - by apply returns_ret.
  - destruct (filter _ uncaged) as [|a adjs] eqn:Hadjs; [by apply returns_ret|].
    eapply returns_bind; [by apply returns_choice|].
    intros cell' Hcell'. cbn beta in Hcell'.
    rewrite <- Hadjs in Hcell'. apply list_elem_of_filter in Hcell' as [_ Hin].
    destruct (list_remove_spec cell' uncaged Hin) as (uncaged' & Hrm & Hperm).
    apply (returns_lift_bind _ _ _ _ Hrm).
    eapply returns_weaken; [apply IH; by destruct members|].
    intros [u m] [Hp Hm]. simpl in *. split; [|done].
    rewrite Hp, Hperm, <- (assoc_L (++)). simpl. done.
Qed.

(** ** Arithmetic of the labels *)

Lemma py_truediv_pos (a : pynum) (p : positive) :
  py_truediv a (PyInt (Z.pos p)) = Ok (PyFloat (to_Q a / inject_Z (Z.pos p))).
Proof. reflexivity. Qed.

Lemma py_gt_quotient (vf vs : positive) :
  py_gt (PyFloat (inject_Z (Z.pos vf) / inject_Z (Z.pos vs))) (PyInt 0) = true.
Proof. reflexivity. Qed.

Lemma py_int_quotient (vf : Z) (vs : positive) :
  0 <= vf ->
  py_int (PyFloat (inject_Z vf / inject_Z (Z.pos vs))) = vf / Z.pos vs.
Proof.
  intros Hvf. unfold py_int, Qdiv, Qmult, Qinv. simpl.
  rewrite Z.mul_1_r. apply Z.quot_div_nonneg; lia.
Qed.

Lemma py_eq_quotient (vf : Z) (vs : positive) :
  vf mod Z.pos vs = 0 ->
  py_eq (PyFloat (inject_Z vf / inject_Z (Z.pos vs))) (PyInt (vf / Z.pos vs)) = true.
Proof.
  intros Hmod. unfold py_eq, Qeq_bool, Qdiv, Qmult, Qinv. simpl.
  apply Z.eqb_eq. rewrite !Z.mul_1_r.
  apply Z.div_exact in Hmod; lia.
Qed.

Lemma reduce_from_add a (l : list Z) :
  reduce_from (operation "+") (PyInt a) (PyInt <$> l) = Ok (PyInt (foldl Z.add a l)).
Proof. revert a. induction l as [|y l IH]; intros a; csimpl; [done|apply IH]. Qed.

Lemma reduce_from_mul a (l : list Z) :
  reduce_from (operation "*") (PyInt a) (PyInt <$> l) = Ok (PyInt (foldl Z.mul a l)).
Proof. revert a. induction l as [|y l IH]; intros a; csimpl; [done|apply IH]. Qed.

(** A label made by [generate] is met by the values it was made from. *)
Lemma labelled_reduce values operator target :
  Forall (fun v => 1 <= v) values ->
  labelled values operator target ->
  exists r, reduce (operation operator) (PyInt <$> values) = Ok r /\
            py_eq r (PyInt target) = true.
Proof.
  intros Hpos Hlab.
  destruct values as [|v1 [|v2 [|v3 rest]]]; simpl in Hlab; [done|..].
  - destruct Hlab as [-> ->]. exists (PyInt v1). split; [done|].
    rewrite py_eq_int. apply Z.eqb_refl.
  - destruct Hlab as [Hdiv Hsub].
    apply Forall_cons in Hpos as [Hv1 [Hv2 _]%Forall_cons].
    destruct v2 as [|v2|v2]; [lia| |lia].
    destruct (decide (v1 mod Z.pos v2 = 0)) as [Hmod|Hmod].
    + destruct (Hdiv Hmod) as [-> ->]. eexists. split; [reflexivity|].
      by apply py_eq_quotient.
    + destruct (Hsub Hmod) as [-> ->]. exists (PyInt (v1 - Z.pos v2)).
      split; [done|]. rewrite py_eq_int. apply Z.eqb_refl.
  - destruct Hlab as [[-> ->]|[-> ->]]; eexists; (split; [|rewrite py_eq_int; apply Z.eqb_refl]).
    + apply (reduce_from_add v1 (v2 :: v3 :: rest)).
    + apply (reduce_from_mul v1 (v2 :: v3 :: rest)).
Qed.

(** ** make_clique *)

Lemma dict_get_total size board m :
  latin_dict size board -> m ∈ dict_keys board ->
  exists v, dict_get board m = Ok v /\ 1 <= v <= size.
Proof.
  intros (Hnd & _ & Hval & _) Hm.
  apply list_elem_of_fmap in Hm as ([m' v] & -> & Hin).
  exists v. split; [by apply dict_get_elem_of|by eapply Hval].
Qed.

Lemma comprehension_cons {A B} (f : A -> result B) x l y ys :
  f x = Ok y -> comprehension f l = Ok ys -> comprehension f (x :: l) = Ok (y :: ys).
Proof. intros Hx Hl. cbn [comprehension]. by rewrite Hx, Hl. Qed.

Lemma dict_values_total size board members :
  latin_dict size board -> (forall m, m ∈ members -> m ∈ dict_keys board) ->
  exists values, comprehension (dict_get board) members = Ok values /\
    Forall (fun v => 1 <= v <= size) values.
Proof.
  intros Hlat. induction members as [|m members IH]; intros Hin.
  - by exists [].
  - destruct (dict_get_total size board m Hlat) as (v & Hv & Hr); [apply Hin; left|].
    destruct IH as (values & Hvalues & Hrs); [intros ??; apply Hin; by right|].
    exists (v :: values). split; [by apply comprehension_cons|by constructor].
Qed.

Lemma returns_make_clique size board members :
  latin_dict size board -> members <> [] ->
  (forall m, m ∈ members -> m ∈ dict_keys board) ->
  returns (make_clique board members) (fun c =>
    members_of c = members /\ made_from board c).
Proof.
  intros Hlat Hne Hin.
  destruct (dict_values_total size board members Hlat Hin) as (values & Hvalues & Hrange).
  pose proof (comprehension_Ok _ _ _ Hvalues) as Hget.
  unfold make_clique.
  destruct Hget as [|m1 v1 ? ? Hv1 [|m2 v2 ? ? Hv2 [|m3 v3 members values Hv3 Hrest]]];
    [done|..].
  - cbn [length Nat.eqb].
    eapply returns_lift_bind; [done|]. eapply returns_lift_bind; [exact Hv1|].
    apply returns_ret. split; [done|]. exists [v1]. split; [done|]. by split.
  - cbn [length Nat.eqb].
    apply Forall_cons in Hrange as [Hr1 [Hr2 _]%Forall_cons].
    destruct v1 as [|v1|v1]; [lia| |lia]. destruct v2 as [|v2|v2]; [lia| |lia].
    eapply returns_lift_bind.
    { cbn [index lookup list_lookup mbind result_bind]. rewrite Hv1, Hv2.
      cbn [mbind result_bind]. rewrite py_truediv_pos. cbn [mbind result_bind to_Q].
      rewrite py_gt_quotient. reflexivity. }
    rewrite Hvalues.
    destruct (decide (Z.pos v1 mod Z.pos v2 = 0)) as [Hmod|Hmod].
    + rewrite (proj2 (Z.eqb_eq _ _) Hmod).
      eapply returns_lift_bind; [done|]. eapply returns_lift_bind; [reflexivity|].
      apply returns_ret. split; [done|]. exists [Z.pos v1; Z.pos v2].
      split; [done|]. split; [|done]. intros _. split; [done|].
      cbn [target_of snd]. by apply py_int_quotient.
    + rewrite (proj2 (Z.eqb_neq _ _) Hmod).
      eapply returns_lift_bind; [done|]. eapply returns_lift_bind; [reflexivity|].
      apply returns_ret. split; [done|]. exists [Z.pos v1; Z.pos v2].
      split; [done|]. split; [done|]. intros _. by split.
  - cbn [length Nat.eqb].
    eapply returns_bind; [by apply returns_choice|]. intros operator Hop.
    cbn beta in Hop. rewrite Hvalues.
    eapply returns_lift_bind; [done|].
    apply elem_of_cons in Hop as [->|Hop];
      [|apply list_elem_of_singleton in Hop as ->].
    + eapply returns_lift_bind; [apply (reduce_from_add v1 (v2 :: v3 :: values))|].
      apply returns_ret. split; [done|]. eexists. split; [exact Hvalues|].
      left. by split.
    + eapply returns_lift_bind; [apply (reduce_from_mul v1 (v2 :: v3 :: values))|].
      apply returns_ret. split; [done|]. eexists. split; [exact Hvalues|].
      right. by split.
Qed.

(** ** The while loop *)

Lemma returns_carve size board fuel uncaged cliques :
  latin_dict size board ->
  (forall m, m ∈ uncaged -> m ∈ dict_keys board) ->
  Forall (made_from board) cliques ->
  (length uncaged <= fuel)%nat ->
  returns (carve fuel board uncaged cliques) (fun cliques' =>
    mjoin (members_of <$> cliques') ≡ₚ mjoin (members_of <$> cliques) ++ uncaged /\
    Forall (made_from board) cliques').
Proof.
  intros Hlat. revert uncaged cliques.
  induction fuel as [|fuel IH]; intros uncaged cliques Hin Hmade Hfuel.
  - destruct uncaged; [|simpl in Hfuel; lia].
    apply returns_ret. by rewrite app_nil_r.
  - destruct uncaged as [|cell uncaged]; cbn [carve].
    { apply returns_ret. by rewrite app_nil_r. }
    eapply returns_bind; [by apply returns_randint|]. intros csize _.
    eapply returns_lift_bind.
    { cbn [list_remove]. by rewrite decide_True. }
    eapply returns_bind; [by apply (returns_grow _ cell uncaged [cell])|].
    intros [uncaged' members] [Hperm Hne]. cbn [fst snd] in Hperm, Hne.
    assert (forall m, m ∈ members ++ uncaged' -> m ∈ dict_keys board) as Hin'.
    { intros m Hm. rewrite Hperm in Hm. by apply Hin. }
    eapply returns_bind.
    { apply (returns_make_clique size); [done..|].
      intros m Hm. apply Hin', elem_of_app. by left. }
    intros c [Hc Hmade_c]. cbn beta in Hc, Hmade_c.
    eapply returns_weaken.
    { apply IH.
      - intros m Hm. apply Hin', elem_of_app. by right.
      - apply Forall_app. split; [done|]. by constructor.
      - apply Permutation_length in Hperm. rewrite length_app in Hperm.
        destruct members; [done|]. simpl in *. lia. }
    intros cliques' [Hp Hm]. split; [|done].
    rewrite Hp, fmap_app, join_app. csimpl. rewrite app_nil_r, Hc.
    rewrite <- (assoc_L (++)). by rewrite Hperm.
Qed.

(** ** generate *)

Lemma returns_generate_with_board size :
  returns (generate_with_board size) (fun bc =>
    bc.2.1 = size /\ latin_dict size bc.1 /\
    Forall (made_from bc.1) bc.2.2 /\
    mjoin (members_of <$> bc.2.2) ≡ₚ all_cells size).
Proof.
  unfold generate_with_board.
  eapply returns_bind; [apply returns_shuffle_board|]. intros rows Hrows.
  destruct (board_dict_latin size rows Hrows) as (board & Hboard & Hlat).
  apply (returns_lift_bind _ _ _ _ Hboard).
  pose proof Hlat as (Hnd & Hkeys & _).
  assert (sorted_by (fun var : Cell => var.2) (dict_keys board) ≡ₚ all_cells size)
    as Hsorted.
  { rewrite sorted_by_Permutation.
    apply NoDup_Permutation; [done|apply all_cells_NoDup|done]. }
  eapply returns_bind.
  { apply (returns_carve size); [done| |constructor|done].
    intros m Hm. by rewrite sorted_by_Permutation in Hm. }
  intros cliques [Hperm Hmade]. apply returns_ret. simpl.
  split_and!; [done..|]. by rewrite Hperm.
Qed.

(** [generate] returns what [generate_with_board] does, without the board. *)
Lemma generate_with_board_generate size r board n cliques r' :
  generate_with_board size r = Ok ((board, (n, cliques)), r') ->
  generate size r = Ok ((n, cliques), r').
Proof. intros H. unfold generate. by rewrite (bindM_Ok _ _ _ _ _ H). Qed.

(** [generate] never raises and never runs out of fuel. *)
Lemma generate_returns size (r : rng) :
  exists board cliques r',
    generate_with_board size r = Ok ((board, (size, cliques)), r') /\
    generate size r = Ok ((size, cliques), r') /\
    latin_dict size board /\
    Forall (made_from board) cliques /\
    mjoin (members_of <$> cliques) ≡ₚ all_cells size.
Proof.
  destruct (returns_generate_with_board size r)
    as ([board [n cliques]] & r' & Hgen & Hn & Hlat & Hmade & Hperm).
  simpl in *. subst n. exists board, cliques, r'.
  split_and!; [done|by eapply generate_with_board_generate|done..].
Qed.

Lemma NoDup_join_lookup {A} (ls : list (list A)) i j l1 l2 x :
  NoDup (mjoin ls) -> ls !! i = Some l1 -> ls !! j = Some l2 ->
  x ∈ l1 -> x ∈ l2 -> i = j.
Proof.
  intros Hnd Hi Hj H1 H2.
  destruct (decide (i = j)) as [|Hne]; [done|]. exfalso.
  assert (forall i j l1 l2, (i < j)%nat -> ls !! i = Some l1 -> ls !! j = Some l2 ->
            x ∈ l1 -> x ∈ l2 -> False) as Hlt.
  { clear -Hnd. intros i j l1 l2 Hlt Hi Hj H1 H2.
    destruct (lookup_lt_split_two ls i j l1 l2 Hlt Hi Hj) as (k1 & k2 & k3 & ->).
    rewrite join_app in Hnd. csimpl in Hnd.
    apply NoDup_app in Hnd as (_ & _ & Hnd).
    apply NoDup_app in Hnd as (_ & Hnd & _).
    apply (Hnd x H1). apply list_elem_of_join. exists l2. split; [done|].
    apply elem_of_app. right. left. }
  assert (i < j \/ j < i)%nat as [?|?] by lia; eauto.
Qed.

Lemma NoDup_join_elem_of {A} (ls : list (list A)) l :
  NoDup (mjoin ls) -> l ∈ ls -> NoDup l.
Proof.
  intros Hnd (k1 & k2 & ->)%list_elem_of_split.
  rewrite join_app in Hnd. csimpl in Hnd.
  apply NoDup_app in Hnd as (_ & _ & Hnd).
  by apply NoDup_app in Hnd as (Hnd & _).
Qed.

(** C4.  For every size >= 1 and every sequence of random numbers,
    [generate] returns, and its cliques partition the grid: every cell
    [(x, y)] with [1 <= x, y <= size] is a member of exactly one clique,
    no clique holds a cell twice, and every member is a cell of the grid. *)
Theorem generate_partition (size : Z) (r : rng) :
  1 <= size ->
  exists cliques r',
    generate size r = Ok ((size, cliques), r') /\
    (forall x y, 1 <= x <= size -> 1 <= y <= size ->
       exists i c, cliques !! i = Some c /\ (x, y) ∈ members_of c /\
         forall j c', cliques !! j = Some c' -> (x, y) ∈ members_of c' -> j = i) /\
    (forall c, c ∈ cliques -> NoDup (members_of c)) /\
    (forall c x y, c ∈ cliques -> (x, y) ∈ members_of c ->
       1 <= x <= size /\ 1 <= y <= size).
Proof.
  intros _.
  destruct (generate_returns size r) as (board & cliques & r' & _ & Hgen & _ & _ & Hperm).
  exists cliques, r'. split; [done|].
  assert (NoDup (mjoin (members_of <$> cliques))) as Hnd
    by (rewrite Hperm; apply all_cells_NoDup).
  split_and!.
  - intros x y Hx Hy.
    assert ((x, y) ∈ mjoin (members_of <$> cliques)) as Hin
      by (rewrite Hperm; by apply elem_of_all_cells).
    apply list_elem_of_join in Hin as (l & Hxy & Hl).
    apply list_elem_of_lookup in Hl as [i Hi].
    apply list_lookup_fmap_Some in Hi as (c & -> & Hc).
    exists i, c. split_and!; [done..|].
    intros j c' Hj Hxy'.
    apply (NoDup_join_lookup (members_of <$> cliques) j i
             (members_of c') (members_of c) (x, y)); [done| | |done..].
    + by rewrite list_lookup_fmap, Hj.
    + by rewrite list_lookup_fmap, Hc.
  - intros c Hc. apply (NoDup_join_elem_of (members_of <$> cliques)); [done|].
    by apply list_elem_of_fmap_2.
  - intros c x y Hc Hxy.
    assert ((x, y) ∈ all_cells size) as Hin.
    { rewrite <- Hperm. apply list_elem_of_join. exists (members_of c).
      split; [done|]. by apply list_elem_of_fmap_2. }
    by apply elem_of_all_cells in Hin.
Qed.

Lemma generate_partition_witness :
  exists cliques r',
    generate 2 (fun _ => 1%nat) = Ok ((2, cliques), r') /\
    (forall x y, 1 <= x <= 2 -> 1 <= y <= 2 ->
       exists i c, cliques !! i = Some c /\ (x, y) ∈ members_of c /\
         forall j c', cliques !! j = Some c' -> (x, y) ∈ members_of c' -> j = i) /\
    (forall c, c ∈ cliques -> NoDup (members_of c)) /\
    (forall c x y, c ∈ cliques -> (x, y) ∈ members_of c ->
       1 <= x <= 2 /\ 1 <= y <= 2).
Proof. apply (generate_partition 2 (fun _ => 1%nat)). lia. Defined.

(** Every clique of [generate] is what the labelling step returns for
    its member list. *)
Lemma returns_make_clique_made_by size board members :
  latin_dict size board -> members <> [] ->
  (forall m, m ∈ members -> m ∈ dict_keys board) ->
  returns (make_clique board members) (fun c =>
    members_of c = members /\ made_from board c /\ made_by board c).
Proof.
  intros Hlat Hne Hin r.
  destruct (returns_make_clique size board members Hlat Hne Hin r)
    as (c & r' & Hr & Hc & Hmade).
  exists c, r'. split_and!; [done..|]. exists r, r'. by rewrite Hc.
Qed.

Lemma returns_carve_made_by size board fuel uncaged cliques :
  latin_dict size board ->
  (forall m, m ∈ uncaged -> m ∈ dict_keys board) ->
  Forall (made_by board) cliques ->
  (length uncaged <= fuel)%nat ->
  returns (carve fuel board uncaged cliques) (Forall (made_by board)).
Proof.
  intros Hlat. revert uncaged cliques.
  induction fuel as [|fuel IH]; intros uncaged cliques Hin Hmade Hfuel.
  - destruct uncaged; [|simpl in Hfuel; lia]. by apply returns_ret.
  - destruct uncaged as [|cell uncaged]; cbn [carve]; [by apply returns_ret|].
    eapply returns_bind; [by apply returns_randint|]. intros csize _.
    eapply returns_lift_bind.
    { cbn [list_remove]. by rewrite decide_True. }
    eapply returns_bind; [by apply (returns_grow _ cell uncaged [cell])|].
    intros [uncaged' members] [Hperm Hne]. cbn [fst snd] in Hperm, Hne.
    assert (forall m, m ∈ members ++ uncaged' -> m ∈ dict_keys board) as Hin'.
    { intros m Hm. rewrite Hperm in Hm. by apply Hin. }
    eapply returns_bind.
    { apply (returns_make_clique_made_by size); [done..|].
      intros m Hm. apply Hin', elem_of_app. by left. }
    intros c (Hc & _ & Hby). cbn beta in Hc, Hby.
    apply IH.
    + intros m Hm. apply Hin', elem_of_app. by right.
    + apply Forall_app. split; [done|]. by constructor.
    + apply Permutation_length in Hperm. rewrite length_app in Hperm.
      destruct members; [done|]. simpl in *. lia.
Qed.

Lemma returns_generate_made_by size :
  returns (generate_with_board size) (fun bc => Forall (made_by bc.1) bc.2.2).
Proof.
  unfold generate_with_board.
  eapply returns_bind; [apply returns_shuffle_board|]. intros rows Hrows.
  destruct (board_dict_latin size rows Hrows) as (board & Hboard & Hlat).
  apply (returns_lift_bind _ _ _ _ Hboard).
  eapply returns_bind.
  { apply (returns_carve_made_by size); [done| |constructor|done].
    intros m Hm. by rewrite sorted_by_Permutation in Hm. }
  intros cliques Hby. by apply returns_ret.
Qed.

(** How a clique of two cells made from [board] is labelled. *)
Lemma made_from_two_cells size board fst_cell snd_cell operator target :
  latin_dict size board ->
  made_from board ([fst_cell; snd_cell], operator, target) ->
  exists vf vs,
    dict_get board fst_cell = Ok vf /\ dict_get board snd_cell = Ok vs /\
    1 <= vf /\ 1 <= vs /\
    ((vf mod vs = 0 /\ operator = "/"%string /\ target = vf / vs) \/
     (vf mod vs <> 0 /\ operator = "-"%string /\ target = vf - vs)).
Proof.
  intros Hlat (values & Hvalues & Hlab).
  cbn [members_of operator_of target_of fst snd] in *.
  apply comprehension_Ok in Hvalues.
  apply Forall2_cons_inv_l in Hvalues as (vf & values' & Hvf & Hvalues & ->).
  apply Forall2_cons_inv_l in Hvalues as (vs & values'' & Hvs & Hvalues & ->).
  apply Forall2_nil_inv_l in Hvalues as ->.
  exists vf, vs. split_and!; [done..| | |].
  - destruct Hlat as (_ & _ & Hval & _). apply dict_get_Ok in Hvf.
    by apply (Hval _ _ Hvf).
  - destruct Hlat as (_ & _ & Hval & _). apply dict_get_Ok in Hvs.
    by apply (Hval _ _ Hvs).
  - destruct Hlab as [Hdiv Hsub].
    destruct (decide (vf mod vs = 0)) as [Hmod|Hmod]; [left|right]; split; auto.
Qed.

(** C6.  Whenever [generate] forms a clique of exactly two cells, with
    values [vf] and [vs] on the board in insertion order, the operator is
    ["/"] and the target the quotient [vf / vs] when [vs] divides [vf], and
    otherwise the operator is ["-"] and the target [vf - vs]; the test is
    on [vf / vs] alone.  In three parts: every clique of the output is what
    the labelling step of [generate] returns for the clique's own member
    list; on every list of two cells of the board the labelling step
    returns, keeps the two cells as members and labels them in this way;
    hence every two-cell clique of the output is labelled in this way. *)
Theorem generate_two_cell_clique (size : Z) (r : rng) :
  1 <= size ->
  exists board cliques r',
    generate_with_board size r = Ok ((board, (size, cliques)), r') /\
    generate size r = Ok ((size, cliques), r') /\
    (forall c, c ∈ cliques ->
       exists r1 r2 : rng, make_clique board (members_of c) r1 = Ok (c, r2)) /\
    (forall fst_cell snd_cell (r1 : rng),
       fst_cell ∈ dict_keys board -> snd_cell ∈ dict_keys board ->
       exists operator target r2 vf vs,
         make_clique board [fst_cell; snd_cell] r1
         = Ok (([fst_cell; snd_cell], operator, target), r2) /\
         dict_get board fst_cell = Ok vf /\ dict_get board snd_cell = Ok vs /\
         1 <= vf /\ 1 <= vs /\
         ((vf mod vs = 0 /\ operator = "/"%string /\ target = vf / vs) \/
          (vf mod vs <> 0 /\ operator = "-"%string /\ target = vf - vs))) /\
    forall fst_cell snd_cell operator target,
      ([fst_cell; snd_cell], operator, target) ∈ cliques ->
      exists vf vs,
        dict_get board fst_cell = Ok vf /\ dict_get board snd_cell = Ok vs /\
        1 <= vf /\ 1 <= vs /\
        ((vf mod vs = 0 /\ operator = "/"%string /\ target = vf / vs) \/
         (vf mod vs <> 0 /\ operator = "-"%string /\ target = vf - vs)).
Proof.
  intros _.
  destruct (generate_returns size r)
    as (board & cliques & r' & Hgenb & Hgen & Hlat & Hmade & _).
  exists board, cliques, r'. split_and!; [done..| | |].
  - destruct (returns_generate_made_by size r) as (bc & r'' & Hbc & Hby).
    rewrite Hgenb in Hbc. injection Hbc as <- <-. cbn [fst snd] in Hby.
    rewrite Forall_forall in Hby. exact Hby.
  - intros fst_cell snd_cell r1 Hfst Hsnd.
    assert (forall m, m ∈ [fst_cell; snd_cell] -> m ∈ dict_keys board) as Hin.
    { intros m [->|Hm]%elem_of_cons; [done|].
      by apply list_elem_of_singleton in Hm as ->. }
    destruct (returns_make_clique size board [fst_cell; snd_cell] Hlat
                ltac:(done) Hin r1)
      as ([[members operator] target] & r2 & Hr & Hc & Hmade_c).
    cbn [members_of fst] in Hc. subst members.
    destruct (made_from_two_cells size board _ _ _ _ Hlat Hmade_c)
      as (vf & vs & H).
    by exists operator, target, r2, vf, vs.
  - intros fst_cell snd_cell operator target Hin.
    rewrite Forall_forall in Hmade.
    by apply (made_from_two_cells size), Hmade.
Qed.

(** With the generator always producing 1, size 2 gives the board
    [1 2 / 2 1] and two vertical cliques: values (1, 2) are labelled ["-"]
    with target -1 although 2 / 1 is exact, values (2, 1) are labelled
    ["/"] with target 2. *)
Example generate_two_cell_cliques_example :
  exists r',
    generate 2 (fun _ => 1%nat)
    = Ok ((2, [([(1, 1); (1, 2)], "-"%string, -1); ([(2, 1); (2, 2)], "/"%string, 2)]),
          r').
Proof. eexists. vm_compute. reflexivity. Qed.

(** The second of the two cliques above, with values (2, 1), is a member
    of the output and is labelled by the division. *)
Lemma generate_two_cell_clique_witness :
  exists board cliques r',
    generate_with_board 2 (fun _ => 1%nat) = Ok ((board, (2, cliques)), r') /\
    ([(2, 1); (2, 2)], "/"%string, 2) ∈ cliques /\
    exists vf vs,
      dict_get board (2, 1) = Ok vf /\ dict_get board (2, 2) = Ok vs /\
      1 <= vf /\ 1 <= vs /\
      ((vf mod vs = 0 /\ "/"%string = "/"%string /\ 2 = vf / vs) \/
       (vf mod vs <> 0 /\ "/"%string = "-"%string /\ 2 = vf - vs)).
Proof.
  destruct (generate_two_cell_clique 2 (fun _ => 1%nat))
    as (board & cliques & r' & Hgenb & Hgen & _ & _ & Hlabel); [lia|].
  assert (([(2, 1); (2, 2)], "/"%string, 2) ∈ cliques) as Hin.
  { destruct generate_two_cell_cliques_example as [r'' Hex].
    rewrite Hex in Hgen. injection Hgen as <- _. right. left. }
  exists board, cliques, r'. split_and!; [done..|].
  exact (Hlabel _ _ _ _ Hin).
Defined.

(** ** The domains of generated cliques *)

Lemma elem_of_product {A} (pool : list A) n (t : list A) :
  t ∈ product pool n <-> length t = n /\ Forall (fun x => x ∈ pool) t.
Proof.
  revert t. induction n as [|n IH]; intros t; simpl.
  - rewrite list_elem_of_singleton. split.
    + intros ->. by split.
    + intros [Hlen _]. by destruct t.
  - rewrite list_elem_of_bind. split.
    + intros (x & (t' & ->%list_elem_of_singleton & [Hlen Hall]%IH)%list_elem_of_bind & Hx).
      split; [simpl; lia|by constructor].
    + intros [Hlen Hall]. destruct t as [|x t]; [done|].
      apply Forall_cons in Hall as [Hx Hall]. exists x. split; [|done].
      apply list_elem_of_bind. exists t. split; [left|].
      apply IH. split; [simpl in Hlen; lia|done].
Qed.

Lemma any_until_ok {I} (body : I -> result bool) (l : list I) :
  (forall i, i ∈ l -> exists b, body i = Ok b) ->
  exists b, any_until body l = Ok b.
Proof.
  induction l as [|i l IH]; intros Hb; simpl; [by eexists|].
  destruct (Hb i) as [[] ->]; [left|by eexists|].
  apply IH. intros j Hj. apply Hb. by right.
Qed.

Lemma any_until_true_intro {I} (body : I -> result bool) (l : list I) i :
  (forall i, i ∈ l -> exists b, body i = Ok b) ->
  i ∈ l -> body i = Ok true -> any_until body l = Ok true.
Proof.
  induction l as [|j l IH]; intros Hb Hi Hbi; simpl; [by apply elem_of_nil in Hi|].
  destruct (Hb j) as [[] Hj]; [left|by rewrite Hj|]. rewrite Hj.
  apply elem_of_cons in Hi as [->|Hi]; [congruence|].
  apply IH; [|done..]. intros k Hk. apply Hb. by right.
Qed.

(** The four functions of [operation] return on positive right operands. *)
Lemma operation_total operator f a y :
  operation operator = Some f -> 1 <= y -> exists r, f a (PyInt y) = Ok r.
Proof.
  unfold operation. intros Hop Hy.
  repeat (case_match; [injection Hop as <-; try by eexists|]); [|done].
  destruct y as [|y|y]; [lia| |lia]. rewrite py_truediv_pos. by eexists.
Qed.

Lemma reduce_from_total operator a (l : list Z) :
  is_Some (operation operator) -> Forall (fun v => 1 <= v) l ->
  exists r, reduce_from (operation operator) a (PyInt <$> l) = Ok r.
Proof.
  intros [g Hg] Hl. rewrite Hg.
  revert a. induction Hl as [|y l Hy Hl IH]; intros a; csimpl.
  - by eexists.
  - destruct (operation_total _ g a y Hg Hy) as [r ->]. csimpl. apply IH.
Qed.

Lemma reduce_total operator (l : list Z) :
  length l = 1%nat \/ is_Some (operation operator) ->
  l <> [] -> Forall (fun v => 1 <= v) l ->
  exists r, reduce (operation operator) (PyInt <$> l) = Ok r.
Proof.
  intros Hcall Hne Hl. destruct l as [|x l]; [done|]. csimpl.
  destruct Hcall as [Hlen|Hsome].
  - destruct l; [|done]. by eexists.
  - apply reduce_from_total; [done|]. by apply Forall_cons in Hl as [_ ?].
Qed.

Lemma satisfies_body_total operator target (t p : list Z) :
  length t = 1%nat \/ is_Some (operation operator) ->
  t <> [] -> Forall (fun v => 1 <= v) t -> p ≡ₚ t ->
  exists b,
    (reduce (operation operator) (PyInt <$> p) ≫= fun r =>
       Ok (py_eq r (PyInt target))) = Ok b.
Proof.
  intros Hcall Hne Hpos Hperm.
  destruct (reduce_total operator p) as [r ->].
  - destruct Hcall as [Hlen|?]; [left|by right].
    by rewrite (Permutation_length Hperm).
  - intros ->. by apply Permutation_nil_l in Hperm.
  - by rewrite Hperm.
  - by eexists.
Qed.

Lemma labelled_callable values operator target :
  labelled values operator target ->
  values <> [] /\ (length values = 1%nat \/ is_Some (operation operator)).
Proof.
  destruct values as [|v1 [|v2 [|v3 rest]]]; simpl; [done|..].
  - intros _. split; [done|by left].
  - intros [Hdiv Hsub]. split; [done|]. right.
    destruct (decide (v1 mod v2 = 0)) as [Hmod|Hmod].
    + destruct (Hdiv Hmod) as [-> _]. by eexists.
    + destruct (Hsub Hmod) as [-> _]. by eexists.
  - intros [[-> _]|[-> _]]; (split; [done|]); right; by eexists.
Qed.

(** The values from which a clique was made are in its domain. *)
Lemma made_clique_domain size board c :
  latin_dict size board -> made_from board c ->
  exists values dom,
    comprehension (dict_get board) (members_of c) = Ok values /\
    conflicting (members_of c) values (members_of c) values = Ok false /\
    satisfies values (operation (operator_of c)) (target_of c) = Ok true /\
    clique_domain size c = Ok dom /\ values ∈ dom.
Proof.
  intros (Hnd & Hkeys & Hval & Hdiff) (values & Hvalues & Hlab).
  destruct c as [[members operator] target].
  cbn [members_of operator_of target_of fst snd] in *.
  pose proof (comprehension_Ok _ _ _ Hvalues) as Hget.
  pose proof (Forall2_length _ _ _ Hget) as Hlen.
  assert (Forall (fun v => 1 <= v <= size) values) as Hrange.
  { apply Forall_lookup. intros i v Hv.
    destruct (Forall2_lookup_r _ _ _ _ _ Hget Hv) as (m & _ & Hm).
    apply dict_get_Ok in Hm. by eapply Hval. }
  assert (Forall (fun v => 1 <= v) values) as Hpos
    by (eapply Forall_impl; [exact Hrange|]; simpl; lia).
  destruct (labelled_callable _ _ _ Hlab) as [Hne Hcall].
  assert (forall t, length t = length values -> Forall (fun v => 1 <= v) t ->
            forall p, p ∈ permutations t ->
            exists b, (reduce (operation operator) (PyInt <$> p) ≫= fun r =>
                         Ok (py_eq r (PyInt target))) = Ok b) as Hbody.
  { intros t Ht Htpos p Hp%permutations_Permutation.
    apply (satisfies_body_total _ _ t); [| |done..].
    - destruct Hcall; [left; lia|by right].
    - intros ->. by destruct values. }
  assert (conflicting members values members values = Ok false) as Hconf.
  { rewrite conflicting_clash by lia. f_equal.
    destruct (clash members values members values) eqn:Hclash; [|done].
    apply clash_true in Hclash as (i & j & mA & mB & v & HA & HB & Hi & Hj & Hx).
    pose proof (Forall2_lookup_lr _ _ _ _ _ _ Hget HA Hi) as HgA.
    pose proof (Forall2_lookup_lr _ _ _ _ _ _ Hget HB Hj) as HgB.
    apply dict_get_Ok in HgA, HgB. by destruct (Hdiff _ _ _ _ HgA HgB Hx). }
  assert (satisfies values (operation operator) target = Ok true) as Hsat.
  { unfold satisfies.
    apply (any_until_true_intro _ _ values); [by apply Hbody|apply permutations_self|].
    destruct (labelled_reduce _ _ _ Hpos Hlab) as (r & -> & Heq). simpl. by rewrite Heq. }
  destruct (filter_list_total (qualifies members operator target)
              (product (seqZ 1 size) (length members))) as [dom Hdom].
  { intros t [Ht Hpool]%elem_of_product. unfold qualifies.
    rewrite conflicting_clash by lia. simpl.
    destruct (clash members t members t); simpl; [by eexists|].
    apply any_until_ok. apply Hbody; [lia|].
    eapply Forall_impl; [exact Hpool|]. intros v Hv%elem_of_seqZ. lia. }
  exists values, dom. split_and!; [done..|].
  apply (filter_list_elem_of _ _ _ values Hdom). split.
  - apply elem_of_product. split; [done|].
    eapply Forall_impl; [exact Hrange|]. intros v Hv. cbn beta in Hv.
    apply elem_of_seqZ. lia.
  - unfold qualifies. rewrite Hconf. simpl. exact Hsat.
Qed.

(** C5.  For every size >= 1 and every sequence of random numbers,
    [generate] returns, [gdomains] returns on its cliques, and the domain
    of every clique holds the tuple of the values that the clique's members
    have on the generated board, which is still a Latin square: that tuple
    does not conflict with itself and satisfies operator and target. *)
Theorem generate_domains_nonempty (size : Z) (r : rng) :
  1 <= size ->
  exists board cliques r' d,
    generate_with_board size r = Ok ((board, (size, cliques)), r') /\
    generate size r = Ok ((size, cliques), r') /\
    latin_dict size board /\
    gdomains size cliques = Ok d /\
    forall c, c ∈ cliques ->
      exists values dom,
        comprehension (dict_get board) (members_of c) = Ok values /\
        conflicting (members_of c) values (members_of c) values = Ok false /\
        satisfies values (operation (operator_of c)) (target_of c) = Ok true /\
        d !! members_of c = Some dom /\ values ∈ dom.
Proof.
  intros _.
  destruct (generate_returns size r)
    as (board & cliques & r' & Hgenb & Hgen & Hlat & Hmade & Hperm).
  rewrite Forall_forall in Hmade.
  destruct (gdomains_total size cliques) as [d Hd].
  { intros c Hc.
    destruct (made_clique_domain size board c Hlat (Hmade c Hc))
      as (values & dom & _ & _ & _ & Hdom & _).
    by exists dom. }
  exists board, cliques, r', d. split_and!; [done..|].
  intros c Hc.
  destruct (made_clique_domain size board c Hlat (Hmade c Hc))
    as (values & dom & Hvalues & Hconf & Hsat & Hdom & Hin).
  exists values, dom. split_and!; [done..| |done].
  apply list_elem_of_split in Hc as (pre & post & ->).
  destruct (gdomains_lookup _ _ _ _ _ Hd) as (dom' & Hdom' & Hlook).
  - assert (members_of c <> []) as Hne.
    { intros Hnil. rewrite Hnil in Hvalues. simpl in Hvalues.
      injection Hvalues as <-. by simpl in Hsat. }
    destruct (members_of c) as [|x ms] eqn:Hms; [done|]. rewrite <- Hms.
    apply (disjoint_key_once pre post c x).
    + rewrite Hperm. apply all_cells_NoDup.
    + rewrite Hms. left.
  - congruence.
Qed.

Lemma generate_domains_nonempty_witness :
  exists board cliques r' d,
    generate_with_board 2 (fun _ => 1%nat) = Ok ((board, (2, cliques)), r') /\
    generate 2 (fun _ => 1%nat) = Ok ((2, cliques), r') /\
    latin_dict 2 board /\
    gdomains 2 cliques = Ok d /\
    forall c, c ∈ cliques ->
      exists values dom,
        comprehension (dict_get board) (members_of c) = Ok values /\
        conflicting (members_of c) values (members_of c) values = Ok false /\
        satisfies values (operation (operator_of c)) (target_of c) = Ok true /\
        d !! members_of c = Some dom /\ values ∈ dom.
Proof. apply (generate_domains_nonempty 2 (fun _ => 1%nat)). lia. Defined.

(** * Part III: further properties of the same functions *)

(** ** conflicting and constraint are symmetric *)

Lemma clash_sym A a B b : clash A a B b = clash B b A a.
Proof.
  apply eq_true_iff_eq. rewrite !clash_true.
  split; intros (i & j & mA & mB & v & ? & ? & ? & ? & Hx);
    exists j, i, mB, mA, v; by rewrite RowXorCol_sym.
Qed.

(** X1.  When each tuple is at least as long as its clique, exchanging
    the two clique/tuple pairs does not change what [conflicting]
    returns. *)
Theorem conflicting_symmetric (A : list Cell) (a : list Z) (B : list Cell) (b : list Z) :
  (length A <= length a)%nat -> (length B <= length b)%nat ->
  conflicting A a B b = conflicting B b A a.
Proof.
  intros Ha Hb. rewrite !conflicting_clash by done. by rewrite clash_sym.
Qed.

Lemma conflicting_symmetric_witness :
  conflicting [(1, 1); (2, 1)] [1; 2] [(1, 2)] [1]
  = conflicting [(1, 2)] [1] [(1, 1); (2, 1)] [1; 2].
Proof.
  apply (conflicting_symmetric [(1, 1); (2, 1)] [1; 2] [(1, 2)] [1]); simpl; lia.
Defined.



(** ** conflicting on tuples that are too short *)

Lemma any_until_app {I} (body : I -> result bool) (l1 l2 : list I) :
  any_until body (l1 ++ l2) =
  match any_until body l1 with
  | Ok false => any_until body l2
  | other => other
  end.
Proof.
  induction l1 as [|i l1 IH]; simpl; [done|].
  destruct (body i) as [[]|e]; [done|apply IH|done].
Qed.

(** X3.  When [B] is not empty, [b] is long enough and [a] is shorter
    than [A]: [conflicting] returns True if one of the first [len(a)]
    members of [A] already clashes with [B], and raises IndexError
    otherwise.  When [A] or [B] is empty it returns False whatever the
    tuples are, also when they are empty or too short. *)
Theorem conflicting_short_tuple (A : list Cell) (a : list Z) (B : list Cell) (b : list Z) :
  (B <> [] -> (length a < length A)%nat -> (length B <= length b)%nat ->
   conflicting A a B b
   = (if clash (take (length a) A) a B b then Ok true else Raise IndexError)) /\
  conflicting [] a B b = Ok false /\
  conflicting A a [] b = Ok false.
Proof.
  split_and!.
  - intros HB Ha Hb. assert (length (take (length a) A) = length a) as Hlen
      by (rewrite length_take; lia).
    pose proof (conflicting_clash (take (length a) A) a B b) as Hpre.
    rewrite Hlen in Hpre. specialize (Hpre (Nat.le_refl _) Hb).
    unfold conflicting in *. rewrite Hlen in Hpre.
    replace (length A) with (length a + (length A - length a))%nat by lia.
    rewrite seq_app, any_until_app.
    assert (forall i, i ∈ seq 0 (length a) ->
              any_until (fun j =>
                mA ← index A i; mB ← index B j; ma ← index a i; mb ← index b j;
                Ok (RowXorCol mA mB && (ma =? mb))) (seq 0 (length B))
              = any_until (fun j =>
                mA ← index (take (length a) A) i; mB ← index B j;
                ma ← index a i; mb ← index b j;
                Ok (RowXorCol mA mB && (ma =? mb))) (seq 0 (length B))) as Hsame.
    { intros i Hi%elem_of_seq. unfold index.
      rewrite lookup_take_lt by lia. done. }
    assert (forall (f g : nat -> result bool) l,
              (forall i, i ∈ l -> f i = g i) -> any_until f l = any_until g l) as Hext.
    { intros f g l. induction l as [|i l IH]; intros Hfg; simpl; [done|].
      rewrite (Hfg i) by left. destruct (g i) as [[]|]; try done.
      apply IH. intros j Hj. apply Hfg. by right. }
    rewrite (Hext _ _ _ Hsame), Hpre.
    destruct (clash (take (length a) A) a B b); [done|].
    destruct (length A - length a)%nat as [|n] eqn:Hn; [lia|].
    destruct B as [|mB B]; [done|].
    destruct (lookup_lt_is_Some_2 A (length a)) as [mA HA]; [lia|].
    assert (a !! length a = None) as Hnone by (by apply lookup_ge_None).
    rewrite Nat.add_0_l. cbn [seq any_until length]. unfold index.
    rewrite HA, Hnone. done.
  - done.
  - unfold conflicting. simpl. induction (seq 0 (length A)); simpl; auto.
Qed.

Lemma conflicting_short_tuple_witness :
  conflicting [(1, 1); (2, 1)] [1] [(1, 2)] [2]
  = (if clash (take (length [1]) [(1, 1); (2, 1)]) [1] [(1, 2)] [2]
     then Ok true else Raise IndexError) /\
  conflicting [] [] [(1, 2)] [] = Ok false /\
  conflicting [(1, 1); (2, 1)] [] [] [] = Ok false.
Proof.
  split_and!.
  - apply (proj1 (conflicting_short_tuple [(1, 1); (2, 1)] [1] [(1, 2)] [2]));
      [done|simpl; lia..].
  - apply (proj1 (proj2 (conflicting_short_tuple [] [] [(1, 2)] []))).
  - apply (proj2 (proj2 (conflicting_short_tuple [(1, 1); (2, 1)] [] [] []))).
Defined.

(** ** What satisfies computes *)

Lemma selections_complete {A} (l1 l2 : list A) x :
  (x, l1 ++ l2) ∈ selections (l1 ++ x :: l2).
Proof.
  induction l1 as [|y l1 IH]; simpl; [left|].
  right. apply list_elem_of_fmap. by exists (x, l1 ++ l2).
Qed.

Lemma permutations_complete {A} (l p : list A) : p ≡ₚ l -> p ∈ permutations l.
Proof.
  unfold permutations. revert l. induction p as [|x p IH]; intros l Hperm.
  - apply Permutation_nil_l in Hperm as <-. left.
  - assert (x ∈ l) as Hx by (rewrite <- Hperm; left).
    apply list_elem_of_split in Hx as (l1 & l2 & ->).
    rewrite <- Permutation_middle in Hperm.
    apply Permutation.Permutation_cons_inv in Hperm.
    rewrite length_app. cbn [length]. rewrite Nat.add_succ_r, <- length_app.
    cbn [permutations_of]. apply list_elem_of_bind.
    exists (x, l1 ++ l2). split; [|apply selections_complete].
    cbn [fst snd]. apply list_elem_of_fmap. exists p. split; [done|]. by apply IH.
Qed.

Lemma any_until_Ok_true {I} (body : I -> result bool) (l : list I) b i :
  any_until body l = Ok b -> i ∈ l -> body i = Ok true -> b = true.
Proof.
  induction l as [|j l IH]; simpl; [by intros _ ?%elem_of_nil|].
  destruct (body j) as [[]|e] eqn:Hj; [by intros [= <-]| |done].
  intros Hrest [->|Hi]%elem_of_cons Hbi; [congruence|by apply IH].
Qed.

(** [satisfies] on values for which no permutation raises. *)
Lemma satisfies_spec values f target :
  (forall p, p ≡ₚ values -> exists r, reduce f (PyInt <$> p) = Ok r) ->
  exists b, satisfies values f target = Ok b /\
    (b = true <->
     exists p r, p ≡ₚ values /\ reduce f (PyInt <$> p) = Ok r /\
       py_eq r (PyInt target) = true).
Proof.
  intros Htotal.
  destruct (any_until_ok (fun p =>
      r ← reduce f (PyInt <$> p); Ok (py_eq r (PyInt target))) (permutations values))
    as [b Hb].
  { intros p Hp%permutations_Permutation. destruct (Htotal p Hp) as [r ->].
    by eexists. }
  exists b. split; [done|]. split.
  - intros ->. by apply satisfies_true.
  - intros (p & r & Hp & Hr & Heq).
    apply (any_until_Ok_true _ _ _ p Hb); [by apply permutations_complete|].
    by rewrite Hr; simpl; rewrite Heq.
Qed.

Lemma foldl_add_total a l : foldl Z.add a l = a + total l.
Proof. revert a. induction l as [|x l IH]; intros a; simpl; [lia|]. rewrite IH. lia. Qed.

Lemma foldl_mul_product a l : foldl Z.mul a l = a * product_of l.
Proof. revert a. induction l as [|x l IH]; intros a; simpl; [lia|]. rewrite IH. lia. Qed.

Lemma total_Permutation l1 l2 : l1 ≡ₚ l2 -> total l1 = total l2.
Proof. induction 1; simpl; lia. Qed.

Lemma product_of_Permutation l1 l2 : l1 ≡ₚ l2 -> product_of l1 = product_of l2.
Proof. induction 1; simpl; lia. Qed.

Lemma reduce_add (l : list Z) :
  l <> [] -> reduce (operation "+") (PyInt <$> l) = Ok (PyInt (total l)).
Proof.
  destruct l as [|x l]; [done|]. intros _. csimpl.
  by rewrite reduce_from_add, foldl_add_total.
Qed.

Lemma reduce_mul (l : list Z) :
  l <> [] -> reduce (operation "*") (PyInt <$> l) = Ok (PyInt (product_of l)).
Proof.
  destruct l as [|x l]; [done|]. intros _. csimpl.
  by rewrite reduce_from_mul, foldl_mul_product.
Qed.

(** X4.  For a non-empty tuple, [satisfies] under ["+"] tells whether the
    sum of the values is the target, and under ["*"] whether their product
    is: the order of the values plays no part. *)
Theorem satisfies_add_mul (values : list Z) (target : Z) :
  values <> [] ->
  satisfies values (operation "+") target = Ok (total values =? target) /\
  satisfies values (operation "*") target = Ok (product_of values =? target).
Proof.
  intros Hne.
  assert (forall p, p ∈ permutations values -> p <> [] /\ p ≡ₚ values) as Hp.
  { intros p Hp%permutations_Permutation. split; [|done].
    intros ->. by apply Permutation_nil_l in Hp. }
  assert (forall c : bool, existsb (fun _ => c) (permutations values) = c) as Hex.
  { intros c. pose proof (permutations_self values) as Hself.
    destruct (permutations values) as [|q qs]; [by apply elem_of_nil in Hself|].
    destruct c; simpl; [done|]. clear. induction qs; simpl; auto. }
  split; unfold satisfies.
  - rewrite (any_until_total _ (fun _ => total values =? target)); [by rewrite Hex|].
    intros p [Hpne Hperm]%Hp. rewrite reduce_add by done. simpl.
    by rewrite py_eq_int, (total_Permutation _ _ Hperm).
  - rewrite (any_until_total _ (fun _ => product_of values =? target)); [by rewrite Hex|].
    intros p [Hpne Hperm]%Hp. rewrite reduce_mul by done. simpl.
    by rewrite py_eq_int, (product_of_Permutation _ _ Hperm).
Qed.

Lemma satisfies_add_mul_witness :
  satisfies [2; 3; 1] (operation "+") 6 = Ok (total [2; 3; 1] =? 6) /\
  satisfies [2; 3; 1] (operation "*") 6 = Ok (product_of [2; 3; 1] =? 6).
Proof. by apply (satisfies_add_mul [2; 3; 1] 6). Defined.

Lemma reduce_from_sub a (l : list Z) :
  reduce_from (operation "-") (PyInt a) (PyInt <$> l) = Ok (PyInt (a - total l)).
Proof.
  revert a. induction l as [|y l IH]; intros a; csimpl; [f_equal; f_equal; lia|].
  rewrite IH. f_equal. f_equal. lia.
Qed.

(** X5.  For a non-empty tuple, [satisfies] under ["-"] returns, and it
    returns True exactly when some value of the tuple, minus the sum of all
    the others, is the target. *)
Theorem satisfies_sub (values : list Z) (target : Z) :
  values <> [] ->
  exists b, satisfies values (operation "-") target = Ok b /\
    (b = true <->
     exists x rest, values ≡ₚ x :: rest /\ x - total rest = target).
Proof.
  intros Hne.
  assert (forall p, p ≡ₚ values -> exists x rest, p = x :: rest /\
            reduce (operation "-") (PyInt <$> p) = Ok (PyInt (x - total rest))) as Hred.
  { intros [|x rest] Hp; [by apply Permutation_nil_l in Hp|].
    exists x, rest. split; [done|]. apply reduce_from_sub. }
  destruct (satisfies_spec values (operation "-") target) as (b & Hb & Hiff).
  { intros p (x & rest & -> & Hr)%Hred. by eexists. }
  exists b. split; [done|]. rewrite Hiff. split.
  - intros (p & r & Hp & Hr & Heq).
    destruct (Hred p Hp) as (x & rest & -> & Hr'). rewrite Hr' in Hr.
    injection Hr as <-. rewrite py_eq_int in Heq. apply Z.eqb_eq in Heq.
    by exists x, rest.
  - intros (x & rest & Hperm & Heq). exists (x :: rest), (PyInt (x - total rest)).
    split_and!; [done|apply reduce_from_sub|].
    rewrite py_eq_int. by apply Z.eqb_eq.
Qed.

Lemma satisfies_sub_witness :
  exists b, satisfies [1; 3] (operation "-") 2 = Ok b /\
    (b = true <->
     exists x rest, [1; 3] ≡ₚ x :: rest /\ x - total rest = 2).
Proof. by apply (satisfies_sub [1; 3] 2). Defined.

Lemma product_of_pos (l : list Z) : Forall (fun v => 1 <= v) l -> 1 <= product_of l.
Proof. induction 1; simpl; [lia|nia]. Qed.

Lemma reduce_from_div a (l : list Z) :
  Forall (fun v => 1 <= v) l ->
  exists r, reduce_from (operation "/") a (PyInt <$> l) = Ok r /\
    (to_Q r == to_Q a / inject_Z (product_of l))%Q.
Proof.
  intros Hl. revert a. induction Hl as [|y l Hy Hl IH]; intros a; csimpl.
  - exists a. split; [done|]. unfold Qdiv. change (/ inject_Z 1)%Q with 1%Q.
    by rewrite Qmult_1_r.
  - destruct y as [|y|y]; [lia| |lia].
    change (call (operation "/") a (PyInt (Z.pos y)))
      with (py_truediv a (PyInt (Z.pos y))).
    rewrite py_truediv_pos. csimpl.
    destruct (IH (PyFloat (to_Q a / inject_Z (Z.pos y)))) as (r & Hr & Heq).
    exists r. split; [done|]. rewrite Heq. cbn [to_Q].
    rewrite inject_Z_mult. pose proof (product_of_pos l Hl) as Hpos.
    field. split.
    + intros H0. apply (Qeq_bool_neq (inject_Z (product_of l)) 0); [|done].
      unfold Qeq_bool. simpl. apply Z.eqb_neq. lia.
    + discriminate.
Qed.

(** X6.  For a non-empty tuple of at most 10 values between 1 and
    1000000, [satisfies] under ["/"] returns, and it returns True exactly
    when some value of the tuple is the target times the product of all the
    others.  The bounds keep the float quotients of the code in step with
    the exact quotients of the model: a chain of at most nine divisions
    starting from an integer below 2^53 gives an integer exactly when the
    exact quotient is that integer (an integer quotient makes every
    intermediate quotient an integer, which the division returns exactly;
    any other quotient is further from every integer than nine roundings
    can move it), and nothing overflows or underflows. *)
Theorem satisfies_div (values : list Z) (target : Z) :
  values <> [] -> Forall (fun v => 1 <= v <= 1000000) values ->
  (length values <= 10)%nat ->
  exists b, satisfies values (operation "/") target = Ok b /\
    (b = true <->
     exists x rest, values ≡ₚ x :: rest /\ x = target * product_of rest).
Proof.
  intros Hne Hrange _.
  assert (Forall (fun v => 1 <= v) values) as Hpos
    by (eapply Forall_impl; [exact Hrange|]; simpl; lia).
  assert (forall x rest, x :: rest ≡ₚ values ->
            exists r, reduce (operation "/") (PyInt <$> x :: rest) = Ok r /\
              (py_eq r (PyInt target) = true <-> x = target * product_of rest)) as Hred.
  { intros x rest Hp.
    assert (Forall (fun v => 1 <= v) rest) as Hrest.
    { rewrite <- Hp in Hpos. by apply Forall_cons in Hpos as [_ ?]. }
    destruct (reduce_from_div (PyInt x) rest Hrest) as (r & Hr & Heq).
    exists r. split; [done|].
    pose proof (product_of_pos rest Hrest) as HP.
    unfold py_eq. rewrite Qeq_bool_iff, Heq. cbn [to_Q].
    destruct (product_of rest) as [|P|P]; [lia| |lia].
    unfold Qeq, Qdiv, Qmult, Qinv. simpl. rewrite !Z.mul_1_r.
    rewrite Pos2Z.inj_mul. lia. }
  destruct (satisfies_spec values (operation "/") target) as (b & Hb & Hiff).
  { intros [|x rest] Hp; [by apply Permutation_nil_l in Hp|].
    destruct (Hred x rest Hp) as (r & Hr & _). by exists r. }
  exists b. split; [done|]. rewrite Hiff. split.
  - intros ([|x rest] & r & Hp & Hr & Heq); [by apply Permutation_nil_l in Hp|].
    destruct (Hred x rest Hp) as (r' & Hr' & Hr'iff).
    rewrite Hr' in Hr. injection Hr as <-. exists x, rest. split; [done|].
    by apply Hr'iff.
  - intros (x & rest & Hperm & Heq).
    destruct (Hred x rest) as (r & Hr & Hriff); [done|].
    exists (x :: rest), r. split_and!; [done..|]. by apply Hriff.
Qed.

Lemma satisfies_div_witness :
  exists b, satisfies [2; 6] (operation "/") 3 = Ok b /\
    (b = true <->
     exists x rest, [2; 6] ≡ₚ x :: rest /\ x = 3 * product_of rest).
Proof.
  apply (satisfies_div [2; 6] 3); [done| |simpl; lia].
  repeat constructor; lia.
Defined.

Lemma permutations_head {A} (l : list A) : exists ps, permutations l = l :: ps.
Proof.
  unfold permutations. induction l as [|x l [ps IH]]; [by exists []|].
  cbn [length permutations_of selections]. csimpl. rewrite IH. csimpl.
  by eexists.
Qed.

(** X7.  The edge cases of [satisfies]: an empty tuple raises TypeError
    under every operation; a one-element tuple is compared with the target
    without the operation being called, so also when the operation is
    [None]; with [None] and two or more values TypeError is raised. *)
Theorem satisfies_edge_cases (f : option binop) (v v1 v2 target : Z) (l : list Z) :
  satisfies [] f target = Raise TypeError /\
  satisfies [v] f target = Ok (v =? target) /\
  satisfies (v1 :: v2 :: l) None target = Raise TypeError.
Proof.
  split_and!.
  - done.
  - unfold satisfies. cbn. rewrite py_eq_int. by destruct (v =? target).
  - unfold satisfies. destruct (permutations_head (v1 :: v2 :: l)) as [ps ->].
    done.
Qed.

(** X8.  On positive values, [satisfies] gives the same answer for a
    tuple and for every rearrangement of it: under ["+"], ["-"] and ["*"],
    where the code computes with integers, for all positive values; under
    ["/"] for at most 10 values up to 1000000, the range on which the float
    quotients of the code agree with the exact quotients of the model. *)
Theorem satisfies_rearranged (values values' : list Z) (operator : string) (target : Z) :
  values' ≡ₚ values ->
  Forall (fun v => 1 <= v) values -> values <> [] ->
  operator ∈ ["+"; "-"; "*"]%string \/
  (operator = "/"%string /\ Forall (fun v => v <= 1000000) values /\
   (length values <= 10)%nat) ->
  satisfies values' (operation operator) target
  = satisfies values (operation operator) target.
Proof.
  intros Hperm Hpos Hne Hop.
  assert (is_Some (operation operator)) as Hsome.
  { destruct Hop as [Hop|[-> _]]; [|by eexists].
    repeat (apply elem_of_cons in Hop as [->|Hop]; [by eexists|]).
    by apply elem_of_nil in Hop. }
  assert (forall p, p ≡ₚ values ->
            exists r, reduce (operation operator) (PyInt <$> p) = Ok r) as Htotal.
  { intros p Hp. apply reduce_total; [by right| |by rewrite Hp].
    intros ->. by apply Permutation_nil_l in Hp. }
  destruct (satisfies_spec values (operation operator) target Htotal) as (b & -> & Hb).
  destruct (satisfies_spec values' (operation operator) target) as (b' & -> & Hb').
  { intros p Hp. apply Htotal. by rewrite Hp. }
  f_equal. apply eq_true_iff_eq. rewrite Hb, Hb'.
  split; intros (p & r & Hp & ?); exists p, r; (split; [|done]).
  - by rewrite Hp.
  - by rewrite Hp, Hperm.
Qed.

Lemma satisfies_rearranged_witness :
  satisfies [1; 6; 2] (operation "/") 3 = satisfies [6; 2; 1] (operation "/") 3.
Proof.
  apply (satisfies_rearranged [6; 2; 1] [1; 6; 2] "/" 3).
  - apply (Permutation_cons_append [6; 2] 1).
  - repeat constructor; lia.
  - done.
  - right. split_and!; [done| |simpl; lia]. repeat constructor; lia.
Defined.

(** ** What gdomains stores *)

Lemma filter_list_Ok_total {A} (p : A -> result bool) (l l' : list A) x :
  filter_list p l = Ok l' -> x ∈ l -> exists b, p x = Ok b.
Proof.
  revert l'. induction l as [|y l IH]; intros l'; simpl; [by intros _ ?%elem_of_nil|].
  intros (keep & Hy & (rest & Hrest & _)%bind_Ok)%bind_Ok [->|Hx]%elem_of_cons.
  - by exists keep.
  - by apply (IH rest).
Qed.

Lemma filter_list_NoDup {A} (p : A -> result bool) (l l' : list A) :
  filter_list p l = Ok l' -> NoDup l -> NoDup l'.
Proof.
  revert l'. induction l as [|y l IH]; intros l'; simpl.
  - by intros [= <-].
  - intros (keep & Hy & (rest & Hrest & [= <-])%bind_Ok)%bind_Ok [Hnotin Hnd]%NoDup_cons.
    specialize (IH rest Hrest Hnd). destruct keep; [|done].
    apply NoDup_cons. split; [|done].
    intros Hin. apply (filter_list_elem_of _ _ _ y Hrest) in Hin as [? _]. done.
Qed.

Lemma product_NoDup {A} (pool : list A) n : NoDup pool -> NoDup (product pool n).
Proof.
  intros Hpool. induction n as [|n IH]; simpl; [apply NoDup_singleton|].
  apply NoDup_bind; [| |done].
  - intros x1 x2 t _ _ (t1 & ->%list_elem_of_singleton & _)%list_elem_of_bind
      (t2 & [= -> _]%list_elem_of_singleton & _)%list_elem_of_bind. done.
  - intros x _. apply NoDup_bind; [| |done].
    + intros t1 t2 t _ _ ->%list_elem_of_singleton [= ->]%list_elem_of_singleton. done.
    + intros t _. apply NoDup_singleton.
Qed.

(** X9.  The domain that [gdomains] returns for a clique (one that no
    later clique shares its member tuple with) has no tuple twice, and it
    holds exactly the tuples of the clique's length, with entries in
    [1..size], that do not conflict with themselves and of which some
    permutation folds to the target under the operator: no admissible
    tuple is left out. *)
Theorem gdomains_domain (size : Z) (pre post : list clique)
    (members : list Cell) (operator : string) (target : Z)
    (d : gmap (list Cell) (list (list Z))) :
  gdomains size (pre ++ (members, operator, target) :: post) = Ok d ->
  members ∉ members_of <$> post ->
  exists dom, d !! members = Some dom /\ NoDup dom /\
    forall t, t ∈ dom <->
      length t = length members /\
      Forall (fun v => 1 <= v <= size) t /\
      conflicting members t members t = Ok false /\
      exists p r, p ≡ₚ t /\
        reduce (operation operator) (PyInt <$> p) = Ok r /\
        py_eq r (PyInt target) = true.
Proof.
  intros Hd Hlast.
  apply gdomains_lookup in Hd as (dom & Hdom & Hlook); [|done].
  exists dom. split; [done|]. unfold clique_domain in Hdom.
  split; [eapply filter_list_NoDup; [exact Hdom|apply product_NoDup, NoDup_seqZ]|].
  intros t. rewrite (filter_list_elem_of _ _ _ t Hdom), elem_of_product.
  assert (Forall (fun x => x ∈ seqZ 1 size) t <-> Forall (fun v => 1 <= v <= size) t) as ->.
  { apply Forall_proper; [|done]. intros v. rewrite elem_of_seqZ. lia. }
  split.
  - intros [[Hlen Hrange] [Hc Hs]%qualifies_true].
    split_and!; [done..|]. by apply satisfies_true.
  - intros (Hlen & Hrange & Hc & p & r & Hp & Hr & Heq).
    split; [done|].
    destruct (filter_list_Ok_total _ _ _ t Hdom) as [b Hb];
      [by apply elem_of_product; split;
         [|eapply Forall_impl; [exact Hrange|]; intros v Hv; apply elem_of_seqZ;
           cbn beta in Hv; lia]|].
    rewrite Hb. f_equal. unfold qualifies in Hb. rewrite Hc in Hb. simpl in Hb.
    apply (any_until_Ok_true _ _ _ p Hb); [by apply permutations_complete|].
    rewrite Hr. simpl. by rewrite Heq.
Qed.

Lemma gdomains_domain_witness :
  exists dom,
    ({[ [(1, 1); (1, 2)] := [[1; 2]; [2; 1]; [2; 3]; [3; 2]] ]}
       : gmap (list Cell) (list (list Z))) !! [(1, 1); (1, 2)] = Some dom /\
    NoDup dom /\
    forall t, t ∈ dom <->
      length t = length [(1, 1); (1, 2)] /\
      Forall (fun v => 1 <= v <= 3) t /\
      conflicting [(1, 1); (1, 2)] t [(1, 1); (1, 2)] t = Ok false /\
      exists p r, p ≡ₚ t /\
        reduce (operation "-") (PyInt <$> p) = Ok r /\
        py_eq r (PyInt 1) = true.
Proof.
  apply (gdomains_domain 3 [] [] [(1, 1); (1, 2)] "-" 1).
  - vm_compute. reflexivity.
  - apply not_elem_of_nil.
Defined.

Lemma clique_domain_total size members operator target :
  members <> [] ->
  length members = 1%nat \/ is_Some (operation operator) ->
  exists dom, clique_domain size (members, operator, target) = Ok dom.
Proof.
  intros Hne Hcall. unfold clique_domain. apply filter_list_total.
  intros t [Hlen Hpool]%elem_of_product. unfold qualifies.
  rewrite conflicting_clash by lia. simpl.
  destruct (clash members t members t); simpl; [by eexists|].
  apply any_until_ok. intros p Hp%permutations_Permutation.
  apply (satisfies_body_total _ _ t); [| | |done].
  - destruct Hcall; [left; lia|by right].
  - intros ->. by destruct members.
  - eapply Forall_impl; [exact Hpool|]. intros v Hv%elem_of_seqZ. lia.
Qed.

Lemma gdomains_keys (size : Z) (cliques : list clique)
    (d0 d : gmap (list Cell) (list (list Z))) (k : list Cell) :
  for_each (gdomains_round size) d0 cliques = Ok d ->
  is_Some (d !! k) <-> is_Some (d0 !! k) \/ k ∈ members_of <$> cliques.
Proof.
  revert d0. induction cliques as [|c cliques IH]; intros d0; csimpl.
  - intros [= <-]. split; [by left|]. by intros [?|?%elem_of_nil].
  - intros (d1 & Hd1 & Hrest)%bind_Ok.
    apply bind_Ok in Hd1 as (dom & _ & [= <-]).
    rewrite (IH _ Hrest), elem_of_cons.
    destruct (decide (k = members_of c)) as [->|Hne].
    + rewrite lookup_insert_eq. split; [auto|]. intros _. left. by eexists.
    + rewrite lookup_insert_ne by done.
      split; [intros [?|?]; auto|intros [?|[?|?]]; [auto|done|auto]].
Qed.

(** X10.  [gdomains] returns, for every size, on every list whose cliques
    have at least one member and either exactly one member or one of the
    operators [+ - * /]; the dictionary it returns has exactly the member
    tuples as keys. *)
Theorem gdomains_returns (size : Z) (cliques : list clique) :
  (forall c, c ∈ cliques ->
     members_of c <> [] /\
     (length (members_of c) = 1%nat \/
      operator_of c ∈ ["+"; "-"; "*"; "/"]%string)) ->
  exists d, gdomains size cliques = Ok d /\
    forall k, is_Some (d !! k) <-> k ∈ members_of <$> cliques.
Proof.
  intros Hall.
  destruct (gdomains_total size cliques) as [d Hd].
  { intros [[members operator] target] Hc. destruct (Hall _ Hc) as [Hne Hcall].
    apply clique_domain_total; [done|].
    destruct Hcall as [?|Hop]; [by left|right].
    cbn [operator_of fst snd] in Hop.
    repeat (apply elem_of_cons in Hop as [->|Hop]; [by eexists|]).
    by apply elem_of_nil in Hop. }
  exists d. split; [done|]. intros k.
  rewrite (gdomains_keys size cliques ∅ d k Hd), lookup_empty.
  split; [by intros [[? ?]|?]|by right].
Qed.

Lemma gdomains_returns_witness :
  exists d,
    gdomains 2 [([(1, 1); (2, 1)], "+"%string, 3); ([(1, 2)], "%"%string, 1)] = Ok d /\
    forall k, is_Some (d !! k) <->
      k ∈ members_of <$> [([(1, 1); (2, 1)], "+"%string, 3); ([(1, 2)], "%"%string, 1)].
Proof.
  apply (gdomains_returns 2 [([(1, 1); (2, 1)], "+"%string, 3); ([(1, 2)], "%"%string, 1)]).
  intros c [->|[->|[]%elem_of_nil]%elem_of_cons]%elem_of_cons.
  - split; [done|]. right. left.
  - split; [done|]. by left.
Defined.

(** X11.  A clique without members makes [gdomains] raise TypeError,
    whatever its operator and target and whatever the size, as soon as the
    cliques before it have been handled. *)
Theorem gdomains_raises_without_members (size : Z) (pre post : list clique)
    (operator : string) (target : Z) (d : gmap (list Cell) (list (list Z))) :
  gdomains size pre = Ok d ->
  gdomains size (pre ++ ([], operator, target) :: post) = Raise TypeError.
Proof. intros Hpre. rewrite gdomains_app, Hpre. reflexivity. Qed.

Lemma gdomains_raises_without_members_witness :
  gdomains 3 ([([(1, 1)], "."%string, 2)] ++ ([], "+"%string, 0) :: [])
  = Raise TypeError.
Proof.
  apply (gdomains_raises_without_members 3 [([(1, 1)], "."%string, 2)] [] "+" 0
           {[ [(1, 1)] := [[2]] ]}).
  vm_compute. reflexivity.
Defined.

(** ** The neighbour lists *)

Lemma neighbour_of_append (nb : gmap (list Cell) (list (list Cell))) A B nA nB X Y :
  A <> B -> nb !! A = Some nA -> nb !! B = Some nB ->
  neighbour_of (<[B := nB ++ [A]]> (<[A := nA ++ [B]]> nb)) X Y <->
  neighbour_of nb X Y \/ (X = A /\ Y = B) \/ (X = B /\ Y = A).
Proof.
  intros Hne HnA HnB. unfold neighbour_of.
  destruct (decide (X = B)) as [->|HXB].
  { rewrite lookup_insert_eq. split.
    - intros (l & [= <-] & [?|Hs]%elem_of_app);
        [|apply list_elem_of_singleton in Hs as ->; tauto].
      left. by exists nB.
    - intros [(l & Hl & Hin)|[[-> ->]|[_ ->]]]; [|done|].
      + rewrite HnB in Hl. injection Hl as <-.
        eexists. split; [done|]. apply elem_of_app. by left.
      + eexists. split; [done|]. apply elem_of_app. right. by left. }
  rewrite lookup_insert_ne by done.
  destruct (decide (X = A)) as [->|HXA].
  { rewrite lookup_insert_eq. split.
    - intros (l & [= <-] & [?|Hs]%elem_of_app);
        [|apply list_elem_of_singleton in Hs as ->; tauto].
      left. by exists nA.
    - intros [(l & Hl & Hin)|[[_ ->]|[-> ->]]]; [| |done].
      + rewrite HnA in Hl. injection Hl as <-.
        eexists. split; [done|]. apply elem_of_app. by left.
      + eexists. split; [done|]. apply elem_of_app. right. by left. }
  rewrite lookup_insert_ne by done. split; [by left|].
  intros [?|[[-> _]|[-> _]]]; done.
Qed.

Lemma gneighbors_step_NoDup (nb nb' : gmap (list Cell) (list (list Cell))) A B :
  gneighbors_step nb A B = Ok nb' ->
  (forall X l, nb !! X = Some l -> NoDup l) /\
  (forall X Y, neighbour_of nb X Y -> neighbour_of nb Y X) ->
  (forall X l, nb' !! X = Some l -> NoDup l) /\
  (forall X Y, neighbour_of nb' X Y -> neighbour_of nb' Y X).
Proof.
  intros Hstep [Hnd Hsym]. unfold gneighbors_step in Hstep.
  case_bool_decide as Hne; [|by injection Hstep as <-].
  apply bind_Ok in Hstep as (nA & HgA & Hstep).
  assert (nb !! A = Some nA) as HnA.
  { unfold getitem in HgA. destruct (nb !! A); [by injection HgA as ->|done]. }
  case_bool_decide as Hnew; [|by injection Hstep as <-].
  rewrite conflicting_sentinels in Hstep. simpl in Hstep.
  destruct (may_conflict A B); [|by injection Hstep as <-].
  rewrite HgA in Hstep. simpl in Hstep.
  apply bind_Ok in Hstep as (nB & HgB & [= <-]).
  assert (nb !! B = Some nB) as HnB.
  { unfold getitem in HgB. rewrite lookup_insert_ne in HgB by done.
    destruct (nb !! B); [by injection HgB as ->|done]. }
  split.
  - intros X l. destruct (decide (X = B)) as [->|HXB].
    { rewrite lookup_insert_eq. intros [= <-].
      apply NoDup_app. split_and!; [by eapply Hnd| |apply NoDup_singleton].
      intros Y HY ->%list_elem_of_singleton. apply Hnew.
      destruct (Hsym B A) as (l & Hl & Hin); [by exists nB|]. congruence. }
    rewrite lookup_insert_ne by done.
    destruct (decide (X = A)) as [->|HXA].
    { rewrite lookup_insert_eq. intros [= <-].
      apply NoDup_app. split_and!; [by eapply Hnd| |apply NoDup_singleton].
      by intros Y HY ->%list_elem_of_singleton. }
    rewrite lookup_insert_ne by done. apply Hnd.
  - intros X Y. rewrite !(neighbour_of_append nb A B nA nB) by done.
    intros [?%Hsym|[?|?]]; tauto.
Qed.

(** X12.  For any list of cliques, validated or not, [gneighbors]
    returns a dictionary whose keys are the member tuples; no neighbour
    list holds a tuple twice, and [B] is listed under [A] exactly when [B]
    is a member tuple of the list different from [A] of which some cell
    shares exactly one coordinate with some cell of [A]. *)
Theorem gneighbors_lists (cliques : list clique) :
  exists nb, gneighbors cliques = Ok nb /\
    (forall A, is_Some (nb !! A) <-> A ∈ members_of <$> cliques) /\
    forall A nA, nb !! A = Some nA ->
      NoDup nA /\
      forall B, B ∈ nA <->
        B ∈ members_of <$> cliques /\ A <> B /\
        exists mA mB, mA ∈ A /\ mB ∈ B /\ RowXorCol mA mB = true.
Proof.
  destruct (gneighbors_spec cliques) as (nb & Hnb & Hdom & Hrel).
  exists nb. split; [done|]. split; [done|].
  assert ((forall X l, nb !! X = Some l -> NoDup l) /\
          (forall X Y, neighbour_of nb X Y -> neighbour_of nb Y X)) as [Hnd _].
  { unfold gneighbors in Hnb.
    pose (P := fun nb : gmap (list Cell) (list (list Cell)) =>
      (forall X l, nb !! X = Some l -> NoDup l) /\
      (forall X Y, neighbour_of nb X Y -> neighbour_of nb Y X)).
    apply (for_each_inv P _ _ _ _) in Hnb; [done| |].
    - split.
      + intros X l. rewrite gneighbors_init_lookup.
        case_decide; [|by rewrite lookup_empty]. intros [= <-]. constructor.
      + intros X Y (l & Hl & Hin). rewrite gneighbors_init_lookup in Hl.
        case_decide; [|by rewrite lookup_empty in Hl].
        injection Hl as <-. by apply elem_of_nil in Hin.
    - intros nb1 cA nb2 _ Hinv Hinner.
      apply (for_each_inv P _ _ _ _) in Hinner; [done|done|].
      intros nb3 cB nb4 _ Hinv3 Hstep.
      by eapply gneighbors_step_NoDup. }
  intros A nA HnA. split; [by eapply Hnd|].
  intros B. rewrite <- may_conflict_true.
  assert (B ∈ nA <-> neighbour_of nb A B) as ->.
  { split; [intros ?; by exists nA|]. intros (l & Hl & ?). congruence. }
  rewrite Hrel. split; [tauto|]. intros (? & ? & ?). split_and!; [|done..].
  apply Hdom. by eexists.
Qed.

(** ** What validate accepts and how it fails *)

Lemma validate_unfold (size : Z) (cliques : list clique) :
  validate size cliques =
  for_each (validate_round size) (∅, []) cliques ≫= fun st =>
    if negb (bool_decide
               ((list_to_set (all_cells size) : gset Cell) ∖ st.1 = ∅))
    then Raise (SystemExit 4) else Ok st.2.
Proof. reflexivity. Qed.

Lemma outOfBounds_false size x : outOfBounds size x = false <-> in_grid size x.
Proof. unfold outOfBounds, in_grid. lia. Qed.

Lemma validate_clique_cases (size : Z) (mentioned : gset Cell) (c : clique) :
  validate_clique size mentioned c =
  if negb (str_in (operator_of c) "+-*/.") then Raise (SystemExit 1)
  else if negb (bool_decide (Forall (in_grid size) (members_of c)))
  then Raise (SystemExit 2)
  else if negb (bool_decide (Forall (fun x => x ∉ mentioned) (members_of c)))
  then Raise (SystemExit 3)
  else Ok (mentioned ∪ list_to_set (members_of c), rewritten c).
Proof.
  destruct c as [[members operator] target].
  unfold validate_clique, rewritten. cbn [members_of operator_of target_of fst snd].
  destruct (str_in operator "+-*/."); simpl; [|done].
  assert (filter (fun xy => outOfBounds size xy = true) (tuple_of_set members) = []
          <-> Forall (in_grid size) members) as Hoob.
  { rewrite Forall_forall. split.
    - intros Hnil x Hx. apply outOfBounds_false.
      destruct (outOfBounds size x) eqn:Hb; [|done].
      assert (x ∈ filter (fun xy => outOfBounds size xy = true) (tuple_of_set members)) as Hin
        by (apply list_elem_of_filter; split; [done|by apply elem_of_tuple_of_set]).
      rewrite Hnil in Hin. by apply elem_of_nil in Hin.
    - intros Hall. destruct (filter _ _) as [|x l] eqn:Hf; [done|].
      assert (x ∈ filter (fun xy => outOfBounds size xy = true) (tuple_of_set members)) as Hin
        by (rewrite Hf; left).
      apply list_elem_of_filter in Hin as [Hb Hx].
      apply (proj1 (elem_of_tuple_of_set _ _)) in Hx.
      pose proof (proj2 (outOfBounds_false _ _) (Hall x Hx)). congruence. }
  rewrite (bool_decide_ext _ _ Hoob).
  destruct (bool_decide (Forall (in_grid size) members)); simpl; [|done].
  assert (mentioned ∩ list_to_set (tuple_of_set members) = (∅ : gset Cell)
          <-> Forall (fun x => x ∉ mentioned) members) as Hdis.
  { rewrite Forall_forall. split.
    - intros Hempty x Hx Hm. cut (x ∈ (∅ : gset Cell)); [set_solver|].
      rewrite <- Hempty. apply elem_of_intersection. split; [done|].
      by apply elem_of_list_to_set, elem_of_tuple_of_set.
    - intros Hall. apply set_eq. intros x. split; [|set_solver].
      intros [Hm Hx%elem_of_list_to_set]%elem_of_intersection.
      apply (proj1 (elem_of_tuple_of_set _ _)) in Hx.
      by destruct (Hall x Hx). }
  rewrite (bool_decide_ext _ _ Hdis).
  destruct (bool_decide (Forall (fun x => x ∉ mentioned) members)); simpl; [|done].
  f_equal. f_equal. apply set_eq. intros x.
  rewrite !elem_of_union, !elem_of_list_to_set, elem_of_tuple_of_set. done.
Qed.

Lemma validate_round_cases (size : Z) (mentioned : gset Cell) (out : list clique)
    (c : clique) :
  validate_round size (mentioned, out) c =
  if negb (str_in (operator_of c) "+-*/.") then Raise (SystemExit 1)
  else if negb (bool_decide (Forall (in_grid size) (members_of c)))
  then Raise (SystemExit 2)
  else if negb (bool_decide (Forall (fun x => x ∉ mentioned) (members_of c)))
  then Raise (SystemExit 3)
  else Ok (mentioned ∪ list_to_set (members_of c), out ++ [rewritten c]).
Proof.
  unfold validate_round. cbn [fst snd]. rewrite validate_clique_cases.
  destruct (str_in _ _); simpl; [|done].
  repeat (case_bool_decide; simpl; [|done]). done.
Qed.

Lemma for_each_cons {A I} (body : A -> I -> result A) a i (l : list I) :
  for_each body a (i :: l) = body a i ≫= fun a' => for_each body a' l.
Proof. reflexivity. Qed.

(** The loop of [validate] goes through exactly on well-formed lists. *)
Lemma validate_loop (size : Z) (cliques : list clique) (m0 : gset Cell)
    (out0 : list clique) (st : gset Cell * list clique) :
  for_each (validate_round size) (m0, out0) cliques = Ok st <->
  st = (m0 ∪ list_to_set (mjoin (members_of <$> cliques)),
        out0 ++ (rewritten <$> cliques)) /\
  well_formed size cliques /\
  forall c x, c ∈ cliques -> x ∈ members_of c -> x ∉ m0.
Proof.
  revert m0 out0. induction cliques as [|c cliques IH]; intros m0 out0.
  - csimpl. rewrite app_nil_r, (right_id_L ∅ (∪)). split.
    + intros [= <-]. split_and!; [done| |by intros ?? ?%elem_of_nil].
      split; [by intros ? ?%elem_of_nil|]. by intros [|?] ?????.
    + by intros [-> _].
  - rewrite for_each_cons, validate_round_cases. split.
    + intros Hrun.
      destruct (str_in (operator_of c) "+-*/.") eqn:Hop; simpl in Hrun; [|done].
      case_bool_decide as Hin; simpl in Hrun; [|done].
      case_bool_decide as Hfresh; simpl in Hrun; [|done].
      apply IH in Hrun as (-> & [Hwf Hdisj] & Hm0).
      rewrite Forall_forall in Hin, Hfresh.
      split_and!.
      * f_equal; [|by rewrite <- (assoc_L (++))].
        csimpl. apply set_eq. intros x.
        rewrite !elem_of_union, !elem_of_list_to_set, elem_of_app. tauto.
      * split.
        -- intros c' [->|Hc']%elem_of_cons; [by split|by apply Hwf].
        -- intros [|i] [|j] ci cj x Hi Hj Hxi Hxj; simpl in Hi, Hj.
           ++ done.
           ++ injection Hi as <-. apply list_elem_of_lookup_2 in Hj.
              destruct (Hm0 cj x Hj Hxj). apply elem_of_union. right.
              by apply elem_of_list_to_set.
           ++ injection Hj as <-. apply list_elem_of_lookup_2 in Hi.
              destruct (Hm0 ci x Hi Hxi). apply elem_of_union. right.
              by apply elem_of_list_to_set.
           ++ f_equal. by eapply Hdisj.
      * intros c' x [->|Hc']%elem_of_cons Hx; [by apply Hfresh|].
        intros Hxm. apply (Hm0 c' x Hc' Hx). apply elem_of_union. by left.
    + intros (-> & [Hwf Hdisj] & Hm0).
      destruct (Hwf c) as [Hop Hin]; [left|]. rewrite Hop. simpl.
      rewrite bool_decide_eq_true_2 by (by apply Forall_forall). simpl.
      rewrite bool_decide_eq_true_2
        by (apply Forall_forall; intros x Hx; apply (Hm0 c x); [left|done]).
      simpl. apply IH. split_and!.
      * f_equal; [|by rewrite <- (assoc_L (++))].
        csimpl. apply set_eq. intros x.
        rewrite !elem_of_union, !elem_of_list_to_set, elem_of_app. tauto.
      * split.
        -- intros c' Hc'. apply Hwf. by right.
        -- intros i j ci cj x Hi Hj Hxi Hxj.
           assert (S i = S j) by (by eapply (Hdisj (S i) (S j))). lia.
      * intros c' x Hc' Hx [Hxm|Hxc%elem_of_list_to_set]%elem_of_union.
        -- apply (Hm0 c' x); [by right|done..].
        -- apply list_elem_of_lookup in Hc' as [j Hj].
           assert (0%nat = S j) by (by eapply (Hdisj 0%nat (S j) c c' x)). lia.
Qed.

Lemma covering_difference (size : Z) (cliques : list clique) (m : gset Cell) :
  (forall x, x ∈ m <-> exists c, c ∈ cliques /\ x ∈ members_of c) ->
  (list_to_set (all_cells size) : gset Cell) ∖ m = ∅ <-> covering size cliques.
Proof.
  intros Hm. unfold covering. split.
  - intros Hempty x Hx. apply Hm.
    destruct (decide (x ∈ m)) as [|Hnot]; [done|].
    cut (x ∈ (∅ : gset Cell)); [set_solver|]. rewrite <- Hempty.
    apply elem_of_difference. split; [|done].
    by apply elem_of_list_to_set, elem_of_all_cells.
  - intros Hcov. apply set_eq. intros x. split; [|set_solver].
    intros [Hx%elem_of_list_to_set%elem_of_all_cells Hnot]%elem_of_difference.
    destruct Hnot. by apply Hm, Hcov.
Qed.

Lemma elem_of_members_join (cliques : list clique) x :
  x ∈ mjoin (members_of <$> cliques) <-> exists c, c ∈ cliques /\ x ∈ members_of c.
Proof.
  rewrite list_elem_of_join. split.
  - intros (l & Hx & (c & -> & Hc)%list_elem_of_fmap). by exists c.
  - intros (c & Hc & Hx). exists (members_of c). split; [done|].
    by apply list_elem_of_fmap_2.
Qed.

(** X13.  [validate] accepts a list exactly when it is well formed (every
    operator occurs in ["+-*/."], every member lies in the grid, no cell
    belongs to two cliques) and covers the grid; what it then leaves in the
    list is every clique with its members made duplicate-free and its
    operator and target untouched, in the same order. *)
Theorem validate_accepts_iff (size : Z) (cliques cliques' : list clique) :
  validate size cliques = Ok cliques' <->
  cliques' = rewritten <$> cliques /\
  well_formed size cliques /\ covering size cliques.
Proof.
  rewrite validate_unfold, bind_Ok. split.
  - intros (st & (-> & Hwf & _)%validate_loop & Hfin). cbn [fst snd] in Hfin.
    case_bool_decide as Hcov; simpl in Hfin; [|done]. injection Hfin as <-.
    split_and!; [done..|].
    eapply covering_difference; [|exact Hcov].
    intros x. rewrite elem_of_union, elem_of_list_to_set, elem_of_members_join.
    split; [by intros [?%elem_of_empty|?]|by right].
  - intros (-> & Hwf & Hcov). eexists. split.
    + apply validate_loop. split_and!; [done..|]. by intros ??? ? ?%elem_of_empty.
    + cbn [fst snd]. rewrite bool_decide_eq_true_2; [done|].
      eapply covering_difference; [|exact Hcov].
      intros x. rewrite elem_of_union, elem_of_list_to_set, elem_of_members_join.
      split; [by intros [?%elem_of_empty|?]|by right].
Qed.

Lemma all_cells_length size : length (all_cells size) = (Z.to_nat size * Z.to_nat size)%nat.
Proof.
  unfold all_cells.
  assert (forall (l1 l2 : list Z),
            length (y ← l1; x ← l2; [(x, y)]) = (length l1 * length l2)%nat) as H.
  { intros l1 l2. induction l1 as [|y l1 IH]; csimpl; [done|].
    rewrite length_app, IH. f_equal.
    clear. induction l2 as [|x l2 IH]; csimpl; [done|]. by rewrite IH. }
  by rewrite H, length_seqZ.
Qed.

(** X14.  After [validate] has accepted a list, the member tuples it
    leaves behind partition the grid: written one after the other they
    list every cell of the grid exactly once, so the clique sizes add up to
    [size * size]. *)
Theorem validate_partition (size : Z) (cliques cliques' : list clique) :
  validate size cliques = Ok cliques' ->
  mjoin (members_of <$> cliques') ≡ₚ all_cells size /\
  NoDup (mjoin (members_of <$> cliques')) /\
  length (mjoin (members_of <$> cliques')) = (Z.to_nat size * Z.to_nat size)%nat.
Proof.
  intros [Hnd Hin]%validate_Ok.
  assert (mjoin (members_of <$> cliques') ≡ₚ all_cells size) as Hperm
    by (apply NoDup_Permutation; [done|apply all_cells_NoDup|done]).
  split_and!; [done..|]. by rewrite Hperm, all_cells_length.
Qed.

Lemma validate_partition_witness :
  mjoin (members_of <$> [([(1, 1)], "+-"%string, 1)]) ≡ₚ all_cells 1 /\
  NoDup (mjoin (members_of <$> [([(1, 1)], "+-"%string, 1)])) /\
  length (mjoin (members_of <$> [([(1, 1)], "+-"%string, 1)]))
  = (Z.to_nat 1 * Z.to_nat 1)%nat.
Proof.
  apply (validate_partition 1 [([(1, 1); (1, 1)], "+-"%string, 1)]).
  vm_compute. reflexivity.
Defined.

Lemma validate_loop_well_formed (size : Z) (pre : list clique) :
  well_formed size pre ->
  for_each (validate_round size) (∅, []) pre
  = Ok (list_to_set (mjoin (members_of <$> pre)), rewritten <$> pre).
Proof.
  intros Hwf. apply validate_loop. split_and!; [|done|by intros ??? ? ?%elem_of_empty].
  by rewrite (left_id_L ∅ (∪)).
Qed.

(** X15.  The first clique that fails a test decides how [validate]
    exits, and within a clique the tests come in a fixed order.  After a
    well-formed prefix: an operator that does not occur in ["+-*/."] gives
    exit status 1; otherwise a member outside the grid gives status 2;
    otherwise a member that an earlier clique already has gives status 3.
    What follows the clique is not looked at. *)
Theorem validate_first_offence (size : Z) (pre post : list clique) (c : clique) :
  well_formed size pre ->
  (str_in (operator_of c) "+-*/." = false ->
   validate size (pre ++ c :: post) = Raise (SystemExit 1)) /\
  (str_in (operator_of c) "+-*/." = true ->
   ~ Forall (in_grid size) (members_of c) ->
   validate size (pre ++ c :: post) = Raise (SystemExit 2)) /\
  (str_in (operator_of c) "+-*/." = true ->
   Forall (in_grid size) (members_of c) ->
   (exists x c0, c0 ∈ pre /\ x ∈ members_of c0 /\ x ∈ members_of c) ->
   validate size (pre ++ c :: post) = Raise (SystemExit 3)).
Proof.
  intros Hwf.
  assert (validate size (pre ++ c :: post) =
          validate_round size
            (list_to_set (mjoin (members_of <$> pre)), rewritten <$> pre) c ≫= fun st =>
          for_each (validate_round size) st post ≫= fun st =>
            if negb (bool_decide
                       ((list_to_set (all_cells size) : gset Cell) ∖ st.1 = ∅))
            then Raise (SystemExit 4) else Ok st.2) as ->.
  { rewrite validate_unfold, for_each_app, (validate_loop_well_formed _ _ Hwf).
    cbn [mbind result_bind]. rewrite for_each_cons.
    by destruct (validate_round _ _ c). }
  rewrite validate_round_cases. split_and!.
  - by intros ->.
  - intros -> Hout. by rewrite bool_decide_eq_false_2.
  - intros -> Hin (x & c0 & Hc0 & Hx0 & Hx).
    rewrite bool_decide_eq_true_2 by done. simpl.
    rewrite bool_decide_eq_false_2; [done|].
    rewrite Forall_forall. intros Hfresh. apply (Hfresh x Hx).
    apply elem_of_list_to_set, elem_of_members_join. by exists c0.
Qed.

Lemma validate_first_offence_witness :
  (str_in (operator_of ([(1, 1); (3, 1)], "+"%string, 2)) "+-*/." = false ->
   validate 2 ([([(1, 1)], "."%string, 1)] ++ ([(1, 1); (3, 1)], "+"%string, 2) :: [])
   = Raise (SystemExit 1)) /\
  (str_in (operator_of ([(1, 1); (3, 1)], "+"%string, 2)) "+-*/." = true ->
   ~ Forall (in_grid 2) (members_of ([(1, 1); (3, 1)], "+"%string, 2)) ->
   validate 2 ([([(1, 1)], "."%string, 1)] ++ ([(1, 1); (3, 1)], "+"%string, 2) :: [])
   = Raise (SystemExit 2)) /\
  (str_in (operator_of ([(1, 1); (3, 1)], "+"%string, 2)) "+-*/." = true ->
   Forall (in_grid 2) (members_of ([(1, 1); (3, 1)], "+"%string, 2)) ->
   (exists x c0, c0 ∈ [([(1, 1)], "."%string, 1) : clique] /\ x ∈ members_of c0 /\
      x ∈ members_of ([(1, 1); (3, 1)], "+"%string, 2)) ->
   validate 2 ([([(1, 1)], "."%string, 1)] ++ ([(1, 1); (3, 1)], "+"%string, 2) :: [])
   = Raise (SystemExit 3)).
Proof.
  apply (validate_first_offence 2 [([(1, 1)], "."%string, 1)] []
           ([(1, 1); (3, 1)], "+"%string, 2)).
  split.
  - intros c ->%list_elem_of_singleton. split; [done|].
    intros x ->%list_elem_of_singleton. unfold in_grid. simpl. lia.
  - intros [|i] [|j] ci cj x Hi Hj; try done.
Defined.

Lemma validate_loop_raises (size : Z) (cliques : list clique)
    (st : gset Cell * list clique) e :
  for_each (validate_round size) st cliques = Raise e ->
  e = SystemExit 1 \/ e = SystemExit 2 \/ e = SystemExit 3.
Proof.
  revert st. induction cliques as [|c cliques IH]; intros [m out]; [done|].
  rewrite for_each_cons, validate_round_cases.
  destruct (str_in _ _); simpl; [|intros [= <-]; auto].
  case_bool_decide; simpl; [|intros [= <-]; auto].
  case_bool_decide; simpl; [|intros [= <-]; auto].
  apply IH.
Qed.

(** X16.  [validate] exits with status 4 exactly when the list is well
    formed but leaves some cell of the grid uncovered; no other failure
    ends in status 4. *)
Theorem validate_incomplete_iff (size : Z) (cliques : list clique) :
  validate size cliques = Raise (SystemExit 4) <->
  well_formed size cliques /\ ~ covering size cliques.
Proof.
  rewrite validate_unfold. split.
  - destruct (for_each _ _ cliques) as [st|e] eqn:Hloop; simpl.
    + apply validate_loop in Hloop as (-> & Hwf & _). cbn [fst].
      case_bool_decide as Hcov; simpl; [done|]. intros _. split; [done|].
      intros Hcovering. apply Hcov.
      eapply covering_difference; [|exact Hcovering].
      intros x. rewrite elem_of_union, elem_of_list_to_set, elem_of_members_join.
      split; [by intros [?%elem_of_empty|?]|by right].
    + intros [= ->]. by apply validate_loop_raises in Hloop as [?|[?|?]].
  - intros [Hwf Hnot]. rewrite (validate_loop_well_formed _ _ Hwf). simpl.
    rewrite bool_decide_eq_false_2; [done|].
    intros Hempty. apply Hnot.
    eapply covering_difference; [|exact Hempty].
    intros x. by rewrite elem_of_list_to_set, elem_of_members_join.
Qed.

(** ** The shape of generated cliques *)

Lemma returns_conj {A} (m : M A) (P Q : A -> Prop) :
  returns m P -> returns m Q -> returns m (fun a => P a /\ Q a).
Proof.
  intros HP HQ r. destruct (HP r) as (a & r1 & Hr & Ha).
  destruct (HQ r) as (a' & r1' & Hr' & Ha'). rewrite Hr in Hr'.
  injection Hr' as <- <-. by exists a, r1.
Qed.

Lemma chain_cons c1 c2 l :
  adjacent c1 c2 = true -> chain (c2 :: l) -> chain (c1 :: c2 :: l).
Proof.
  intros Hadj Hchain [|i] x y Hx Hy; simpl in *.
  - by injection Hx as <-; injection Hy as <-.
  - by apply (Hchain i).
Qed.

Lemma chain_singleton c : chain [c].
Proof. intros [|i] x y Hx Hy; simpl in *; done. Qed.

Lemma returns_grow_chain k cell uncaged members :
  returns (grow k cell uncaged members) (fun um =>
    exists new, um.2 = members ++ new /\ (length new <= k)%nat /\ chain (cell :: new)).
Proof.
  revert cell uncaged members.
  induction k as [|k IH]; intros cell uncaged members; cbn [grow].
  - apply returns_ret. exists []. rewrite app_nil_r.
    split_and!; [done|simpl; lia|apply chain_singleton].
  - destruct (filter _ uncaged) as [|a adjs] eqn:Hadjs.
    { apply returns_ret. exists []. rewrite app_nil_r.
      split_and!; [done|simpl; lia|apply chain_singleton]. }
    eapply returns_bind; [by apply returns_choice|].
    intros cell' Hcell'. cbn beta in Hcell'.
    rewrite <- Hadjs in Hcell'. apply list_elem_of_filter in Hcell' as [Hadj Hin].
    destruct (list_remove_spec cell' uncaged Hin) as (uncaged' & Hrm & _).
    apply (returns_lift_bind _ _ _ _ Hrm).
    eapply returns_weaken; [apply IH|].
    intros [u m] (new & Hm & Hlen & Hchain). simpl in *.
    exists (cell' :: new). split_and!.
    + by rewrite Hm, <- (assoc_L (++)).
    + simpl. lia.
    + by apply chain_cons.
Qed.

Lemma returns_make_clique_members size board members :
  latin_dict size board -> members <> [] ->
  (forall m, m ∈ members -> m ∈ dict_keys board) ->
  returns (make_clique board members) (fun c => members_of c = members).
Proof.
  intros. eapply returns_weaken; [by eapply returns_make_clique|]. by intros c [? _].
Qed.

Lemma returns_carve_shape size board fuel uncaged cliques (shape : list Cell -> Prop) :
  latin_dict size board ->
  (forall m, m ∈ uncaged -> m ∈ dict_keys board) ->
  (length uncaged <= fuel)%nat ->
  (forall members, (1 <= length members <= 4)%nat -> chain members -> shape members) ->
  Forall (fun c => shape (members_of c)) cliques ->
  returns (carve fuel board uncaged cliques) (Forall (fun c => shape (members_of c))).
Proof.
  intros Hlat Hin Hfuel Hshape. revert uncaged cliques Hin Hfuel.
  induction fuel as [|fuel IH]; intros uncaged cliques Hin Hfuel Hall.
  - destruct uncaged; [|simpl in Hfuel; lia]. by apply returns_ret.
  - destruct uncaged as [|cell uncaged]; cbn [carve]; [by apply returns_ret|].
    eapply returns_bind; [by apply returns_randint|]. intros csize Hcsize.
    cbn beta in Hcsize.
    eapply returns_lift_bind.
    { cbn [list_remove]. by rewrite decide_True. }
    eapply returns_bind.
    { apply returns_conj;
        [by apply (returns_grow _ cell uncaged [cell])|apply returns_grow_chain]. }
    intros [uncaged' members] [[Hperm Hne] (new & Hm & Hlen & Hchain)].
    cbn [fst snd] in Hperm, Hne, Hm.
    assert (forall m, m ∈ members ++ uncaged' -> m ∈ dict_keys board) as Hin'.
    { intros m Hmem. rewrite Hperm in Hmem. by apply Hin. }
    eapply returns_bind.
    { apply (returns_make_clique_members size); [done..|].
      intros m Hmem. apply Hin', elem_of_app. by left. }
    intros c Hc. cbn beta in Hc.
    apply IH.
    + intros m Hmem. apply Hin', elem_of_app. by right.
    + apply Permutation_length in Hperm. rewrite length_app in Hperm.
      destruct members; [done|]. simpl in *. lia.
    + apply Forall_app. split; [done|]. constructor; [|done].
      rewrite Hc, Hm. apply Hshape; [simpl; lia|done].
Qed.

(** X18.  Every clique that [generate] makes has between one and four
    members, and each member is orthogonally adjacent to the one added
    before it: a clique is a path on the grid. *)
Theorem generate_clique_shape (size : Z) (r : rng) :
  exists cliques r',
    generate size r = Ok ((size, cliques), r') /\
    forall c, c ∈ cliques ->
      (1 <= length (members_of c) <= 4)%nat /\ chain (members_of c).
Proof.
  destruct (generate_returns size r) as (board & cliques & r' & Hgenb & Hgen & _).
  exists cliques, r'. split; [done|]. apply Forall_forall.
  assert (returns (generate_with_board size) (fun bc =>
            Forall (fun c => (1 <= length (members_of c) <= 4)%nat /\
                             chain (members_of c)) bc.2.2)) as Hret.
  { unfold generate_with_board.
    eapply returns_bind; [apply returns_shuffle_board|]. intros rows Hrows.
    destruct (board_dict_latin size rows Hrows) as (b & Hb & Hlat).
    apply (returns_lift_bind _ _ _ _ Hb).
    eapply returns_bind.
    { apply (returns_carve_shape size b _ _ []
               (fun ms => (1 <= length ms <= 4)%nat /\ chain ms));
        [done| |done|done|constructor].
      intros m Hm. by rewrite sorted_by_Permutation in Hm. }
    intros cs Hcs. by apply returns_ret. }
  destruct (Hret r) as ([b [n cs]] & r1 & Hrun & Hshape).
  rewrite Hgenb in Hrun. by injection Hrun as <- <- <-.
Qed.


(** ** Generated puzzles pass validation and can be solved *)

Lemma generated_well_formed size board (cliques : list clique) :
  Forall (made_from board) cliques ->
  mjoin (members_of <$> cliques) ≡ₚ all_cells size ->
  well_formed size cliques /\ covering size cliques.
Proof.
  intros Hmade Hperm. rewrite Forall_forall in Hmade.
  assert (NoDup (mjoin (members_of <$> cliques))) as Hnd
    by (rewrite Hperm; apply all_cells_NoDup).
  split; [split|].
  - intros c Hc. split.
    + destruct (Hmade c Hc) as (values & _ & Hlab).
      destruct values as [|v1 [|v2 [|v3 rest]]]; simpl in Hlab; [done|..].
      * by destruct Hlab as [-> _].
      * destruct Hlab as [Hdiv Hsub].
        destruct (decide (v1 mod v2 = 0)) as [Hmod|Hmod].
        -- by destruct (Hdiv Hmod) as [-> _].
        -- by destruct (Hsub Hmod) as [-> _].
      * by destruct Hlab as [[-> _]|[-> _]].
    + intros x Hx. apply elem_of_all_cells. rewrite <- Hperm.
      apply elem_of_members_join. by exists c.
  - intros i j ci cj x Hi Hj Hxi Hxj.
    apply (NoDup_join_lookup (members_of <$> cliques) i j
             (members_of ci) (members_of cj) x); [done| | |done..].
    + by rewrite list_lookup_fmap, Hi.
    + by rewrite list_lookup_fmap, Hj.
  - intros x Hx%elem_of_all_cells. rewrite <- Hperm in Hx.
    by apply elem_of_members_join.
Qed.

Lemma validate_Ok_intro (size : Z) (cliques : list clique) :
  well_formed size cliques -> covering size cliques ->
  validate size cliques = Ok (rewritten <$> cliques).
Proof.
  intros Hwf Hcov. rewrite validate_unfold, (validate_loop_well_formed _ _ Hwf).
  simpl. rewrite bool_decide_eq_true_2; [done|].
  eapply covering_difference; [|exact Hcov].
  intros x. by rewrite elem_of_list_to_set, elem_of_members_join.
Qed.

(** X20.  Whatever the random numbers, the cliques that [generate]
    returns are accepted by [validate]: the generator's output never makes
    the validator exit. *)
Theorem generate_passes_validate (size : Z) (r : rng) :
  exists cliques r',
    generate size r = Ok ((size, cliques), r') /\
    validate size cliques = Ok (rewritten <$> cliques).
Proof.
  destruct (generate_returns size r)
    as (board & cliques & r' & _ & Hgen & _ & Hmade & Hperm).
  exists cliques, r'. split; [done|].
  destruct (generated_well_formed size board cliques Hmade Hperm) as [Hwf Hcov].
  by apply validate_Ok_intro.
Qed.

Lemma value_on_key size board m :
  latin_dict size board -> m ∈ dict_keys board ->
  dict_get board m = Ok (value_on board m) /\ 1 <= value_on board m <= size /\
  (m, value_on board m) ∈ board.
Proof.
  intros Hlat Hm. destruct (dict_get_total size board m Hlat Hm) as (v & Hv & Hr).
  unfold value_on. rewrite Hv. split_and!; [done|lia|lia|by apply dict_get_Ok].
Qed.

Lemma comprehension_value_on board (l : list Cell) values :
  comprehension (dict_get board) l = Ok values ->
  values = value_on board <$> l /\ forall m, m ∈ l -> m ∈ dict_keys board.
Proof.
  intros Hget%comprehension_Ok. induction Hget as [|m v l values Hv Hget [IH1 IH2]].
  - split; [done|]. by intros ? ?%elem_of_nil.
  - split.
    + csimpl. unfold value_on at 1. rewrite Hv. by f_equal.
    + intros m' [->|Hm']%elem_of_cons; [|by apply IH2].
      apply dict_get_Ok in Hv. apply list_elem_of_fmap. by exists (m, v).
Qed.

Lemma made_from_solved size board c :
  latin_dict size board -> made_from board c -> solved_on board c.
Proof.
  intros Hlat (values & Hvalues & Hlab).
  destruct (comprehension_value_on _ _ _ Hvalues) as [Heq Hkeys].
  destruct (labelled_callable _ _ _ Hlab) as [Hne Hcall].
  assert (length values = length (members_of c)) as Hlen
    by (by rewrite Heq, length_fmap).
  split_and!.
  - intros Hnil. rewrite Hnil in Hlen. by destruct values.
  - done.
  - destruct Hcall; [left; lia|by right].
  - assert (Forall (fun v => 1 <= v) values) as Hpos.
    { rewrite Heq. apply Forall_fmap, Forall_forall. intros m Hm. simpl.
      destruct (value_on_key size board m Hlat (Hkeys m Hm)) as (_ & ? & _). lia. }
    destruct (labelled_reduce values _ _ Hpos Hlab) as (r & Hr & Hreq).
    exists values, r. by rewrite <- Heq.
Qed.

Lemma tuple_of_set_Permutation members : NoDup members -> tuple_of_set members ≡ₚ members.
Proof.
  intros Hnd. apply NoDup_Permutation; [apply tuple_of_set_NoDup|done|].
  intros x. apply elem_of_tuple_of_set.
Qed.

Lemma solved_rewritten board c :
  NoDup (members_of c) -> solved_on board c -> solved_on board (rewritten c).
Proof.
  intros Hnd (Hne & Hkeys & Hcall & p & r & Hp & Hr & Heq).
  pose proof (tuple_of_set_Permutation _ Hnd) as Hperm.
  unfold solved_on, rewritten. cbn [members_of operator_of target_of fst snd].
  split_and!.
  - intros Hnil. rewrite Hnil in Hperm. by apply Permutation_nil_l in Hperm.
  - intros m Hm. apply Hkeys. by rewrite <- Hperm.
  - by rewrite (Permutation_length Hperm).
  - exists p, r. split_and!; [|done..]. by rewrite Hp, Hperm.
Qed.

(** On a Latin board no two cells that share exactly one coordinate hold
    the same value: the values of two cliques never clash. *)
Lemma latin_no_clash size board (A B : list Cell) :
  latin_dict size board ->
  (forall m, m ∈ A -> m ∈ dict_keys board) ->
  (forall m, m ∈ B -> m ∈ dict_keys board) ->
  clash A (value_on board <$> A) B (value_on board <$> B) = false.
Proof.
  intros Hlat HA HB.
  destruct (clash _ _ _ _) eqn:Hclash; [|done].
  apply clash_true in Hclash as (i & j & mA & mB & v & Hi & Hj & Hvi & Hvj & Hx).
  rewrite list_lookup_fmap, Hi in Hvi. rewrite list_lookup_fmap, Hj in Hvj.
  injection Hvi as Hvi. injection Hvj as Hvj.
  destruct (value_on_key size board mA Hlat) as (_ & _ & HinA);
    [by eapply HA, list_elem_of_lookup_2|].
  destruct (value_on_key size board mB Hlat) as (_ & _ & HinB);
    [by eapply HB, list_elem_of_lookup_2|].
  destruct Hlat as (_ & _ & _ & Hdiff).
  destruct (Hdiff _ _ _ _ HinA HinB Hx). congruence.
Qed.

Lemma solved_clique_domain size board c :
  latin_dict size board -> solved_on board c ->
  exists dom, clique_domain size c = Ok dom /\
    value_on board <$> members_of c ∈ dom.
Proof.
  intros Hlat (Hne & Hkeys & Hcall & p & r & Hp & Hr & Heq).
  destruct c as [[members operator] target].
  cbn [members_of operator_of target_of fst snd] in *.
  destruct (clique_domain_total size members operator target Hne Hcall) as [dom Hdom].
  exists dom. split; [done|]. unfold clique_domain in Hdom.
  apply (filter_list_elem_of _ _ _ _ Hdom).
  assert (Forall (fun v => 1 <= v <= size) (value_on board <$> members)) as Hrange.
  { apply Forall_fmap, Forall_forall. intros m Hm. simpl.
    by destruct (value_on_key size board m Hlat (Hkeys m Hm)) as (_ & ? & _). }
  split.
  - apply elem_of_product. split; [by rewrite length_fmap|].
    eapply Forall_impl; [exact Hrange|]. intros v Hv. cbn beta in Hv.
    apply elem_of_seqZ. lia.
  - unfold qualifies. rewrite conflicting_clash by (by rewrite length_fmap).
    rewrite (latin_no_clash size) by done. simpl. unfold satisfies.
    apply (any_until_true_intro _ _ p).
    + intros q Hq%permutations_Permutation.
      apply (satisfies_body_total _ _ (value_on board <$> members)); [| | |done].
      * destruct Hcall; [left; by rewrite length_fmap|by right].
      * by destruct members.
      * eapply Forall_impl; [exact Hrange|]. simpl. lia.
    + by apply permutations_complete.
    + rewrite Hr. simpl. by rewrite Heq.
Qed.

Lemma init_Ok (size : Z) (cliques cliques' : list clique)
    (d : gmap (list Cell) (list (list Z)))
    (nb : gmap (list Cell) (list (list Cell))) :
  validate size cliques = Ok cliques' ->
  gdomains size cliques' = Ok d ->
  gneighbors cliques' = Ok nb ->
  exists ken, Kenken.init size cliques = Ok ken /\
    Kenken.variables ken = members_of <$> cliques' /\
    Kenken.domains ken = d /\ Kenken.neighbors ken = nb.
Proof.
  intros Hval Hd Hnb. unfold Kenken.init. rewrite Hval. simpl.
  rewrite Hd. simpl. rewrite Hnb. simpl. by eexists.
Qed.

Lemma init_Ok_inv (size : Z) (cliques : list clique) ken :
  Kenken.init size cliques = Ok ken ->
  exists cliques',
    validate size cliques = Ok cliques' /\
    gdomains size cliques' = Ok (Kenken.domains ken) /\
    gneighbors cliques' = Ok (Kenken.neighbors ken) /\
    Kenken.variables ken = members_of <$> cliques' /\
    Kenken.size ken = size /\ Kenken.checks ken = 0.
Proof.
  unfold Kenken.init.
  intros (cliques' & Hval & (d & Hd & (nb & Hnb & [= <-])%bind_Ok)%bind_Ok)%bind_Ok.
  by exists cliques'.
Qed.

(** X17.  A [Kenken] object that [__init__] has built is a well-formed
    constraint problem: its variables, written one after the other, list
    every cell of the grid exactly once; the domains and the neighbour
    lists have exactly the variables as keys, and only variables occur in
    a neighbour list. *)
Theorem init_well_formed (size : Z) (cliques : list clique) (ken : Kenken.t) :
  Kenken.init size cliques = Ok ken ->
  Kenken.size ken = size /\
  mjoin (Kenken.variables ken) ≡ₚ all_cells size /\
  (forall A, is_Some (Kenken.domains ken !! A) <-> A ∈ Kenken.variables ken) /\
  (forall A, is_Some (Kenken.neighbors ken !! A) <-> A ∈ Kenken.variables ken) /\
  (forall A nA B, Kenken.neighbors ken !! A = Some nA -> B ∈ nA ->
     B ∈ Kenken.variables ken).
Proof.
  intros (cliques' & Hval & Hd & Hnb & Hvars & Hsize & _)%init_Ok_inv.
  rewrite Hvars. split; [done|]. split.
  { apply validate_Ok in Hval as [Hnd Hin].
    apply NoDup_Permutation; [done|apply all_cells_NoDup|done]. }
  destruct (gneighbors_spec cliques') as (nb & Hnb' & Hdom & Hrel).
  rewrite Hnb in Hnb'. injection Hnb' as <-.
  split_and!.
  - intros A. rewrite (gdomains_keys size cliques' ∅ _ A Hd), lookup_empty.
    split; [by intros [[? ?]|?]|by right].
  - done.
  - intros A nA B HnA HB.
    assert (neighbour_of (Kenken.neighbors ken) A B) as Hn by (by exists nA).
    apply Hrel in Hn. tauto.
Qed.

Lemma init_well_formed_witness :
  Kenken.size
    (Kenken.Build [[(1, 1)]] {[ [(1, 1)] := [[1]] ]} {[ [(1, 1)] := [] ]} 1 0 1
       [([(1, 1)], ("."%string, 1))]) = 1 /\
  mjoin (Kenken.variables
    (Kenken.Build [[(1, 1)]] {[ [(1, 1)] := [[1]] ]} {[ [(1, 1)] := [] ]} 1 0 1
       [([(1, 1)], ("."%string, 1))])) ≡ₚ all_cells 1 /\
  (forall A, is_Some (Kenken.domains
    (Kenken.Build [[(1, 1)]] {[ [(1, 1)] := [[1]] ]} {[ [(1, 1)] := [] ]} 1 0 1
       [([(1, 1)], ("."%string, 1))]) !! A) <-> A ∈ Kenken.variables
    (Kenken.Build [[(1, 1)]] {[ [(1, 1)] := [[1]] ]} {[ [(1, 1)] := [] ]} 1 0 1
       [([(1, 1)], ("."%string, 1))])) /\
  (forall A, is_Some (Kenken.neighbors
    (Kenken.Build [[(1, 1)]] {[ [(1, 1)] := [[1]] ]} {[ [(1, 1)] := [] ]} 1 0 1
       [([(1, 1)], ("."%string, 1))]) !! A) <-> A ∈ Kenken.variables
    (Kenken.Build [[(1, 1)]] {[ [(1, 1)] := [[1]] ]} {[ [(1, 1)] := [] ]} 1 0 1
       [([(1, 1)], ("."%string, 1))])) /\
  (forall A nA B, Kenken.neighbors
    (Kenken.Build [[(1, 1)]] {[ [(1, 1)] := [[1]] ]} {[ [(1, 1)] := [] ]} 1 0 1
       [([(1, 1)], ("."%string, 1))]) !! A = Some nA -> B ∈ nA ->
     B ∈ Kenken.variables
    (Kenken.Build [[(1, 1)]] {[ [(1, 1)] := [[1]] ]} {[ [(1, 1)] := [] ]} 1 0 1
       [([(1, 1)], ("."%string, 1))])).
Proof.
  apply (init_well_formed 1 [([(1, 1)], "."%string, 1)]).
  vm_compute. reflexivity.
Defined.

(** What [kenken_input] returns, with the board and the cliques that
    [generate] made on the way. *)
Lemma kenken_input_returns (size : Z) (r : rng) :
  exists board cliques ken op r',
    generate_with_board size r = Ok ((board, (size, cliques)), r') /\
    kenken_input size r = Ok ((ken, members_of <$> cliques, op), r') /\
    length op = length cliques /\
    latin_dict size board /\
    mjoin (members_of <$> cliques) ≡ₚ all_cells size /\
    Forall (solved_on board) (rewritten <$> cliques) /\
    validate size cliques = Ok (rewritten <$> cliques) /\
    gdomains size (rewritten <$> cliques) = Ok (Kenken.domains ken) /\
    Kenken.variables ken = members_of <$> (rewritten <$> cliques).
Proof.
  destruct (generate_returns size r)
    as (board & cliques & r' & Hgenb & Hgen & Hlat & Hmade & Hperm).
  destruct (generated_well_formed size board cliques Hmade Hperm) as [Hwf Hcov].
  pose proof (validate_Ok_intro size cliques Hwf Hcov) as Hval.
  assert (NoDup (mjoin (members_of <$> cliques))) as Hnd
    by (rewrite Hperm; apply all_cells_NoDup).
  assert (Forall (solved_on board) (rewritten <$> cliques)) as Hsolved.
  { apply Forall_fmap, Forall_forall. intros c Hc. simpl.
    apply solved_rewritten.
    - apply (NoDup_join_elem_of (members_of <$> cliques)); [done|].
      by apply list_elem_of_fmap_2.
    - apply (made_from_solved size); [done|].
      rewrite Forall_forall in Hmade. by apply Hmade. }
  destruct (gdomains_total size (rewritten <$> cliques)) as [d Hd].
  { intros c Hc. rewrite Forall_forall in Hsolved.
    destruct (solved_clique_domain size board c Hlat (Hsolved c Hc)) as (dom & ? & _).
    by exists dom. }
  destruct (gneighbors_spec (rewritten <$> cliques)) as (nb & Hnb & _).
  destruct (init_Ok size cliques _ d nb Hval Hd Hnb) as (ken & Hinit & Hvars & Hdom & _).
  exists board, cliques, ken. eexists. exists r'.
  split_and!; [done| |..].
  - unfold kenken_input. rewrite (bindM_Ok _ _ _ _ _ Hgen). cbn beta iota.
    rewrite Hinit. reflexivity.
  - by rewrite length_fmap.
  - done.
  - done.
  - done.
  - done.
  - by rewrite Hdom.
  - done.
Qed.

(** X21.  Every puzzle that [kenken_input] builds has a solution: for
    all random numbers it returns a [Kenken] object, and giving every
    variable the values that its cells have on the generated board (a Latin
    square) picks a tuple of the variable's domain and passes the
    constraint between every two variables. *)
Theorem kenken_input_solvable (size : Z) (r : rng) :
  exists board cliques ken op r',
    generate_with_board size r = Ok ((board, (size, cliques)), r') /\
    kenken_input size r = Ok ((ken, members_of <$> cliques, op), r') /\
    latin_dict size board /\
    (forall A, A ∈ Kenken.variables ken ->
       exists dom, Kenken.domains ken !! A = Some dom /\
         value_on board <$> A ∈ dom) /\
    (forall A B checks, A ∈ Kenken.variables ken -> B ∈ Kenken.variables ken ->
       (Kenken.constraint checks A (value_on board <$> A)
                          B (value_on board <$> B)).1 = Ok true).
Proof.
  destruct (kenken_input_returns size r)
    as (board & cliques & ken & op & r' & Hgenb & Hinput & _ & Hlat & _ &
        Hsolved & Hval & Hd & Hvars).
  exists board, cliques, ken, op, r'. split_and!; [done..| |].
  - intros A HA. rewrite Hvars in HA.
    apply list_elem_of_fmap in HA as (c & -> & Hc).
    rewrite Forall_forall in Hsolved. pose proof (Hsolved c Hc) as Hsc.
    destruct (solved_clique_domain size board c Hlat Hsc) as (dom & Hdom & Hin).
    exists dom. split; [|done].
    apply list_elem_of_split in Hc as (pre & post & Hsplit).
    rewrite Hsplit in Hd, Hval.
    destruct (gdomains_lookup _ _ _ _ _ Hd) as (dom' & Hdom' & Hlook);
      [|congruence].
    destruct Hsc as (Hne & _).
    destruct (members_of c) as [|x ms] eqn:Hms; [done|]. rewrite <- Hms.
    apply (validated_key_once size cliques pre c post x Hval).
    rewrite Hms. left.
  - intros A B checks HA HB. unfold Kenken.constraint. cbn [fst].
    case_bool_decide; [done|].
    rewrite Hvars in HA, HB.
    apply list_elem_of_fmap in HA as (cA & -> & HcA).
    apply list_elem_of_fmap in HB as (cB & -> & HcB).
    rewrite Forall_forall in Hsolved.
    destruct (Hsolved cA HcA) as (_ & HkA & _).
    destruct (Hsolved cB HcB) as (_ & HkB & _).
    rewrite conflicting_clash by (by rewrite length_fmap).
    by rewrite (latin_no_clash size).
Qed.

(** X22.  [generate_board] returns for every size and all random
    numbers.  Its colour tuples partition the grid, there is one label per
    colour tuple, and the variable of the [Kenken] object at the same
    position holds the same cells as the colour tuple, possibly in another
    order. *)
Theorem generate_board_returns (board_size : Z) (r : rng) :
  exists colorindex op ken r',
    generate_board board_size r = Ok ((colorindex, op, ken), r') /\
    length op = length colorindex /\
    mjoin colorindex ≡ₚ all_cells board_size /\
    Forall2 (fun color A => A ≡ₚ color) colorindex (Kenken.variables ken).
Proof.
  destruct (kenken_input_returns board_size r)
    as (board & cliques & ken & op & r' & _ & Hinput & Hlen & _ & Hperm & _ & _ & _ & Hvars).
  exists (members_of <$> cliques), op, ken, r'. split_and!.
  - unfold generate_board.
    assert (exists k0, Kenken.init 0 [] = Ok k0) as [k0 Hk0] by (by eexists).
    rewrite Hk0. unfold bindM at 1. unfold lift at 1.
    rewrite (bindM_Ok _ _ _ _ _ Hinput). reflexivity.
  - by rewrite Hlen, length_fmap.
  - done.
  - rewrite Hvars.
    assert (NoDup (mjoin (members_of <$> cliques))) as Hnd
      by (rewrite Hperm; apply all_cells_NoDup).
    apply Forall2_fmap_r, Forall2_fmap, Forall_Forall2_diag, Forall_forall.
    intros c Hc. cbn [rewritten members_of fst].
    apply tuple_of_set_Permutation.
    apply (NoDup_join_elem_of (members_of <$> cliques)); [done|].
    by apply list_elem_of_fmap_2.
Qed.

(** * Part IV: display *)

(** ** Strings *)








Lemma no_space_app (s t : string) : no_space s -> no_space t -> no_space (s ++ t).
Proof. induction s as [|c s IH]; simpl; [done|]. intros [? ?] ?. auto. Qed.






(** ** display: when it raises *)






(** ** display: the dictionary [atomic] *)









(** ** display: the sorted items and the rows *)







(** ** display: the labels *)












(** ** display: the traversal *)




Section display_traversal.
Variable self : Kenken.t.
Variable cs : list clique.
Variable valf : Cell -> option Z.
Hypothesis Hmeta :
  Kenken.meta self = (fun c => (members_of c, (operator_of c, target_of c))) <$> cs.
Hypothesis Hnd : NoDup (mjoin (members_of <$> cs)).
Hypothesis Hgrid :
  forall x, x ∈ mjoin (members_of <$> cs) <-> x ∈ all_cells (Kenken.size self).
Hypothesis Hops : forall c, c ∈ cs -> no_space (operator_of c).





End display_traversal.


